(** * Verification of the full-duplex voice conversation core

    Shallow embedding of four classes of the repository:
    - [ConversationStateMachine], src/lib/voice/conversation-state.ts;
    - [BargeInDetector], barge-in-detector.ts (src/unnamed/part_009), with
      [AudioCapture.calculateEnergy] (src/unnamed/part_008);
    - [VoiceCoordinator], src/lib/voice/VoiceCoordinator.ts;
    - [LipSyncEngine], lipSyncEngine.ts (the last part of
      src/lib/agent/context-manager.ts).

    Conventions.  A mutable object is a record threaded through the
    functions that mutate it.  [Date.now()] is an explicit argument
    [now : Z], in milliseconds.  A callback is a function on an explicit
    world that it may change, or, for the observers of the coordinator,
    an entry appended to a log.  [console] output is left out.  An
    [async] function is cut at its [await]s: one definition runs it up
    to the first [await], further ones resume it with the outcome of the
    awaited call.  The numbers of the lip sync engine are binary64
    numbers: rationals [Q] with every arithmetic operation rounded as
    IEEE 754 rounds it (module [Binary64]).  The audio energies of the
    barge-in detector are exact rationals.  Strings are sequences of
    code units below 256. *)

From Stdlib Require Import ZArith QArith Qround Qminmax Qpower Lia Lqa List String Ascii Bool.
From stdpp Require Import gmap strings.
Import ListNotations.

Local Open Scope Z_scope.

(* ===================================================================== *)
(** * Conversation state machine (conversation-state.ts)                  *)
(* ===================================================================== *)

Module ConversationState.

Inductive ConversationState : Type :=
  | LISTENING | SPEAKING | BARGE_IN | THINKING | IDLE.

Definition state_eqb (a b : ConversationState) : bool :=
  match a, b with
  | LISTENING, LISTENING | SPEAKING, SPEAKING | BARGE_IN, BARGE_IN
  | THINKING, THINKING | IDLE, IDLE => true
  | _, _ => false
  end.

Record StateTransition : Type := mkTransition {
  from : ConversationState;
  to : ConversationState;
  timestamp : Z;
  reason : option string
}.

(** [ConversationStateCallbacks]: every callback is optional; a callback
    that is present acts on the world [W] of whoever registered it. *)
Record ConversationStateCallbacks (W : Type) : Type := mkCallbacks {
  onStateChange :
    option (ConversationState -> ConversationState -> option string -> W -> W);
  onBargeIn : option (W -> W);
  onListening : option (W -> W);
  onSpeaking : option (W -> W);
  onThinking : option (W -> W)
}.
Arguments mkCallbacks {W}.
Arguments onStateChange {W}.
Arguments onBargeIn {W}.
Arguments onListening {W}.
Arguments onSpeaking {W}.
Arguments onThinking {W}.

(** [constructor(callbacks = {})] *)
Definition noCallbacks {W} : ConversationStateCallbacks W :=
  mkCallbacks None None None None None.

(** The private fields [state] and [history]; [callbacks] is passed to
    [transition], and [maxHistorySize] is never reassigned. *)
Record ConversationStateMachine : Type := mkMachine {
  state : ConversationState;
  history : list StateTransition
}.

Definition maxHistorySize : nat := 50.

Definition initial : ConversationStateMachine :=
  {| state := IDLE; history := [] |}.

Definition getState (m : ConversationStateMachine) := state m.

(** The literal [validTransitions] of [isValidTransition]. *)
Definition validTransitions (s : ConversationState) : list ConversationState :=
  match s with
  | IDLE => [LISTENING; THINKING]
  | LISTENING => [THINKING; IDLE; SPEAKING]
  | THINKING => [SPEAKING; LISTENING; IDLE]
  | SPEAKING => [LISTENING; BARGE_IN; IDLE]
  | BARGE_IN => [LISTENING; IDLE]
  end.

(** [Array.prototype.includes] *)
Definition includes (l : list ConversationState) (x : ConversationState) : bool :=
  existsb (state_eqb x) l.

Definition isValidTransition (from_ to_ : ConversationState) : bool :=
  includes (validTransitions from_) to_.

(** [cb?.()] *)
Definition optCall {W} (cb : option (W -> W)) (w : W) : W :=
  match cb with Some f => f w | None => w end.

(** [history.push(t); if (history.length > maxHistorySize) history.shift()] *)
Definition pushHistory (h : list StateTransition) (t : StateTransition)
  : list StateTransition :=
  let h1 := h ++ [t] in
  if (maxHistorySize <? length h1)%nat then tl h1 else h1.

(** [transition(to, reason?)]: the result is the returned boolean, the
    machine afterwards and the world after the callbacks have run. *)
Definition transition {W} (cbs : ConversationStateCallbacks W)
    (to_ : ConversationState) (reason_ : option string) (now : Z)
    (m : ConversationStateMachine) (w : W)
  : bool * ConversationStateMachine * W :=
  let from_ := state m in
  if negb (isValidTransition from_ to_) then (false, m, w)
  else
    let t := {| from := from_; to := to_; timestamp := now; reason := reason_ |} in
    let m' := {| state := to_; history := pushHistory (history m) t |} in
    let w1 := match onStateChange cbs with
              | Some f => f from_ to_ reason_ w
              | None => w
              end in
    let w2 := match to_ with
              | BARGE_IN => optCall (onBargeIn cbs) w1
              | LISTENING => optCall (onListening cbs) w1
              | SPEAKING => optCall (onSpeaking cbs) w1
              | THINKING => optCall (onThinking cbs) w1
              | IDLE => w1
              end in
    (true, m', w2).

Definition getHistory (m : ConversationStateMachine) := history m.

(** [reset()] discards the boolean of [transition]. *)
Definition reset {W} (cbs : ConversationStateCallbacks W) (now : Z)
    (m : ConversationStateMachine) (w : W) : ConversationStateMachine * W :=
  let '(_, m', w') := transition cbs IDLE (Some "Reset"%string) now m w in
  (m', w').

Definition getTimeInCurrentState (now : Z) (m : ConversationStateMachine) : Z :=
  match last (history m) with
  | None => 0
  | Some t => now - timestamp t
  end.

Definition is_ (m : ConversationStateMachine) (s : ConversationState) : bool :=
  state_eqb (state m) s.
Definition isSpeaking m := is_ m SPEAKING.
Definition isBargedIn m := is_ m BARGE_IN.
Definition isListening m := is_ m LISTENING.
Definition isThinking m := is_ m THINKING.

(** ** The transition table as the specification words it *)

Inductive allowed : ConversationState -> ConversationState -> Prop :=
  | idle_listening : allowed IDLE LISTENING
  | idle_thinking : allowed IDLE THINKING
  | listening_thinking : allowed LISTENING THINKING
  | listening_idle : allowed LISTENING IDLE
  | listening_speaking : allowed LISTENING SPEAKING
  | thinking_speaking : allowed THINKING SPEAKING
  | thinking_listening : allowed THINKING LISTENING
  | thinking_idle : allowed THINKING IDLE
  | speaking_listening : allowed SPEAKING LISTENING
  | speaking_barge_in : allowed SPEAKING BARGE_IN
  | speaking_idle : allowed SPEAKING IDLE
  | barge_in_listening : allowed BARGE_IN LISTENING
  | barge_in_idle : allowed BARGE_IN IDLE.

(** ** Running a sequence of requests *)

Record Request : Type := mkRequest {
  req_to : ConversationState;
  req_reason : option string;
  req_now : Z
}.

(** The machine after a sequence of [transition] calls, together with the
    unbounded list of the transitions that were accepted, oldest first. *)
Fixpoint run {W} (cbs : ConversationStateCallbacks W) (reqs : list Request)
    (m : ConversationStateMachine) (w : W) (accepted : list StateTransition)
  : ConversationStateMachine * W * list StateTransition :=
  match reqs with
  | [] => (m, w, accepted)
  | r :: rest =>
      let '(ok, m', w') := transition cbs (req_to r) (req_reason r) (req_now r) m w in
      let t := {| from := state m; to := req_to r;
                  timestamp := req_now r; reason := req_reason r |} in
      run cbs rest m' w' (if ok then accepted ++ [t] else accepted)
  end.

(** The last [n] elements of a list. *)
Definition lastn {A} (n : nat) (l : list A) : list A :=
  skipn (length l - n) l.

(** [n] requests that go back and forth between LISTENING and IDLE, one
    millisecond apart. *)
Fixpoint alternate (n : nat) (now : Z) (next : ConversationState) : list Request :=
  match n with
  | O => []
  | S k => mkRequest next None now
           :: alternate k (now + 1)
                (match next with LISTENING => IDLE | _ => LISTENING end)
  end.

End ConversationState.

(* ===================================================================== *)
(** * Strings as the source uses them                                     *)
(* ===================================================================== *)

Module JsString.

(** Strings are sequences of code units below 256.  [trim] removes the
    white space and line terminators in that range from both ends. *)
Definition isWhiteSpace (c : ascii) : bool :=
  let n := nat_of_ascii c in
  ((9 <=? n) && (n <=? 13) || (n =? 32) || (n =? 160))%nat.

Fixpoint trimStart (s : string) : string :=
  match s with
  | EmptyString => EmptyString
  | String c rest => if isWhiteSpace c then trimStart rest else s
  end.

Fixpoint rev_string (s acc : string) : string :=
  match s with
  | EmptyString => acc
  | String c rest => rev_string rest (String c acc)
  end.

Definition trimEnd (s : string) : string :=
  rev_string (trimStart (rev_string s EmptyString)) EmptyString.

Definition trim (s : string) : string := trimEnd (trimStart s).

(** Truthiness of a string: only the empty string is falsy. *)
Definition truthy (s : string) : bool :=
  match s with EmptyString => false | _ => true end.

Definition startsWith (s p : string) : bool := String.prefix p s.

(** [s.slice(n)] for [0 <= n]. *)
Fixpoint slice (n : nat) (s : string) : string :=
  match n, s with
  | O, _ => s
  | S k, String _ rest => slice k rest
  | S _, EmptyString => EmptyString
  end.

(** [s.split(sep)] for a one-character separator; [cur] holds the
    characters of the piece being read, most recent first. *)
Fixpoint splitAux (sep : ascii) (s cur : string) : list string :=
  match s with
  | EmptyString => [rev_string cur EmptyString]
  | String c rest =>
      if Ascii.eqb c sep then rev_string cur EmptyString :: splitAux sep rest EmptyString
      else splitAux sep rest (String c cur)
  end.

Definition split (sep : ascii) (s : string) : list string :=
  splitAux sep s EmptyString.

Definition newline : ascii := ascii_of_nat 10.

End JsString.

(* ===================================================================== *)
(** * Barge-in detector (barge-in-detector.ts)                            *)
(* ===================================================================== *)

Module BargeIn.

Record BargeInConfig : Type := mkConfig {
  energyThreshold : option Q;
  minTranscriptLength : option Z;
  debounceMs : option Z;
  vadWindowMs : option Z
}.

Inductive Reason : Type := energy | transcript | combined.

Record Details : Type := mkDetails {
  details_energy : option Q;
  details_transcriptLength : option Z
}.

Record BargeInEvent : Type := mkEvent {
  timestamp : Z;
  reason : Reason;
  confidence : Q;
  details : Details
}.

(** The fields of the class.  [onBargeIn] is the private callback field,
    [null] until [setBargeInCallback] is called. *)
Record BargeInDetector (W : Type) : Type := mkDetector {
  config : BargeInConfig;
  lastBargeIn : Z;
  energyHistory : list Q;
  vadWindowSize : Z;
  partialTranscript : string;
  onBargeIn : option (BargeInEvent -> W -> W)
}.
Arguments mkDetector {W}.
Arguments config {W}.
Arguments lastBargeIn {W}.
Arguments energyHistory {W}.
Arguments vadWindowSize {W}.
Arguments partialTranscript {W}.
Arguments onBargeIn {W}.

(** [a ?? b] *)
Definition nullish {A} (a : option A) (b : A) : A :=
  match a with Some x => x | None => b end.

(** [Math.ceil(n / 256)] for an integer number of milliseconds. *)
Definition ceilDiv256 (n : Z) : Z := (n + 255) / 256.

(** [constructor(config = {})]: the four numeric options are copied with
    their defaults; nothing else of the argument is read, and the
    callback field starts as [null]. *)
Definition new {W} (cfg : BargeInConfig) : BargeInDetector W :=
  let cfg' := {| energyThreshold := Some (nullish (energyThreshold cfg) 0.02%Q);
                 minTranscriptLength := Some (nullish (minTranscriptLength cfg) 3);
                 debounceMs := Some (nullish (debounceMs cfg) 300);
                 vadWindowMs := Some (nullish (vadWindowMs cfg) 200) |} in
  {| config := cfg';
     lastBargeIn := 0;
     energyHistory := [];
     vadWindowSize := ceilDiv256 (nullish (vadWindowMs cfg') 200);
     partialTranscript := EmptyString;
     onBargeIn := None |}.

Definition emptyConfig : BargeInConfig := mkConfig None None None None.

Definition setBargeInCallback {W} (callback : BargeInEvent -> W -> W)
    (d : BargeInDetector W) : BargeInDetector W :=
  {| config := config d; lastBargeIn := lastBargeIn d;
     energyHistory := energyHistory d; vadWindowSize := vadWindowSize d;
     partialTranscript := partialTranscript d; onBargeIn := Some callback |}.

(** [triggerBargeIn(event)], reading the clock as [now]. *)
Definition triggerBargeIn {W} (event : BargeInEvent) (now : Z)
    (d : BargeInDetector W) (w : W) : BargeInDetector W * W :=
  let timeSinceLastBargeIn := now - lastBargeIn d in
  if timeSinceLastBargeIn <? nullish (debounceMs (config d)) 300 then (d, w)
  else
    let d' := {| config := config d; lastBargeIn := now;
                 energyHistory := energyHistory d; vadWindowSize := vadWindowSize d;
                 partialTranscript := partialTranscript d; onBargeIn := onBargeIn d |} in
    (d', match onBargeIn d with Some f => f event w | None => w end).

Definition withPartial {W} (text : string) (d : BargeInDetector W) : BargeInDetector W :=
  {| config := config d; lastBargeIn := lastBargeIn d;
     energyHistory := energyHistory d; vadWindowSize := vadWindowSize d;
     partialTranscript := text; onBargeIn := onBargeIn d |}.

Definition withEnergyHistory {W} (h : list Q) (d : BargeInDetector W) : BargeInDetector W :=
  {| config := config d; lastBargeIn := lastBargeIn d;
     energyHistory := h; vadWindowSize := vadWindowSize d;
     partialTranscript := partialTranscript d; onBargeIn := onBargeIn d |}.

(** [processTranscript(text, isFinal)]; [ts] is the clock read for the
    event payload, [now] the one read inside [triggerBargeIn]. *)
Definition processTranscript {W} (text : string) (isFinal : bool) (ts now : Z)
    (d : BargeInDetector W) (w : W) : BargeInDetector W * W :=
  if negb isFinal then
    let d1 := withPartial text d in
    let length_ := Z.of_nat (String.length (JsString.trim text)) in
    if nullish (minTranscriptLength (config d1)) 3 <=? length_ then
      triggerBargeIn {| timestamp := ts; reason := transcript; confidence := 0.8%Q;
                        details := mkDetails None (Some length_) |} now d1 w
    else (d1, w)
  else (withPartial EmptyString d, w).

Section Numeric.

(** [Math.sqrt] and [Math.pow] are not rational functions; they are
    parameters of the energy computations. *)
Variable Math_sqrt : Q -> Q.
Variable Math_pow : Q -> Q -> Q.

(** [AudioCapture.calculateEnergy], for a non-empty array (on an empty
    one the source computes [NaN]). *)
Definition calculateEnergy (float32Array : list Q) : Q :=
  let sum := fold_left (fun acc x => acc + x * x)%Q float32Array 0%Q in
  Math_sqrt (sum / inject_Z (Z.of_nat (length float32Array)))%Q.

Definition getAverageEnergy {W} (d : BargeInDetector W) : Q :=
  match energyHistory d with
  | [] => 0%Q
  | h => (fold_left Qplus h 0%Q / inject_Z (Z.of_nat (length h)))%Q
  end.

Definition calculateConfidence {W} (d : BargeInDetector W) (energy_ : Q) : Q :=
  let threshold := nullish (energyThreshold (config d)) 0.02%Q in
  let normalized := Qmin (energy_ / (threshold * 3))%Q 1%Q in
  Math_pow normalized 0.7%Q.

(** [a > b] on numbers *)
Definition Qgtb (a b : Q) : bool := negb (Qle_bool a b).

Definition processAudioChunk {W} (audioData : list Q) (ts now : Z)
    (d : BargeInDetector W) (w : W) : BargeInDetector W * W :=
  let energy_ := calculateEnergy audioData in
  let h1 := energyHistory d ++ [energy_] in
  let h2 := if vadWindowSize d <? Z.of_nat (length h1) then tl h1 else h1 in
  let d1 := withEnergyHistory h2 d in
  let avgEnergy := getAverageEnergy d1 in
  let hasVoiceActivity := Qgtb avgEnergy (nullish (energyThreshold (config d1)) 0.02%Q) in
  if hasVoiceActivity then
    triggerBargeIn {| timestamp := ts; reason := energy;
                      confidence := calculateConfidence d1 avgEnergy;
                      details := mkDetails (Some avgEnergy) None |} now d1 w
  else (d1, w).

Definition processCombined {W} (audioData : list Q) (text : string) (isFinal : bool)
    (ts now : Z) (d : BargeInDetector W) (w : W) : BargeInDetector W * W :=
  let energy_ := calculateEnergy audioData in
  let hasVoiceActivity := Qgtb energy_ (nullish (energyThreshold (config d)) 0.02%Q) in
  let hasTranscript :=
    nullish (minTranscriptLength (config d)) 3
      <=? Z.of_nat (String.length (JsString.trim text)) in
  if hasVoiceActivity && hasTranscript then
    triggerBargeIn {| timestamp := ts; reason := combined;
                      confidence := Qmin (0.8 + 0.15)%Q 1.0%Q;
                      details := mkDetails (Some energy_)
                                   (Some (Z.of_nat (String.length text))) |} now d w
  else (d, w).

(** One call of the public interface. *)
Inductive Call : Type :=
  | CallAudioChunk (audioData : list Q) (ts now : Z)
  | CallTranscript (text : string) (isFinal : bool) (ts now : Z)
  | CallCombined (audioData : list Q) (text : string) (isFinal : bool) (ts now : Z).

Definition call {W} (c : Call) (d : BargeInDetector W) (w : W) : BargeInDetector W * W :=
  match c with
  | CallAudioChunk a ts now => processAudioChunk a ts now d w
  | CallTranscript t f ts now => processTranscript t f ts now d w
  | CallCombined a t f ts now => processCombined a t f ts now d w
  end.

End Numeric.

(** The clock a call reads inside [triggerBargeIn]. *)
Definition clock (c : Call) : Z :=
  match c with
  | CallAudioChunk _ _ now | CallTranscript _ _ _ now | CallCombined _ _ _ _ now => now
  end.

(** [reset()] *)
Definition reset {W} (d : BargeInDetector W) : BargeInDetector W :=
  withPartial EmptyString (withEnergyHistory [] d).

(** A recording callback: the world is the list of events delivered. *)
Definition record : BargeInEvent -> list BargeInEvent -> list BargeInEvent :=
  fun ev log => log ++ [ev].

(** ** Debouncing as the specification words it

    Given the time of the last honoured trigger and the times of a
    sequence of attempts, which attempts are honoured. *)
Fixpoint honoured (debounce : Z) (lastHonoured : Z) (times : list Z) : list bool :=
  match times with
  | [] => []
  | t :: rest =>
      if debounce <=? t - lastHonoured
      then true :: honoured debounce t rest
      else false :: honoured debounce lastHonoured rest
  end.

(** The elements of [xs] whose flag is set. *)
Fixpoint select {A} (flags : list bool) (xs : list A) : list A :=
  match flags, xs with
  | true :: fs, x :: rest => x :: select fs rest
  | false :: fs, _ :: rest => select fs rest
  | _, _ => []
  end.

(** Sequence of [triggerBargeIn] calls; returns for each whether the
    callback log grew. *)
Fixpoint triggers (evs : list (BargeInEvent * Z))
    (d : BargeInDetector (list BargeInEvent)) (w : list BargeInEvent)
  : BargeInDetector (list BargeInEvent) * list BargeInEvent * list bool :=
  match evs with
  | [] => (d, w, [])
  | (ev, now) :: rest =>
      let '(d1, w1) := triggerBargeIn ev now d w in
      let '(d2, w2, bs) := triggers rest d1 w1 in
      (d2, w2, (length w <? length w1)%nat :: bs)
  end.

(** [config.debounceMs ?? 300] *)
Definition debounceOf {W} (d : BargeInDetector W) : Z :=
  nullish (debounceMs (config d)) 300.

(** The detector with [lastBargeIn = now]. *)
Definition stamped {W} (now : Z) (d : BargeInDetector W) : BargeInDetector W :=
  {| config := config d; lastBargeIn := now;
     energyHistory := energyHistory d; vadWindowSize := vadWindowSize d;
     partialTranscript := partialTranscript d; onBargeIn := onBargeIn d |}.

(** An event as [processTranscript] builds it for a five-letter text. *)
Definition sampleEvent (ts : Z) : BargeInEvent :=
  {| timestamp := ts; reason := transcript; confidence := 0.8%Q;
     details := mkDetails None (Some 5) |}.

End BargeIn.

(* ===================================================================== *)
(** * Binary64 arithmetic                                               *)
(* ===================================================================== *)

Module Binary64.

Local Open Scope Q_scope.

(** A JavaScript number is an IEEE 754 binary64 number.  A finite one
    is the rational it denotes, and [+], [-], [*] and [/] are the exact
    operation followed by [round], the rounding to the nearest binary64
    number, ties to the even significand: 53 significant bits, gradual
    underflow down to [2 ^ -1074].  Overflow, infinities, NaN and the
    sign of zero are outside this model; the magnitudes of the lip sync
    engine stay far below [2 ^ 1024]. *)

(** [floor (log2 x)] for a positive [x]. *)
Definition ilog2 (x : Q) : Z :=
  let k := (Z.log2 (Qnum x) - Z.log2 (Zpos (Qden x)))%Z in
  if Qle_bool (2 ^ k) x then k else (k - 1)%Z.

(** The integer nearest to [q]; of two that are as near, the even one. *)
Definition nearestEven (q : Q) : Z :=
  let f := Qfloor q in
  match Qcompare (q - inject_Z f) (1 # 2) with
  | Lt => f
  | Gt => (f + 1)%Z
  | Eq => if Z.even f then f else (f + 1)%Z
  end.

(** The exponent of the last place of the binary64 numbers around a
    positive [x]: 53 significant bits, and never below [2 ^ -1074]. *)
Definition ulpExponent (x : Q) : Z := Z.max (ilog2 x - 52) (-1074).

Definition roundMagnitude (x : Q) : Q :=
  let e := ulpExponent x in
  inject_Z (nearestEven (x / 2 ^ e)) * 2 ^ e.

(** Rounding to the nearest binary64 number, ties to even. *)
Definition round (x : Q) : Q :=
  Qred (if Qle_bool 0 x then roundMagnitude x else - roundMagnitude (- x)).

Definition add (x y : Q) : Q := round (x + y).
Definition sub (x y : Q) : Q := round (x - y).
Definition mul (x y : Q) : Q := round (x * y).
Definition div (x y : Q) : Q := round (x / y).

(** The number a decimal literal denotes. *)
Definition literal (q : Q) : Q := round q.

Definition isDouble (x : Q) : Prop := round x == x.

Arguments round : simpl never.
Arguments add : simpl never.
Arguments sub : simpl never.
Arguments mul : simpl never.
Arguments div : simpl never.
Arguments literal : simpl never.

End Binary64.

(* ===================================================================== *)
(** * Lip sync engine (lipSyncEngine.ts)                                  *)
(* ===================================================================== *)

Module LipSync.

Import Binary64.
Local Open Scope Q_scope.

(** [VisemeWeights], an object from morph target names to numbers, is
    a finite map [gmap string Q]. *)

(** What the engine reads of its [AnalyserNode]. *)
Record AnalyserNode : Type := mkAnalyser {
  sampleRate : Q
}.

Record LipSyncEngine : Type := mkEngine {
  analyser : option AnalyserNode;
  dataArray : list Z;
  smoothingFactor : Q;
  previousWeights : gmap string Q
}.

(** [constructor(audioContext)]: [fftSize = 256], so 128 bins. *)
Definition new (contextSampleRate : Q) : LipSyncEngine :=
  {| analyser := Some (mkAnalyser contextSampleRate);
     dataArray := repeat 0%Z 128;
     smoothingFactor := literal 0.3;
     previousWeights := ∅ |}.

Definition Qltb (a b : Q) : bool := negb (Qle_bool b a).
Definition Qgtb (a b : Q) : bool := negb (Qle_bool a b).

Definition silencePose : gmap string Q :=
  {[ "jawOpen"%string := 0; "mouthClose"%string := 1 ]}.
Definition sibilantPose : gmap string Q :=
  {[ "jawOpen"%string := literal 0.2; "mouthStretchLeft"%string := literal 0.4;
     "mouthStretchRight"%string := literal 0.4; "mouthFunnel"%string := literal 0.2 ]}.
Definition openVowelPose : gmap string Q :=
  {[ "jawOpen"%string := literal 0.8; "mouthOpen"%string := literal 0.6;
     "mouthSmileLeft"%string := literal 0.1; "mouthSmileRight"%string := literal 0.1 ]}.
Definition closedConsonantPose : gmap string Q :=
  {[ "mouthClose"%string := literal 0.9; "mouthPressLeft"%string := literal 0.5;
     "mouthPressRight"%string := literal 0.5; "jawOpen"%string := literal 0.1 ]}.
Definition midVowelPose : gmap string Q :=
  {[ "jawOpen"%string := literal 0.3; "mouthSmileLeft"%string := literal 0.6;
     "mouthSmileRight"%string := literal 0.6; "mouthStretchLeft"%string := literal 0.3;
     "mouthStretchRight"%string := literal 0.3 ]}.
Definition roundedVowelPose : gmap string Q :=
  {[ "jawOpen"%string := literal 0.5; "mouthFunnel"%string := literal 0.7;
     "mouthPucker"%string := literal 0.6 ]}.
Definition neutralPose (volume : Q) : gmap string Q :=
  {[ "jawOpen"%string := mul (literal 0.3) volume;
     "mouthOpen"%string := mul (literal 0.2) volume ]}.

(** [mapToVisemes(lowFreq, midFreq, highFreq, volume)] *)
Definition mapToVisemes (lowFreq midFreq highFreq volume : Q) : gmap string Q :=
  if Qltb volume (literal 0.1) then silencePose
  else if Qgtb highFreq (literal 0.6) then sibilantPose
  else if Qgtb lowFreq (literal 0.7) then openVowelPose
  else if Qgtb midFreq (literal 0.5) && Qgtb volume (literal 0.3) then closedConsonantPose
  else if Qgtb midFreq (literal 0.4) && Qgtb highFreq (literal 0.3) then midVowelPose
  else if Qgtb lowFreq (literal 0.4) && Qgtb midFreq (literal 0.3) then roundedVowelPose
  else neutralPose volume.

(** [sum += dataArray[i] / 255], left to right from [sum = 0]. *)
Definition sumNormalized (bins : list Z) : Q :=
  fold_left (fun sum b => add sum (div (inject_Z b) 255)) bins 0.

(** [getFrequencyBand(minFreq, maxFreq)], for [0 <= minFreq], a positive
    sample rate and a non-empty [dataArray]: the bins visited are those
    from [minBin] up to, and without, the smaller of [maxBin] and the
    length. *)
Definition getFrequencyBand (e : LipSyncEngine) (minFreq maxFreq : Q) : Q :=
  match analyser e with
  | None => 0
  | Some a =>
      let nyquist := div (sampleRate a) 2 in
      let binWidth := div nyquist (inject_Z (Z.of_nat (length (dataArray e)))) in
      let minBin := Qfloor (div minFreq binWidth) in
      let maxBin := Qfloor (div maxFreq binWidth) in
      let upper := Z.min maxBin (Z.of_nat (length (dataArray e))) in
      let visited :=
        firstn (Z.to_nat (upper - minBin)) (skipn (Z.to_nat minBin) (dataArray e)) in
      let count := length visited in
      if (0 <? count)%nat
      then div (sumNormalized visited) (inject_Z (Z.of_nat count))
      else 0
  end.

Definition getOverallVolume (e : LipSyncEngine) : Q :=
  div (sumNormalized (dataArray e)) (inject_Z (Z.of_nat (length (dataArray e)))).

(** [Math.max(0, Math.min(1, x))] *)
Definition clamp01 (x : Q) : Q := Qmax 0 (Qmin 1 x).

(** [obj[key] || 0] *)
Definition orZero (v : option Q) : Q :=
  match v with Some x => x | None => 0 end.

(** The value [smoothWeights] stores under [key]:
    [oldValue + (newValue - oldValue) * this.smoothingFactor], clamped. *)
Definition smoothed (factor : Q) (previous newWeights : gmap string Q) (key : string) : Q :=
  let oldValue := orZero (previous !! key) in
  let newValue := orZero (newWeights !! key) in
  clamp01 (add oldValue (mul (sub newValue oldValue) factor)).

(** [smoothWeights(newWeights)]: one entry per key of either object. *)
Definition smoothWeights (e : LipSyncEngine) (newWeights : gmap string Q)
  : gmap string Q :=
  let allKeys : gset string := dom (previousWeights e) ∪ dom newWeights in
  set_to_map
    (fun key => (key, smoothed (smoothingFactor e) (previousWeights e) newWeights key))
    allKeys.

(** [getCurrentViseme()]; [bins] is what [getByteFrequencyData] writes
    into [dataArray]. *)
Definition getCurrentViseme (bins : list Z) (e : LipSyncEngine)
  : LipSyncEngine * gmap string Q :=
  match analyser e with
  | None => (e, ∅)
  | Some a =>
      let e1 := {| analyser := analyser e; dataArray := bins;
                   smoothingFactor := smoothingFactor e;
                   previousWeights := previousWeights e |} in
      let lowFreq := getFrequencyBand e1 0 300 in
      let midFreq := getFrequencyBand e1 300 2000 in
      let highFreq := getFrequencyBand e1 2000 8000 in
      let volume := getOverallVolume e1 in
      let weights := mapToVisemes lowFreq midFreq highFreq volume in
      let smoothedWeights := smoothWeights e1 weights in
      ({| analyser := analyser e1; dataArray := dataArray e1;
          smoothingFactor := smoothingFactor e1;
          previousWeights := smoothedWeights |}, smoothedWeights)
  end.

Definition setSmoothingFactor (factor : Q) (e : LipSyncEngine) : LipSyncEngine :=
  {| analyser := analyser e; dataArray := dataArray e;
     smoothingFactor := clamp01 factor;
     previousWeights := previousWeights e |}.

(** [dispose()] *)
Definition dispose (e : LipSyncEngine) : LipSyncEngine :=
  {| analyser := None; dataArray := dataArray e;
     smoothingFactor := smoothingFactor e;
     previousWeights := previousWeights e |}.

(** [n] polls in a row, each reading the same [bins]. *)
Fixpoint polls (n : nat) (bins : list Z) (e : LipSyncEngine) : LipSyncEngine :=
  match n with
  | O => e
  | S k => polls k bins (fst (getCurrentViseme bins e))
  end.

(** The weight set [getCurrentViseme] classifies for an analyser that
    reports [bins]. *)
Definition classified (a : AnalyserNode) (bins : list Z) : gmap string Q :=
  let e := {| analyser := Some a; dataArray := bins;
              smoothingFactor := 0; previousWeights := ∅ |} in
  mapToVisemes (getFrequencyBand e 0 300) (getFrequencyBand e 300 2000)
               (getFrequencyBand e 2000 8000) (getOverallVolume e).

(** The engines the public interface can produce. *)
Inductive reachable : LipSyncEngine -> Prop :=
  | reach_new contextSampleRate : reachable (new contextSampleRate)
  | reach_poll bins e : reachable e -> reachable (fst (getCurrentViseme bins e))
  | reach_factor factor e : reachable e -> reachable (setSmoothingFactor factor e)
  | reach_dispose e : reachable e -> reachable (dispose e).

(** The value stored under [key], as [obj[key] || 0] reads it. *)
Definition weightOf (w : gmap string Q) (key : string) : Q := orZero (w !! key).

(** The invariant of [reachable] engines: the factor lies in [0,1], and
    the stored weights are binary64 numbers of [0,1]. *)
Definition wellFormed (e : LipSyncEngine) : Prop :=
  (0 <= smoothingFactor e /\ smoothingFactor e <= 1) /\
  forall key, (0 <= weightOf (previousWeights e) key /\
               weightOf (previousWeights e) key <= 1) /\
              isDouble (weightOf (previousWeights e) key).

(** ** The classification as the specification words it *)

Inductive Pose : Type :=
  | Silence | Sibilant | OpenVowel | ClosedConsonant | MidVowel | RoundedVowel
  | Neutral.

(** Thresholds in priority order; the first rule whose condition holds
    gives the pose. *)
Definition rules (low mid high volume : Q) : list (bool * Pose) :=
  [ (Qltb volume (literal 0.1), Silence);
    (Qgtb high (literal 0.6), Sibilant);
    (Qgtb low (literal 0.7), OpenVowel);
    (Qgtb mid (literal 0.5) && Qgtb volume (literal 0.3), ClosedConsonant);
    (Qgtb mid (literal 0.4) && Qgtb high (literal 0.3), MidVowel);
    (Qgtb low (literal 0.4) && Qgtb mid (literal 0.3), RoundedVowel) ].

Fixpoint firstMatch (rs : list (bool * Pose)) (otherwise : Pose) : Pose :=
  match rs with
  | [] => otherwise
  | (true, p) :: _ => p
  | (false, _) :: rest => firstMatch rest otherwise
  end.

Definition classify (low mid high volume : Q) : Pose :=
  firstMatch (rules low mid high volume) Neutral.

Definition poseWeights (p : Pose) (volume : Q) : gmap string Q :=
  match p with
  | Silence => silencePose
  | Sibilant => sibilantPose
  | OpenVowel => openVowelPose
  | ClosedConsonant => closedConsonantPose
  | MidVowel => midVowelPose
  | RoundedVowel => roundedVowelPose
  | Neutral => neutralPose volume
  end.

(** ** Sample analysis windows

    With the 128 bins of the constructor and a context at 24000 Hz the
    bins are 93.75 Hz wide: bins 0 to 2 are the low band, 3 to 20 the
    mid band and 21 to 84 the high band. *)

Definition window (low mid high rest : Z) : list Z :=
  repeat low 3 ++ repeat mid 18 ++ repeat high 64 ++ repeat rest 43.

(** No signal. *)
Definition silentWindow : list Z := window 0 0 0 0.

(** Every bin of the high band at 153, that is 0.6 each. *)
Definition hissWindow : list Z := window 0 0 153 0.

(** A loud mid band over a quiet rest. *)
Definition hummedWindow : list Z := window 60 255 60 60.

End LipSync.

(* ===================================================================== *)
(** * Voice coordinator (VoiceCoordinator.ts)                             *)
(* ===================================================================== *)

Module VoiceCoordinator.

Import ConversationState.

(** A decoded [AudioBuffer], named by the payload it was decoded from. *)
Definition AudioBuffer : Type := string.

Record VoiceCoordinatorConfig : Type := mkConfig {
  debugMode : bool;
  config_audioContext : bool          (* an [audioContext] was supplied *)
}.

(** [VoiceCallbacks]: which observers are registered.  A registered
    observer records the call it receives. *)
Record VoiceCallbacks : Type := mkCallbacks {
  onTranscript : bool;
  onResponse : bool;
  onStateChange : bool;
  onError : bool;
  onAudioChunk : bool;
  onAudioComplete : bool;
  onAudioStart : bool;
  getLipSyncEngine : bool             (* returns an engine, not [null] *)
}.

Inductive Notification : Type :=
  | OnTranscript (text : string) (isFinal : bool)
  | OnResponse (text : string)
  | OnStateChange (state : ConversationState)
  | OnError (error : string)
  | OnAudioChunk (audioBase64 : string)
  | OnAudioComplete
  | OnAudioStart.

(** What the coordinator does to the audio devices. *)
Inductive AudioAction : Type :=
  | SttStart
  | SttStop
  | LipSyncConnect (buffer : AudioBuffer)
  | SourceStart (buffer : AudioBuffer)
  | SourceStop (buffer : AudioBuffer)
  | ContextClose.

(** The fields of the class, followed by the world around it: the due
    times of the pending [setTimeout] callbacks, the calls the observers
    received and the actions on the audio devices, oldest first. *)
Record VoiceCoordinator : Type := mkCoordinator {
  stt : bool;
  stateMachine : ConversationStateMachine;
  bargeInDetector : BargeIn.BargeInDetector unit;
  callbacks : VoiceCallbacks;
  config : VoiceCoordinatorConfig;
  audioContext : bool;
  currentEventSource : bool;
  audioQueue : list AudioBuffer;
  isPlaying : bool;
  conversationId : option string;
  currentSourceNode : option AudioBuffer;
  timers : list Z;
  observed : list Notification;
  audio : list AudioAction
}.

Definition set_stt v c :=
  mkCoordinator v (stateMachine c) (bargeInDetector c) (callbacks c) (config c)
    (audioContext c) (currentEventSource c) (audioQueue c) (isPlaying c)
    (conversationId c) (currentSourceNode c) (timers c) (observed c) (audio c).
Definition set_stateMachine v c :=
  mkCoordinator (stt c) v (bargeInDetector c) (callbacks c) (config c)
    (audioContext c) (currentEventSource c) (audioQueue c) (isPlaying c)
    (conversationId c) (currentSourceNode c) (timers c) (observed c) (audio c).
Definition set_bargeInDetector v c :=
  mkCoordinator (stt c) (stateMachine c) v (callbacks c) (config c)
    (audioContext c) (currentEventSource c) (audioQueue c) (isPlaying c)
    (conversationId c) (currentSourceNode c) (timers c) (observed c) (audio c).
Definition set_audioContext v c :=
  mkCoordinator (stt c) (stateMachine c) (bargeInDetector c) (callbacks c) (config c)
    v (currentEventSource c) (audioQueue c) (isPlaying c)
    (conversationId c) (currentSourceNode c) (timers c) (observed c) (audio c).
Definition set_currentEventSource v c :=
  mkCoordinator (stt c) (stateMachine c) (bargeInDetector c) (callbacks c) (config c)
    (audioContext c) v (audioQueue c) (isPlaying c)
    (conversationId c) (currentSourceNode c) (timers c) (observed c) (audio c).
Definition set_audioQueue v c :=
  mkCoordinator (stt c) (stateMachine c) (bargeInDetector c) (callbacks c) (config c)
    (audioContext c) (currentEventSource c) v (isPlaying c)
    (conversationId c) (currentSourceNode c) (timers c) (observed c) (audio c).
Definition set_isPlaying v c :=
  mkCoordinator (stt c) (stateMachine c) (bargeInDetector c) (callbacks c) (config c)
    (audioContext c) (currentEventSource c) (audioQueue c) v
    (conversationId c) (currentSourceNode c) (timers c) (observed c) (audio c).
Definition set_conversationId v c :=
  mkCoordinator (stt c) (stateMachine c) (bargeInDetector c) (callbacks c) (config c)
    (audioContext c) (currentEventSource c) (audioQueue c) (isPlaying c)
    v (currentSourceNode c) (timers c) (observed c) (audio c).
Definition set_currentSourceNode v c :=
  mkCoordinator (stt c) (stateMachine c) (bargeInDetector c) (callbacks c) (config c)
    (audioContext c) (currentEventSource c) (audioQueue c) (isPlaying c)
    (conversationId c) v (timers c) (observed c) (audio c).
Definition set_timers v c :=
  mkCoordinator (stt c) (stateMachine c) (bargeInDetector c) (callbacks c) (config c)
    (audioContext c) (currentEventSource c) (audioQueue c) (isPlaying c)
    (conversationId c) (currentSourceNode c) v (observed c) (audio c).
Definition set_observed v c :=
  mkCoordinator (stt c) (stateMachine c) (bargeInDetector c) (callbacks c) (config c)
    (audioContext c) (currentEventSource c) (audioQueue c) (isPlaying c)
    (conversationId c) (currentSourceNode c) (timers c) v (audio c).
Definition set_audio v c :=
  mkCoordinator (stt c) (stateMachine c) (bargeInDetector c) (callbacks c) (config c)
    (audioContext c) (currentEventSource c) (audioQueue c) (isPlaying c)
    (conversationId c) (currentSourceNode c) (timers c) (observed c) v.

(** [observer?.(call)] on a log of observer calls. *)
Definition deliver (registered : bool) (n : Notification) (log : list Notification)
  : list Notification :=
  if registered then log ++ [n] else log.

Definition notify (registered : bool) (n : Notification) (c : VoiceCoordinator)
  : VoiceCoordinator :=
  set_observed (deliver registered n (observed c)) c.

Definition act (a : AudioAction) (c : VoiceCoordinator) : VoiceCoordinator :=
  set_audio (audio c ++ [a]) c.

(** The callbacks object the constructor hands to the state machine:
    [{ onStateChange: (state) => { ...; callbacks.onStateChange?.(state) } }].
    The machine calls it with [(from, to, reason)]; the arrow function
    binds the first of them. *)
Definition machineCallbacks (cbs : VoiceCallbacks)
  : ConversationStateCallbacks (list Notification) :=
  {| ConversationState.onStateChange :=
       Some (fun state _ _ log => deliver (onStateChange cbs) (OnStateChange state) log);
     onBargeIn := None;
     onListening := None;
     onSpeaking := None;
     onThinking := None |}.

(** [constructor(config, callbacks)].  [new BargeInDetector({ onBargeIn })]
    builds the detector from an object without any of the four options the
    detector's constructor reads. *)
Definition new (cfg : VoiceCoordinatorConfig) (cbs : VoiceCallbacks) : VoiceCoordinator :=
  {| stt := false;
     stateMachine := initial;
     bargeInDetector := BargeIn.new BargeIn.emptyConfig;
     callbacks := cbs;
     config := cfg;
     audioContext := false;
     currentEventSource := false;
     audioQueue := [];
     isPlaying := false;
     conversationId := None;
     currentSourceNode := None;
     timers := [];
     observed := [];
     audio := [] |}.

(** [this.stateMachine.transition(to)] with the result dropped. *)
Definition smTransition (to_ : ConversationState) (now : Z) (c : VoiceCoordinator)
  : VoiceCoordinator :=
  let '(_, m, log) :=
    transition (machineCallbacks (callbacks c)) to_ None now (stateMachine c) (observed c) in
  set_observed log (set_stateMachine m c).

Definition getCurrentState (c : VoiceCoordinator) : ConversationState :=
  getState (stateMachine c).

(** [stopAudioPlayback()] *)
Definition stopAudioPlayback (c : VoiceCoordinator) : VoiceCoordinator :=
  let c1 := if currentEventSource c then set_currentEventSource false c else c in
  let c2 := match currentSourceNode c1 with
            | Some b => set_currentSourceNode None (act (SourceStop b) c1)
            | None => c1
            end in
  set_isPlaying false (set_audioQueue [] c2).

(** [playNextInQueue()] *)
Definition playNextInQueue (c : VoiceCoordinator) : VoiceCoordinator :=
  match audioQueue c with
  | [] => set_isPlaying false c
  | buffer :: rest =>
      if negb (audioContext c) then c
      else
        let c1 := set_audioQueue rest (set_isPlaying true c) in
        let c2 := if getLipSyncEngine (callbacks c1)
                  then act (LipSyncConnect buffer) c1 else c1 in
        act (SourceStart buffer) (set_currentSourceNode (Some buffer) c2)
  end.

(** [source.onended] *)
Definition onended (c : VoiceCoordinator) : VoiceCoordinator :=
  playNextInQueue (set_currentSourceNode None c).

(** The callback given to [setTimeout] in [handleBargeIn]. *)
Definition afterGrace (now : Z) (c : VoiceCoordinator) : VoiceCoordinator :=
  if state_eqb (getState (stateMachine c)) BARGE_IN
  then smTransition LISTENING now c
  else c.

(** [handleBargeIn()] *)
Definition handleBargeIn (now : Z) (c : VoiceCoordinator) : VoiceCoordinator :=
  let c1 := stopAudioPlayback c in
  let c2 := smTransition BARGE_IN now c1 in
  set_timers (timers c2 ++ [now + 300]) c2.

(** The oldest pending timer fires, not before it is due. *)
Definition fireTimer (now : Z) (c : VoiceCoordinator) : VoiceCoordinator :=
  match timers c with
  | [] => c
  | due :: rest => if due <=? now then afterGrace now (set_timers rest c) else c
  end.

(** [start()]; [newAudioContext] is the message of the error
    [new AudioContext] throws, if it throws.  The second component is
    the error [start] rethrows. *)
Definition start (newAudioContext : option string) (now : Z) (c : VoiceCoordinator)
  : VoiceCoordinator * option string :=
  match (if config_audioContext (config c) then None else newAudioContext) with
  | Some message => (notify (onError (callbacks c)) (OnError message) c, Some message)
  | None =>
      let c1 := set_audioContext true c in
      let c2 := act SttStart (set_stt true c1) in
      (smTransition LISTENING now c2, None)
  end.

(** [stop()] *)
Definition stop (now : Z) (c : VoiceCoordinator) : VoiceCoordinator :=
  let c1 := if stt c then set_stt false (act SttStop c) else c in
  let c2 := stopAudioPlayback c1 in
  let c3 := if audioContext c2 && negb (config_audioContext (config c2))
            then set_audioContext false (act ContextClose c2) else c2 in
  smTransition IDLE now c3.

(** Where an invocation of [processUserInput] is suspended. *)
Inductive Turn : Type :=
  | AwaitChat          (* [await fetch('/api/agent/chat')] and [response.json()] *)
  | AwaitTtsFetch      (* [await fetch('/api/tts/stream')] *)
  | AwaitRead          (* [await reader.read()] *)
  | Finished.

Inductive ChatOutcome : Type :=
  | ChatThrows (message : string)
  | ChatNotOk (statusText : string)
  | ChatJson (error : option string) (text : string) (conversationId : option string).

Inductive TtsOutcome : Type :=
  | TtsThrows (message : string)
  | TtsNotOk (statusText : string)
  | TtsNoBody
  | TtsBody.

Inductive ReadOutcome : Type :=
  | ReadThrows (message : string)
  | ReadDone
  | ReadValue (chunk : string).

(** The [catch] block of [processUserInput]. *)
Definition catchInput (message : string) (now : Z) (c : VoiceCoordinator)
  : VoiceCoordinator :=
  smTransition LISTENING now
    (notify (onError (callbacks c)) (OnError ("Error: " ++ message)) c).

(** The [catch] block of [speakResponse]. *)
Definition catchSpeak (message : string) (now : Z) (c : VoiceCoordinator)
  : VoiceCoordinator :=
  smTransition LISTENING now
    (notify (onError (callbacks c)) (OnError ("TTS error: " ++ message)) c).

Section Decoding.

(** [JSON.parse(data).audio], [None] when [JSON.parse] throws; and
    [atob] followed by [decodeAudioData], [None] when either fails. *)
Variable JSON_parse : string -> option string.
Variable decodeAudioData : string -> option AudioBuffer.

(** [playAudioChunk(base64Audio)]; the [await] of [decodeAudioData] is
    taken together with what follows it. *)
Definition playAudioChunk (base64Audio : string) (c : VoiceCoordinator)
  : VoiceCoordinator :=
  if negb (audioContext c) then c
  else
    match decodeAudioData base64Audio with
    | None => c
    | Some audioBuffer =>
        let c1 := set_audioQueue (audioQueue c ++ [audioBuffer]) c in
        if negb (isPlaying c1) then playNextInQueue c1 else c1
    end.

(** The [for (const line of lines)] loop of [speakResponse]. *)
Fixpoint forLines (lines : list string) (now : Z) (c : VoiceCoordinator)
  : VoiceCoordinator * Turn :=
  match lines with
  | [] => (c, AwaitRead)
  | line :: rest =>
      if JsString.startsWith line "data: " then
        let data := JsString.slice 6 line in
        if String.eqb data "[DONE]" then
          (smTransition LISTENING now
             (notify (onAudioComplete (callbacks c)) OnAudioComplete c), Finished)
        else
          match JSON_parse data with
          | Some audio_ =>
              forLines rest now
                (playAudioChunk audio_
                   (notify (onAudioChunk (callbacks c)) (OnAudioChunk audio_) c))
          | None => forLines rest now c
          end
      else forLines rest now c
  end.

(** [speakResponse(text)] up to its first [await]. *)
Definition speakResponse (text : string) (now : Z) (c : VoiceCoordinator)
  : VoiceCoordinator * Turn :=
  if negb (JsString.truthy text) || negb (JsString.truthy (JsString.trim text))
  then (smTransition LISTENING now c, Finished)
  else
    let c1 := smTransition SPEAKING now c in
    (notify (onAudioStart (callbacks c1)) OnAudioStart c1, AwaitTtsFetch).

(** [speakResponse] resumed with the response of the TTS request. *)
Definition resumeTts (o : TtsOutcome) (now : Z) (c : VoiceCoordinator)
  : VoiceCoordinator * Turn :=
  match o with
  | TtsThrows message => (catchSpeak message now c, Finished)
  | TtsNotOk statusText => (catchSpeak ("TTS error: " ++ statusText) now c, Finished)
  | TtsNoBody => (catchSpeak "No response body" now c, Finished)
  | TtsBody => (c, AwaitRead)
  end.

(** [speakResponse] resumed with the result of [reader.read()]. *)
Definition resumeRead (o : ReadOutcome) (now : Z) (c : VoiceCoordinator)
  : VoiceCoordinator * Turn :=
  match o with
  | ReadThrows message => (catchSpeak message now c, Finished)
  | ReadDone => (c, Finished)
  | ReadValue chunk => forLines (JsString.split JsString.newline chunk) now c
  end.

(** [processUserInput(text)] up to its first [await]. *)
Definition processUserInput (text : string) (now : Z) (c : VoiceCoordinator)
  : VoiceCoordinator * Turn :=
  (smTransition THINKING now c, AwaitChat).

(** [processUserInput] resumed with the response of the chat request.
    [speakResponse] handles its own failures and returns normally, so
    the [catch] block here sees the failures of the chat call only. *)
Definition resumeChat (o : ChatOutcome) (now : Z) (c : VoiceCoordinator)
  : VoiceCoordinator * Turn :=
  match o with
  | ChatThrows message => (catchInput message now c, Finished)
  | ChatNotOk statusText => (catchInput ("API error: " ++ statusText) now c, Finished)
  | ChatJson error text id =>
      match error with
      | Some e =>
          if JsString.truthy e then (catchInput e now c, Finished)
          else
            let c1 := set_conversationId id c in
            speakResponse text now (notify (onResponse (callbacks c1)) (OnResponse text) c1)
      | None =>
          let c1 := set_conversationId id c in
          speakResponse text now (notify (onResponse (callbacks c1)) (OnResponse text) c1)
      end
  end.

(** [handleTranscript(text, isFinal)] up to its first [await]. *)
Definition handleTranscript (text : string) (isFinal : bool) (now : Z)
    (c : VoiceCoordinator) : VoiceCoordinator * Turn :=
  let c1 := notify (onTranscript (callbacks c)) (OnTranscript text isFinal) c in
  let c2 :=
    if state_eqb (getState (stateMachine c1)) SPEAKING
    then set_bargeInDetector
           (fst (BargeIn.processTranscript text isFinal now now (bargeInDetector c1) tt)) c1
    else c1 in
  if isFinal && JsString.truthy (JsString.trim text)
  then processUserInput text now c2
  else (c2, Finished).

(** ** One turn among the events around it *)

Inductive Event : Type :=
  | EvChat (o : ChatOutcome)       (* the chat request settles *)
  | EvTts (o : TtsOutcome)         (* the TTS request settles *)
  | EvRead (o : ReadOutcome)       (* [reader.read()] settles *)
  | EvBargeIn                      (* [handleBargeIn] is called *)
  | EvStop                         (* [stop()] is called *)
  | EvTimer                        (* the oldest timer fires *)
  | EvEnded.                       (* [onended] of the playing node *)

Definition step (ev : Event) (now : Z) (s : VoiceCoordinator * Turn)
  : VoiceCoordinator * Turn :=
  let '(c, t) := s in
  match ev, t with
  | EvChat o, AwaitChat => resumeChat o now c
  | EvTts o, AwaitTtsFetch => resumeTts o now c
  | EvRead o, AwaitRead => resumeRead o now c
  | EvBargeIn, _ => (handleBargeIn now c, t)
  | EvStop, _ => (stop now c, t)
  | EvTimer, _ => (fireTimer now c, t)
  | EvEnded, _ => (onended c, t)
  | _, _ => (c, t)
  end.

Fixpoint steps (evs : list (Event * Z)) (s : VoiceCoordinator * Turn)
  : VoiceCoordinator * Turn :=
  match evs with
  | [] => s
  | (ev, now) :: rest => steps rest (step ev now s)
  end.

(** The chat call or the TTS call fails at this event of the turn. *)
Definition failure (ev : Event) (t : Turn) : option string :=
  match ev, t with
  | EvChat (ChatThrows message), AwaitChat => Some ("Error: " ++ message)
  | EvChat (ChatNotOk statusText), AwaitChat => Some ("Error: API error: " ++ statusText)
  | EvChat (ChatJson (Some e) _ _), AwaitChat =>
      if JsString.truthy e then Some ("Error: " ++ e) else None
  | EvTts (TtsThrows message), AwaitTtsFetch => Some ("TTS error: " ++ message)
  | EvTts (TtsNotOk statusText), AwaitTtsFetch =>
      Some ("TTS error: TTS error: " ++ statusText)
  | EvTts TtsNoBody, AwaitTtsFetch => Some "TTS error: No response body"
  | EvRead (ReadThrows message), AwaitRead => Some ("TTS error: " ++ message)
  | _, _ => None
  end%string.

End Decoding.

Definition isError (n : Notification) : bool :=
  match n with OnError _ => true | _ => false end.

(** The [onError] calls among the observer calls. *)
Definition errors (c : VoiceCoordinator) : list Notification :=
  List.filter isError (observed c).

(** The buffers that were started on the audio output, oldest first. *)
Fixpoint started (l : list AudioAction) : list AudioBuffer :=
  match l with
  | [] => []
  | SourceStart b :: rest => b :: started rest
  | _ :: rest => started rest
  end.

(** The parts of the coordinator a transition request leaves alone. *)
Definition sameButMachine (c c' : VoiceCoordinator) : Prop :=
  errors c' = errors c /\ callbacks c' = callbacks c /\ config c' = config c /\
  timers c' = timers c /\ audio c' = audio c /\ audioQueue c' = audioQueue c /\
  isPlaying c' = isPlaying c /\ currentSourceNode c' = currentSourceNode c /\
  audioContext c' = audioContext c.

(** Errors reported and observers registered are the same. *)
Definition keeps (c c' : VoiceCoordinator) : Prop :=
  errors c' = errors c /\ callbacks c' = callbacks c.

(** The machine rests in LISTENING or IDLE. *)
Definition settled (c : VoiceCoordinator) : Prop :=
  getCurrentState c = LISTENING \/ getCurrentState c = IDLE.

(** ** A session with a stream in flight *)

Definition allObservers : VoiceCallbacks :=
  mkCallbacks true true true true true true true true.

(** The configuration [useVoice] passes: an audio context of its own. *)
Definition suppliedContext : VoiceCoordinatorConfig := mkConfig false true.

(** [start()], the final transcript "hi", the reply "hello", and a TTS
    stream that has delivered the chunk A1, which is playing.  Every
    payload parses and decodes. *)
Definition speaking : VoiceCoordinator * Turn :=
  let c0 := fst (start None 0 (new suppliedContext allObservers)) in
  steps Some Some
    [ (EvChat (ChatJson None "hello" (Some "conv-1"%string)), 20);
      (EvTts TtsBody, 30);
      (EvRead (ReadValue "data: A1"), 40) ]
    (handleTranscript "hi" true 10 c0).

(** The session above, then [interruption], then the chunk A2. *)
Definition staleChunk (interruption : Event) : VoiceCoordinator * Turn :=
  steps Some Some
    [ (interruption, 50); (EvRead (ReadValue "data: A2"), 60) ]
    speaking.

End VoiceCoordinator.

(* ===================================================================== *)
(** * Histories and callbacks of the state machine                        *)
(* ===================================================================== *)

Module StateHistory.

Import ConversationState.

(** Each record starts in the state the record before it ended in. *)
Fixpoint linked (h : list StateTransition) : Prop :=
  match h with
  | r1 :: (r2 :: _) as rest => to r1 = from r2 /\ linked rest
  | _ => True
  end.

(** The record that follows the first record entering BARGE_IN leaves
    it for LISTENING or IDLE. *)
Fixpoint bargeInLeft (h : list StateTransition) : Prop :=
  match h with
  | r1 :: (r2 :: _) as rest =>
      (to r1 = BARGE_IN -> to r2 = LISTENING \/ to r2 = IDLE) /\ bargeInLeft rest
  | _ => True
  end.

(** What the five callbacks are called with. *)
Inductive Notice : Type :=
  | Changed (from_ to_ : ConversationState) (reason_ : option string)
  | BargedIn
  | Listening
  | Speaking
  | Thinking.

(** All five callbacks registered, each recording its call. *)
Definition recording : ConversationStateCallbacks (list Notice) :=
  {| onStateChange := Some (fun f t r log => log ++ [Changed f t r]);
     onBargeIn := Some (fun log => log ++ [BargedIn]);
     onListening := Some (fun log => log ++ [Listening]);
     onSpeaking := Some (fun log => log ++ [Speaking]);
     onThinking := Some (fun log => log ++ [Thinking]) |}.

(** The state-specific notice of a state; IDLE has none. *)
Definition entering (s : ConversationState) : list Notice :=
  match s with
  | BARGE_IN => [BargedIn]
  | LISTENING => [Listening]
  | SPEAKING => [Speaking]
  | THINKING => [Thinking]
  | IDLE => []
  end.

(** What every [transition] keeps true of a machine: the history is a
    path of allowed transitions that ends in the current state. *)
Definition consistent (m : ConversationStateMachine) : Prop :=
  linked (history m) /\
  Forall (fun t => allowed (from t) (to t)) (history m) /\
  match last (history m) with
  | Some r => to r = state m
  | None => state m = IDLE
  end.

End StateHistory.

(* ===================================================================== *)
(** * Runs of the barge-in detector                                       *)
(* ===================================================================== *)

Module BargeInRuns.

Import BargeIn.

(** A string of white space only (the empty string included). *)
Fixpoint blank (s : string) : bool :=
  match s with
  | EmptyString => true
  | String c rest => JsString.isWhiteSpace c && blank rest
  end.

Section Numeric.

Variable Math_sqrt : Q -> Q.
Variable Math_pow : Q -> Q -> Q.

(** A sequence of calls of the public interface, in order. *)
Fixpoint calls {W} (cs : list Call) (d : BargeInDetector W) (w : W)
  : BargeInDetector W * W :=
  match cs with
  | [] => (d, w)
  | c :: rest =>
      let '(d', w') := call Math_sqrt Math_pow c d w in calls rest d' w'
  end.

End Numeric.

(** The window of recent energies holds at most [vadWindowSize] values
    (none when that size is not positive). *)
Definition windowBounded {W} (d : BargeInDetector W) : Prop :=
  Z.of_nat (length (energyHistory d)) <= Z.max 0 (vadWindowSize d).

Definition isAudioChunk (c : Call) : bool :=
  match c with CallAudioChunk _ _ _ => true | _ => false end.

End BargeInRuns.

(* ===================================================================== *)
(** * Ranges for the lip sync engine                                      *)
(* ===================================================================== *)

Module LipSyncRanges.

Import LipSync.
Local Open Scope Q_scope.

(** What a [Uint8Array] holds. *)
Definition isByte (b : Z) : Prop := (0 <= b <= 255)%Z.

Definition inUnit (x : Q) : Prop := 0 <= x /\ x <= 1.

(** The bound of a binary64 sum of [k] terms of [0,1]. *)
Definition cap (k : Z) : Z := Z.min k (2 ^ 53).

End LipSyncRanges.

(* ===================================================================== *)
(** * The TTS route and the hook around the coordinator                   *)
(* ===================================================================== *)

Module Session.

Import ConversationState.
Import VoiceCoordinator.

(** ** The server side of the stream (app/api/tts/stream, route.ts)

    [eventData] is the text enqueued for one audio chunk,
    [`data: ${JSON.stringify({ audio: base64Audio })}\n\n`], and
    [doneEvent] the one enqueued at the end of the upstream body.
    [JSON_stringify] gives the JSON text of the object [{ audio }]. *)

Definition nl : string := String JsString.newline EmptyString.

Definition eventData (JSON_stringify : string -> string) (base64Audio : string)
  : string :=
  ("data: " ++ JSON_stringify base64Audio ++ nl ++ nl)%string.

Definition doneEvent : string := ("data: [DONE]" ++ nl ++ nl)%string.

(** The text of one read that delivers whole events, in order. *)
Fixpoint delivered (JSON_stringify : string -> string) (payloads : list string)
  : string :=
  match payloads with
  | [] => EmptyString
  | a :: rest => (eventData JSON_stringify a ++ delivered JSON_stringify rest)%string
  end.

Fixpoint hasNewline (s : string) : bool :=
  match s with
  | EmptyString => false
  | String c rest => Ascii.eqb c JsString.newline || hasNewline rest
  end.

(** ** The client side, payload by payload *)

Section Decoding.

Variable decodeAudioData : string -> option AudioBuffer.

(** What the read loop does with one parsed payload. *)
Definition hand (audio_ : string) (c : VoiceCoordinator) : VoiceCoordinator :=
  playAudioChunk decodeAudioData audio_
    (notify (onAudioChunk (callbacks c)) (OnAudioChunk audio_) c).

Definition handAll (payloads : list string) (c : VoiceCoordinator) : VoiceCoordinator :=
  fold_left (fun c a => hand a c) payloads c.

(** What the read loop does at the sentinel. *)
Definition complete (now : Z) (c : VoiceCoordinator) : VoiceCoordinator :=
  smTransition LISTENING now
    (notify (onAudioComplete (callbacks c)) OnAudioComplete c).

(** Chunks handed to [playAudioChunk] and [onended] events, in order. *)
Inductive PlaybackEvent : Type :=
  | Chunk (base64Audio : string)
  | Ended.

Fixpoint playback (evs : list PlaybackEvent) (c : VoiceCoordinator) : VoiceCoordinator :=
  match evs with
  | [] => c
  | Chunk a :: rest => playback rest (playAudioChunk decodeAudioData a c)
  | Ended :: rest => playback rest (onended c)
  end.

(** The buffers the chunks of [evs] decode to, in order. *)
Fixpoint decoded (evs : list PlaybackEvent) : list AudioBuffer :=
  match evs with
  | [] => []
  | Chunk a :: rest =>
      match decodeAudioData a with
      | Some b => b :: decoded rest
      | None => decoded rest
      end
  | Ended :: rest => decoded rest
  end.

End Decoding.

(** Reads that each deliver whole audio events, all at their own time. *)
Definition audioReads (JSON_stringify : string -> string)
    (groups : list (list string * Z)) : list (Event * Z) :=
  map (fun g => (EvRead (ReadValue (delivered JSON_stringify (fst g))), snd g)) groups.

(** ** The hook (hooks/useVoice.ts)

    [useState('IDLE')] and [onStateChange: (newState) => setState(newState)]:
    the state the hook shows is the argument of the last [onStateChange]
    call. *)
Definition shown (s : ConversationState) (n : Notification) : ConversationState :=
  match n with OnStateChange x => x | _ => s end.

Definition displayedState (log : list Notification) : ConversationState :=
  fold_left shown log IDLE.

Definition isStateChange (n : Notification) : bool :=
  match n with OnStateChange _ => true | _ => false end.

(** The state the last recorded transition left. *)
Definition lastFrom (m : ConversationStateMachine) : ConversationState :=
  match last (history m) with
  | Some r => from r
  | None => IDLE
  end.

(** ** Moves of a coordinator

    [quiet c c']: between [c] and [c'] the machine, the registered
    observers, the timers, the playback fields and the callback of the
    detector are the same, and the hook shows the same state. *)
Definition quiet (c c' : VoiceCoordinator) : Prop :=
  stateMachine c' = stateMachine c /\ callbacks c' = callbacks c /\
  timers c' = timers c /\ audioContext c' = audioContext c /\
  currentEventSource c' = currentEventSource c /\
  audioQueue c' = audioQueue c /\ isPlaying c' = isPlaying c /\
  currentSourceNode c' = currentSourceNode c /\
  BargeIn.onBargeIn (bargeInDetector c') = BargeIn.onBargeIn (bargeInDetector c) /\
  displayedState (observed c') = displayedState (observed c).

Section Reachable.

Variable JSON_parse : string -> option string.
Variable decodeAudioData : string -> option AudioBuffer.

(** [external = true] lets [handleBargeIn] be called from outside; with
    [external = false] the moves are those the coordinator makes through
    its public methods, the transcript source, the resumed requests and
    the playback events. *)
Inductive moves (external : bool) : VoiceCoordinator -> VoiceCoordinator -> Prop :=
  | moves_quiet c c' : quiet c c' -> moves external c c'
  | moves_transition to_ now c :
      to_ <> BARGE_IN -> moves external c (smTransition to_ now c)
  | moves_chunk a c : moves external c (playAudioChunk decodeAudioData a c)
  | moves_ended c : moves external c (onended c)
  | moves_stopPlayback c : moves external c (stopAudioPlayback c)
  | moves_acquire c : moves external c (set_audioContext true c)
  | moves_release c :
      currentSourceNode c = None -> audioQueue c = [] ->
      moves external c (set_audioContext false c)
  | moves_timer now c : moves external c (fireTimer now c)
  | moves_bargeIn now c :
      external = true -> moves external c (handleBargeIn now c)
  | moves_trans c1 c2 c3 :
      moves external c1 c2 -> moves external c2 c3 -> moves external c1 c3.

(** The coordinators a session can be in. *)
Inductive reachable (external : bool) : VoiceCoordinator -> Prop :=
  | reach_new cfg cbs : reachable external (new cfg cbs)
  | reach_start o now c :
      reachable external c -> reachable external (fst (start o now c))
  | reach_stop now c :
      reachable external c -> reachable external (stop now c)
  | reach_transcript text isFinal now c :
      reachable external c ->
      reachable external (fst (handleTranscript text isFinal now c))
  | reach_chat o now c :
      reachable external c -> reachable external (fst (resumeChat o now c))
  | reach_tts o now c :
      reachable external c -> reachable external (fst (resumeTts o now c))
  | reach_read o now c :
      reachable external c ->
      reachable external (fst (resumeRead JSON_parse decodeAudioData o now c))
  | reach_ended c :
      reachable external c -> reachable external (onended c)
  | reach_timer now c :
      reachable external c -> reachable external (fireTimer now c)
  | reach_bargeIn now c :
      external = true ->
      reachable external c -> reachable external (handleBargeIn now c).

End Reachable.

(** What holds of every reachable coordinator. *)
Definition invariant (external : bool) (c : VoiceCoordinator) : Prop :=
  StateHistory.consistent (stateMachine c) /\
  (onStateChange (callbacks c) = true ->
   displayedState (observed c) = lastFrom (stateMachine c)) /\
  (isPlaying c = false -> currentSourceNode c = None /\ audioQueue c = []) /\
  (currentSourceNode c <> None \/ audioQueue c <> [] -> audioContext c = true) /\
  currentEventSource c = false /\
  BargeIn.onBargeIn (bargeInDetector c) = None /\
  (getCurrentState c = BARGE_IN -> timers c <> []) /\
  (external = false -> getCurrentState c <> BARGE_IN /\ timers c = []).

End Session.

(* ===================================================================== *)
(** * Sample sessions                                                     *)
(* ===================================================================== *)

Module SessionSamples.

Import VoiceCoordinator.

(** A started coordinator as [useVoice] builds it. *)
Definition started : VoiceCoordinator :=
  fst (start None 0 (new suppliedContext allObservers)).

(** The same after the final transcript "hi", the reply "hello" and a
    first chunk A1 of the TTS stream, which is playing. *)
Definition playing : VoiceCoordinator :=
  fst (resumeRead Some Some (ReadValue "data: A1") 40
        (fst (resumeTts TtsBody 30
               (fst (resumeChat (ChatJson None "hello" (Some "conv-1"%string)) 20
                      (fst (handleTranscript "hi" true 10 started))))))).

End SessionSamples.

(* ===================================================================== *)
(** * Properties of the conversation state machine                        *)
(* ===================================================================== *)

Module ConversationStateFacts.

Import ConversationState.

Lemma state_eqb_eq a b : state_eqb a b = true <-> a = b.
Proof. destruct a, b; simpl; split; congruence. Qed.

Lemma state_eqb_refl a : state_eqb a a = true.
Proof. now destruct a. Qed.

Lemma state_eqb_neq a b : state_eqb a b = false <-> a <> b.
Proof. destruct a, b; simpl; split; congruence. Qed.

(** The table of the code is the table of the specification. *)
Lemma isValidTransition_allowed s t : isValidTransition s t = true <-> allowed s t.
Proof.
  split.
  - destruct s, t; simpl; intros H; try discriminate H; constructor.
  - intros H; destruct H; reflexivity.
Qed.

Lemma isValidTransition_irrefl s : isValidTransition s s = false.
Proof. now destruct s. Qed.

Lemma transition_valid {W} (cbs : ConversationStateCallbacks W) to_ r now m w :
  isValidTransition (state m) to_ = true ->
  exists w',
    transition cbs to_ r now m w
    = (true, {| state := to_;
                history := pushHistory (history m) (mkTransition (state m) to_ now r) |}, w').
Proof.
  intros H. unfold transition. rewrite H. simpl. eexists. reflexivity.
Qed.

Lemma transition_invalid {W} (cbs : ConversationStateCallbacks W) to_ r now m w :
  isValidTransition (state m) to_ = false ->
  transition cbs to_ r now m w = (false, m, w).
Proof. intros H. unfold transition. now rewrite H. Qed.

Lemma pushHistory_spec h t :
  pushHistory h t
  = (if (length h <? maxHistorySize)%nat then h else tl h) ++ [t].
Proof.
  unfold pushHistory. rewrite length_app. simpl.
  destruct (Nat.ltb_spec (length h) maxHistorySize) as [Hlt | Hge];
    destruct (Nat.ltb_spec maxHistorySize (length h + 1)) as [Hlt' | Hge'];
    try lia; try reflexivity.
  destruct h as [| x h']; [ unfold maxHistorySize in Hge; simpl in Hge; lia | reflexivity ].
Qed.

Lemma tl_skipn {A} (l : list A) k : tl (skipn k l) = skipn (S k) l.
Proof.
  revert l. induction k as [| k IH]; intros [| x l]; simpl; try reflexivity.
  - apply (IH l).
Qed.

Lemma lastn_length {A} n (l : list A) : length (lastn n l) = Nat.min n (length l).
Proof. unfold lastn. rewrite length_skipn. lia. Qed.

Lemma pushHistory_lastn acc t :
  pushHistory (lastn maxHistorySize acc) t = lastn maxHistorySize (acc ++ [t]).
Proof.
  rewrite pushHistory_spec, lastn_length. unfold lastn.
  rewrite length_app. change (length [t]) with 1%nat.
  change maxHistorySize with 50%nat.
  destruct (Nat.ltb_spec (Nat.min 50 (length acc)) 50) as [Hlt | Hge].
  - replace (length acc - 50)%nat with 0%nat by lia.
    replace (length acc + 1 - 50)%nat with 0%nat by lia.
    reflexivity.
  - rewrite tl_skipn.
    replace (length acc + 1 - 50)%nat with (S (length acc - 50)) by lia.
    rewrite skipn_app.
    replace (S (length acc - 50) - length acc)%nat with 0%nat by lia.
    reflexivity.
Qed.

(** [run] keeps the history equal to the most recent accepted
    transitions. *)
Lemma run_history {W} (cbs : ConversationStateCallbacks W) reqs :
  forall m w acc,
    history m = lastn maxHistorySize acc ->
    let '(m', _, acc') := run cbs reqs m w acc in
    history m' = lastn maxHistorySize acc' /\
    exists new, acc' = acc ++ new.
Proof.
  induction reqs as [| r rest IH]; intros m w acc Hinv; simpl.
  - split; [ exact Hinv | exists []; now rewrite app_nil_r ].
  - destruct (isValidTransition (state m) (req_to r)) eqn:Hv.
    + destruct (transition_valid cbs (req_to r) (req_reason r) (req_now r) m w Hv)
        as [w' Ht].
      rewrite Ht.
      specialize (IH {| state := req_to r;
                        history := pushHistory (history m)
                                     (mkTransition (state m) (req_to r) (req_now r) (req_reason r)) |}
                     w' (acc ++ [mkTransition (state m) (req_to r) (req_now r) (req_reason r)])).
      simpl in IH. rewrite Hinv, pushHistory_lastn in IH.
      specialize (IH eq_refl).
      rewrite Hinv, pushHistory_lastn.
      destruct (run cbs rest _ w' _) as [[m' w''] acc'].
      destruct IH as [IH1 [new IH2]]. split; [ exact IH1 |].
      exists (mkTransition (state m) (req_to r) (req_now r) (req_reason r) :: new).
      rewrite IH2, <- app_assoc. reflexivity.
    + rewrite (transition_invalid cbs _ _ _ m w Hv).
      apply (IH m w acc Hinv).
Qed.

(** ** C1 *)

(** C1.  For every current state and every target, [transition] returns
    true exactly when the target is in the allowed set of the table; it
    then makes the target the current state and puts the record of the
    transition at the end of the history (dropping the oldest entry
    when the history already held 50).  When the target is not allowed
    it returns false and the machine and the world of the callbacks are
    as before. *)
Theorem transition_iff_allowed {W} (cbs : ConversationStateCallbacks W)
    (m : ConversationStateMachine) (to_ : ConversationState)
    (reason_ : option string) (now : Z) (w : W) :
  let '(ok, m', w') := transition cbs to_ reason_ now m w in
  (ok = true <-> allowed (state m) to_) /\
  (allowed (state m) to_ ->
     state m' = to_ /\
     history m'
     = (if (length (history m) <? 50)%nat then history m else tl (history m))
         ++ [mkTransition (state m) to_ now reason_]) /\
  (~ allowed (state m) to_ -> ok = false /\ m' = m /\ w' = w).
Proof.
  destruct (isValidTransition (state m) to_) eqn:Hv.
  - destruct (transition_valid cbs to_ reason_ now m w Hv) as [w' Ht].
    rewrite Ht. apply isValidTransition_allowed in Hv.
    split; [ tauto |]. split.
    + intros _. simpl. split; [ reflexivity | apply pushHistory_spec ].
    + intros Hn. contradiction.
  - rewrite (transition_invalid cbs _ _ _ m w Hv).
    assert (Hn : ~ allowed (state m) to_).
    { intros Ha. apply isValidTransition_allowed in Ha. congruence. }
    split; [ split; [ discriminate | contradiction ] |].
    split; [ contradiction | auto ].
Qed.

Lemma transition_iff_allowed_witness :
  allowed IDLE LISTENING /\
  ~ allowed IDLE SPEAKING /\
  (let '(ok, m', _) := transition noCallbacks LISTENING None 7 initial tt in
   ok = true /\ state m' = LISTENING /\
   history m' = [mkTransition IDLE LISTENING 7 None]) /\
  (let '(ok, m', _) := transition noCallbacks SPEAKING None 7 initial tt in
   ok = false /\ m' = initial).
Proof.
  assert (Ha : allowed IDLE LISTENING) by constructor.
  assert (Hn : ~ allowed IDLE SPEAKING) by (intros H; inversion H).
  split; [ exact Ha |]. split; [ exact Hn |]. split.
  - pose proof (transition_iff_allowed noCallbacks initial LISTENING None 7 tt) as H.
    destruct (transition noCallbacks LISTENING None 7 initial tt) as [[ok m'] w'].
    destruct H as [H1 [H2 _]].
    split; [ apply H1; exact Ha |]. apply (H2 Ha).
  - pose proof (transition_iff_allowed noCallbacks initial SPEAKING None 7 tt) as H.
    destruct (transition noCallbacks SPEAKING None 7 initial tt) as [[ok m'] w'].
    destruct H as [_ [_ H3]]. destruct (H3 Hn) as [E1 [E2 _]]. split; assumption.
Defined.

(** ** C6 *)

(** C6, as stated, fails in IDLE: IDLE is not in the allowed set of
    IDLE, and [reset()] on a fresh machine performs no transition. *)
Lemma reset_in_idle_is_rejected :
  ~ (forall s, isValidTransition s IDLE = true) /\
  ~ allowed IDLE IDLE /\
  transition noCallbacks IDLE (Some "Reset"%string) 7 initial tt = (false, initial, tt).
Proof.
  split; [ intros H; specialize (H IDLE); discriminate H |].
  split; [ intros H; inversion H | reflexivity ].
Qed.

(** C6, amended.  From every state other than IDLE the transition to
    IDLE is allowed, and [reset()] performs it: the state becomes IDLE
    and the record with reason "Reset" ends the history.  In IDLE the
    request is rejected and [reset()] changes nothing.  Either way the
    machine is in IDLE afterwards. *)
Theorem reset_reaches_idle {W} (cbs : ConversationStateCallbacks W)
    (m : ConversationStateMachine) (now : Z) (w : W) :
  (state m <> IDLE ->
     allowed (state m) IDLE /\
     fst (fst (transition cbs IDLE (Some "Reset"%string) now m w)) = true /\
     state (fst (reset cbs now m w)) = IDLE /\
     history (fst (reset cbs now m w))
     = (if (length (history m) <? 50)%nat then history m else tl (history m))
         ++ [mkTransition (state m) IDLE now (Some "Reset"%string)]) /\
  (state m = IDLE ->
     fst (fst (transition cbs IDLE (Some "Reset"%string) now m w)) = false /\
     reset cbs now m w = (m, w)) /\
  state (fst (reset cbs now m w)) = IDLE.
Proof.
  unfold reset.
  destruct (state_eqb (state m) IDLE) eqn:He.
  - apply state_eqb_eq in He.
    assert (Hv : isValidTransition (state m) IDLE = false)
      by (rewrite He; reflexivity).
    rewrite (transition_invalid cbs _ _ _ m w Hv). simpl.
    split; [ intros Hn; contradiction |]. split; [ auto | exact He ].
  - apply state_eqb_neq in He.
    assert (Hv : isValidTransition (state m) IDLE = true)
      by (destruct (state m); try reflexivity; contradiction).
    destruct (transition_valid cbs IDLE (Some "Reset"%string) now m w Hv) as [w' Ht].
    rewrite Ht. simpl.
    split; [| split; [ intros E; contradiction | reflexivity ] ].
    intros _. split; [ now apply isValidTransition_allowed |].
    split; [ reflexivity |]. split; [ reflexivity | apply pushHistory_spec ].
Qed.

Lemma reset_reaches_idle_witness :
  let m := {| state := SPEAKING; history := [mkTransition THINKING SPEAKING 5 None] |} in
  state (fst (reset noCallbacks 9 m tt)) = IDLE /\
  history (fst (reset noCallbacks 9 m tt))
  = [mkTransition THINKING SPEAKING 5 None;
     mkTransition SPEAKING IDLE 9 (Some "Reset"%string)] /\
  reset noCallbacks 9 initial tt = (initial, tt).
Proof.
  intros m.
  pose proof (reset_reaches_idle noCallbacks m 9 tt) as [H1 _].
  pose proof (reset_reaches_idle noCallbacks initial 9 tt) as [_ [H2 _]].
  assert (Hne : state m <> IDLE) by (simpl; discriminate).
  destruct (H1 Hne) as [_ [_ [Hs Hh]]].
  split; [ exact Hs |]. split; [ exact Hh |].
  apply (H2 eq_refl).
Defined.

(** ** C7 *)

(** C7.  After any sequence of [transition] calls on a fresh machine the
    history has at most 50 entries and is the list of the 50 most
    recent accepted transitions, oldest first; when 51 transitions were
    accepted it is that list without its first entry. *)
Theorem history_bounded_fifo {W} (cbs : ConversationStateCallbacks W)
    (reqs : list Request) (w : W) :
  let '(m, _, accepted) := run cbs reqs initial w [] in
  (length (history m) <= 50)%nat /\
  history m = lastn 50 accepted /\
  (length accepted = 51%nat -> history m = tl accepted).
Proof.
  pose proof (run_history cbs reqs initial w [] eq_refl) as H.
  destruct (run cbs reqs initial w []) as [[m w'] accepted].
  destruct H as [H _]. change maxHistorySize with 50%nat in H.
  split; [ rewrite H, lastn_length; lia |].
  split; [ exact H |].
  intros Hlen. rewrite H. unfold lastn. rewrite Hlen.
  destruct accepted; reflexivity.
Qed.

Lemma history_bounded_fifo_witness :
  let '(m, _, accepted) := run noCallbacks (alternate 51 0 LISTENING) initial tt [] in
  length accepted = 51%nat /\
  length (history m) = 50%nat /\
  history m = tl accepted /\
  hd_error (history m) = Some (mkTransition LISTENING IDLE 1 None) /\
  hd_error accepted = Some (mkTransition IDLE LISTENING 0 None).
Proof.
  pose proof (history_bounded_fifo noCallbacks (alternate 51 0 LISTENING) tt) as H.
  remember (run noCallbacks (alternate 51 0 LISTENING) initial tt []) as r eqn:Hr.
  vm_compute in Hr. subst r.
  destruct H as [_ [_ H]].
  split; [ reflexivity |]. split; [ reflexivity |].
  split; [ apply H; reflexivity |]. split; reflexivity.
Defined.

End ConversationStateFacts.

(* ===================================================================== *)
(** * Properties of the barge-in detector                                 *)
(* ===================================================================== *)

Module BargeInFacts.

Import BargeIn.

Section Debounce.

Variable Math_sqrt : Q -> Q.
Variable Math_pow : Q -> Q -> Q.

Lemma trigger_cases (d : BargeInDetector (list BargeInEvent)) ev now w :
  onBargeIn d = Some record ->
  triggerBargeIn ev now d w
  = if now - lastBargeIn d <? debounceOf d then (d, w)
    else (stamped now d, w ++ [ev]).
Proof.
  intros Hcb. unfold triggerBargeIn, debounceOf, stamped.
  destruct (now - lastBargeIn d <? nullish (debounceMs (config d)) 300);
    [ reflexivity |].
  rewrite Hcb. reflexivity.
Qed.

Lemma trigger_honoured (d : BargeInDetector (list BargeInEvent)) ev now w :
  onBargeIn d = Some record ->
  debounceOf d <= now - lastBargeIn d ->
  triggerBargeIn ev now d w = (stamped now d, w ++ [ev]).
Proof.
  intros Hcb Hle. rewrite (trigger_cases d ev now w Hcb).
  destruct (Z.ltb_spec (now - lastBargeIn d) (debounceOf d)); [ lia | reflexivity ].
Qed.

Lemma trigger_dropped {W} (d : BargeInDetector W) ev now w :
  now - lastBargeIn d < nullish (debounceMs (config d)) 300 ->
  triggerBargeIn ev now d w = (d, w).
Proof.
  intros Hlt. unfold triggerBargeIn.
  destruct (Z.ltb_spec (now - lastBargeIn d) (nullish (debounceMs (config d)) 300));
    [ reflexivity | lia ].
Qed.

Lemma snoc_neq {A} (l : list A) x : l ++ [x] <> l.
Proof.
  intros H. apply (f_equal (@length A)) in H. rewrite length_app in H.
  simpl in H. lia.
Qed.

Lemma triggers_spec evs :
  forall (d : BargeInDetector (list BargeInEvent)) w,
    onBargeIn d = Some record ->
    let '(d', w', fired) := triggers evs d w in
    fired = honoured (debounceOf d) (lastBargeIn d) (map snd evs) /\
    w' = w ++ select fired (map fst evs) /\
    lastBargeIn d' = List.last (lastBargeIn d :: select fired (map snd evs)) 0 /\
    config d' = config d /\ onBargeIn d' = onBargeIn d.
Proof.
  induction evs as [| [ev now] rest IH]; intros d w Hcb; simpl.
  - rewrite app_nil_r. auto.
  - rewrite (trigger_cases d ev now w Hcb).
    destruct (Z.ltb_spec (now - lastBargeIn d) (debounceOf d)) as [Hlt | Hge].
    + specialize (IH d w Hcb).
      destruct (triggers rest d w) as [[d2 w2] bs].
      destruct IH as [E1 [E2 [E3 [E4 E5]]]].
      rewrite Nat.ltb_irrefl.
      destruct (Z.leb_spec (debounceOf d) (now - lastBargeIn d)); [ lia |].
      rewrite <- E1. simpl. auto.
    + assert (Hcb' : onBargeIn (stamped now d) = Some record) by exact Hcb.
      specialize (IH (stamped now d) (w ++ [ev]) Hcb').
      destruct (triggers rest (stamped now d) (w ++ [ev])) as [[d2 w2] bs].
      destruct IH as [E1 [E2 [E3 [E4 E5]]]].
      replace (length w <? length (w ++ [ev]))%nat with true
        by (symmetry; apply Nat.ltb_lt; rewrite length_app; simpl; lia).
      destruct (Z.leb_spec (debounceOf d) (now - lastBargeIn d)); [| lia ].
      change (debounceOf (stamped now d)) with (debounceOf d) in E1.
      change (lastBargeIn (stamped now d)) with now in E1, E3.
      rewrite <- E1. simpl select.
      split; [ reflexivity |].
      split; [ rewrite E2, <- app_assoc; reflexivity |].
      split; [ rewrite E3; destruct (select bs (map snd rest)); reflexivity |].
      auto.
Qed.

(** Whatever a call does before it reaches [triggerBargeIn] leaves the
    configuration, the callback and the last trigger time alone. *)
Lemma call_cases (c : Call) (d : BargeInDetector (list BargeInEvent)) w :
  onBargeIn d = Some record ->
  let '(d', w') := call Math_sqrt Math_pow c d w in
  config d' = config d /\ onBargeIn d' = onBargeIn d /\
  ((w' = w /\ lastBargeIn d' = lastBargeIn d) \/
   (exists ev, w' = w ++ [ev] /\ lastBargeIn d' = clock c /\
               debounceOf d <= clock c - lastBargeIn d)) /\
  (clock c - lastBargeIn d < debounceOf d -> w' = w /\ lastBargeIn d' = lastBargeIn d).
Proof.
  intros Hcb.
  assert (Htrig : forall (d1 : BargeInDetector (list BargeInEvent)) ev now,
             config d1 = config d -> onBargeIn d1 = onBargeIn d ->
             lastBargeIn d1 = lastBargeIn d ->
             let '(d', w') := triggerBargeIn ev now d1 w in
             config d' = config d /\ onBargeIn d' = onBargeIn d /\
             ((w' = w /\ lastBargeIn d' = lastBargeIn d) \/
              (exists ev0, w' = w ++ [ev0] /\ lastBargeIn d' = now /\
                           debounceOf d <= now - lastBargeIn d)) /\
             (now - lastBargeIn d < debounceOf d ->
              w' = w /\ lastBargeIn d' = lastBargeIn d)).
  { intros d1 ev now Hc Ho Hl.
    rewrite (trigger_cases d1 ev now w) by congruence.
    unfold debounceOf at 1. rewrite Hc, Hl. fold (debounceOf d).
    destruct (Z.ltb_spec (now - lastBargeIn d) (debounceOf d)) as [Hlt | Hge].
    - repeat split; auto.
    - simpl. repeat split; auto.
      + right. exists ev. auto.
      + lia.
      + lia. }
  destruct c as [a ts now | t f ts now | a t f ts now]; simpl.
  - unfold processAudioChunk.
    match goal with |- context [if ?b then _ else _] => destruct b end.
    + apply Htrig; reflexivity.
    + simpl. repeat split; auto.
  - unfold processTranscript. destruct f; simpl.
    + repeat split; auto.
    + match goal with |- context [if ?b then _ else _] => destruct b end.
      * apply Htrig; reflexivity.
      * simpl. repeat split; auto.
  - unfold processCombined.
    match goal with |- context [if ?b then _ else _] => destruct b end.
    + apply Htrig; reflexivity.
    + repeat split; auto.
Qed.

End Debounce.

(** ** C5 *)

(** C5.  With a callback registered, a trigger attempt reaches the
    callback exactly when at least [debounceMs] (300 unless configured)
    has passed since the time stored by the last honoured trigger.  An
    honoured attempt stores its time; a dropped one changes neither the
    detector nor what the callback has received.  This holds for single
    attempts, for sequences of attempts, and for attempts that come
    through [processAudioChunk], [processTranscript] and
    [processCombined].  Of two attempts 100 ms apart under a 300 ms
    debounce, the first being honoured, the second is dropped. *)
Theorem debounce_honours_iff_elapsed
    (Math_sqrt : Q -> Q) (Math_pow : Q -> Q -> Q)
    (d : BargeInDetector (list BargeInEvent)) (w : list BargeInEvent) :
  onBargeIn d = Some record ->
  let debounce := nullish (debounceMs (config d)) 300 in
  (forall cfg : BargeInConfig,
     nullish (debounceMs (config (new (W := list BargeInEvent) cfg))) 300
     = nullish (debounceMs cfg) 300) /\
  (forall ev now,
     let '(d', w') := triggerBargeIn ev now d w in
     (w' <> w <-> debounce <= now - lastBargeIn d) /\
     (debounce <= now - lastBargeIn d -> w' = w ++ [ev] /\ lastBargeIn d' = now) /\
     (now - lastBargeIn d < debounce -> w' = w /\ d' = d)) /\
  (forall evs,
     let '(d', w', fired) := triggers evs d w in
     fired = honoured debounce (lastBargeIn d) (map snd evs) /\
     w' = w ++ select fired (map fst evs) /\
     lastBargeIn d' = List.last (lastBargeIn d :: select fired (map snd evs)) 0) /\
  (forall c,
     let '(d', w') := call Math_sqrt Math_pow c d w in
     ((w' = w /\ lastBargeIn d' = lastBargeIn d) \/
      (exists ev, w' = w ++ [ev] /\ lastBargeIn d' = clock c /\
                  debounce <= clock c - lastBargeIn d)) /\
     (clock c - lastBargeIn d < debounce ->
      w' = w /\ lastBargeIn d' = lastBargeIn d)) /\
  (debounce = 300 ->
   forall e1 e2 t,
     300 <= t - lastBargeIn d ->
     let '(_, w', fired) := triggers [(e1, t); (e2, t + 100)] d w in
     fired = [true; false] /\ w' = w ++ [e1]).
Proof.
  intros Hcb debounce.
  split; [ intros cfg; reflexivity |].
  split.
  { intros ev now. rewrite (trigger_cases d ev now w Hcb).
    fold debounce. change (debounceOf d) with debounce.
    destruct (Z.ltb_spec (now - lastBargeIn d) debounce) as [Hlt | Hge].
    - split; [ split; [ intros H; now contradiction H | lia ] |].
      split; [ lia | auto ].
    - split; [ split; [ auto | intros _; apply snoc_neq ] |].
      split; [ auto | lia ]. }
  split.
  { intros evs. pose proof (triggers_spec evs d w Hcb) as H.
    destruct (triggers evs d w) as [[d' w'] fired].
    destruct H as [E1 [E2 [E3 _]]]. auto. }
  split.
  { intros c. pose proof (call_cases Math_sqrt Math_pow c d w Hcb) as H.
    destruct (call Math_sqrt Math_pow c d w) as [d' w'].
    destruct H as [_ [_ [H1 H2]]]. split; assumption. }
  intros Hdeb e1 e2 t Ht.
  pose proof (triggers_spec [(e1, t); (e2, t + 100)] d w Hcb) as H.
  destruct (triggers [(e1, t); (e2, t + 100)] d w) as [[d' w'] fired].
  destruct H as [E1 [E2 _]].
  change (debounceOf d) with debounce in E1. rewrite Hdeb in E1. simpl in E1.
  destruct (Z.leb_spec 300 (t - lastBargeIn d)); [| lia ].
  destruct (Z.leb_spec 300 (t + 100 - t)); [ lia |].
  subst fired. simpl in E2. auto.
Qed.

Lemma debounce_honours_iff_elapsed_witness :
  let d := setBargeInCallback record (new emptyConfig) in
  let '(_, w', fired) :=
    triggers [(sampleEvent 1000, 1000); (sampleEvent 1100, 1100)] d [] in
  fired = [true; false] /\ w' = [sampleEvent 1000].
Proof.
  intros d.
  pose proof (debounce_honours_iff_elapsed (fun x => x) (fun x _ => x) d []
                eq_refl) as [_ [_ [_ [_ H]]]].
  apply (H eq_refl (sampleEvent 1000) (sampleEvent 1100) 1000).
  simpl. lia.
Defined.

End BargeInFacts.

(* ===================================================================== *)
(** * Properties of binary64 rounding                                   *)
(* ===================================================================== *)

Module Binary64Facts.

Import Binary64.
Local Open Scope Q_scope.

Lemma pow2_pos e : 0 < 2 ^ e.
Proof. apply Qpower_0_lt. reflexivity. Qed.

Lemma pow2_nonzero e : ~ 2 ^ e == 0.
Proof. intros E. pose proof (pow2_pos e) as H. rewrite E in H. discriminate H. Qed.

Lemma pow2_plus a b : 2 ^ (a + b) == 2 ^ a * 2 ^ b.
Proof. apply Qpower_plus. discriminate. Qed.

Lemma pow2_succ a : 2 ^ (a + 1) == 2 * 2 ^ a.
Proof. rewrite pow2_plus. change (2 ^ 1) with 2. ring. Qed.

Lemma pow2_le a b : (a <= b)%Z -> 2 ^ a <= 2 ^ b.
Proof. intros H. apply Qpower_le_compat_l; [ exact H | discriminate ]. Qed.

Lemma pow2_lt a b : (a < b)%Z -> 2 ^ a < 2 ^ b.
Proof. intros H. apply Qpower_lt_compat_l; [ exact H | reflexivity ]. Qed.

Lemma pow2_lt_inv a b : 2 ^ a < 2 ^ b -> (a < b)%Z.
Proof. intros H. apply (Qpower_lt_compat_l_inv 2); [ exact H | reflexivity ]. Qed.

Lemma pow2_inject a : (0 <= a)%Z -> inject_Z (2 ^ a) == 2 ^ a.
Proof. intros H. rewrite (Zpower_Qpower 2 a H). reflexivity. Qed.

(** ** The binary logarithm *)

Lemma ilog2_spec x : 0 < x -> 2 ^ ilog2 x <= x /\ x < 2 ^ (ilog2 x + 1).
Proof.
  intros Hx. destruct x as [n d]. unfold ilog2. cbn [Qnum Qden].
  assert (Hn : (0 < n)%Z) by (unfold Qlt in Hx; simpl in Hx; lia).
  set (a := Z.log2 n). set (b := Z.log2 (Zpos d)).
  destruct (Z.log2_spec n Hn) as [A1 A2]. fold a in A1, A2.
  destruct (Z.log2_spec (Zpos d) eq_refl) as [B1 B2]. fold b in B1, B2.
  assert (Ha : (0 <= a)%Z) by apply Z.log2_nonneg.
  assert (Hb : (0 <= b)%Z) by apply Z.log2_nonneg.
  rewrite Zle_Qle, pow2_inject in A1, B1 by assumption.
  rewrite Zlt_Qlt, pow2_inject in A2, B2 by lia.
  change (Z.succ a) with (a + 1)%Z in A2. change (Z.succ b) with (b + 1)%Z in B2.
  rewrite pow2_succ in A2, B2.
  set (k := (a - b)%Z).
  assert (HP : 2 ^ k * 2 ^ b == 2 ^ a).
  { rewrite <- pow2_plus. replace (k + b)%Z with a by (unfold k; lia). reflexivity. }
  assert (Hk1 : 2 ^ (k + 1) == 2 * 2 ^ k) by apply pow2_succ.
  assert (Hk0 : 2 ^ k == 2 * 2 ^ (k - 1)).
  { rewrite <- pow2_succ. replace (k - 1 + 1)%Z with k by lia. reflexivity. }
  pose proof (pow2_pos k) as P0. pose proof (pow2_pos b) as PB.
  pose proof (pow2_pos (k - 1)) as PK.
  assert (Hx' : n # d == inject_Z n / inject_Z (Zpos d)) by apply Qmake_Qdiv.
  assert (HD : 0 < inject_Z (Zpos d)) by reflexivity.
  set (N := inject_Z n) in *. set (D := inject_Z (Zpos d)) in *.
  set (P := 2 ^ k) in *. set (B := 2 ^ b) in *. set (A := 2 ^ a) in *.
  set (P' := 2 ^ (k - 1)) in *.
  assert (Hup : n # d < 2 * P).
  { rewrite Hx'. apply Qlt_shift_div_r; [ exact HD |].
    clearbody N D P B A P'. nra. }
  assert (Hlow : P' <= n # d).
  { rewrite Hx'. apply Qle_shift_div_l; [ exact HD |].
    clearbody N D P B A P'. nra. }
  destruct (Qle_bool P (n # d)) eqn:E.
  - apply Qle_bool_iff in E. split; [ exact E |]. rewrite Hk1. exact Hup.
  - split; [ exact Hlow |].
    replace (k - 1 + 1)%Z with k by lia. fold P.
    apply Qnot_le_lt. intros C. apply Qle_bool_iff in C. congruence.
Qed.

Lemma ilog2_unique x k : 2 ^ k <= x -> x < 2 ^ (k + 1) -> ilog2 x = k.
Proof.
  intros H1 H2.
  assert (Hx : 0 < x) by (apply Qlt_le_trans with (2 ^ k); [ apply pow2_pos | exact H1 ]).
  destruct (ilog2_spec x Hx) as [S1 S2].
  assert (L1 : (k < ilog2 x + 1)%Z)
    by (apply pow2_lt_inv, Qle_lt_trans with x; assumption).
  assert (L2 : (ilog2 x < k + 1)%Z)
    by (apply pow2_lt_inv, Qle_lt_trans with x; assumption).
  lia.
Qed.

Lemma ilog2_comp x y : 0 < x -> x == y -> ilog2 x = ilog2 y.
Proof.
  intros Hx E. symmetry. destruct (ilog2_spec x Hx) as [S1 S2].
  apply ilog2_unique; rewrite <- E; assumption.
Qed.

Lemma ilog2_le x y : 0 < x -> x <= y -> (ilog2 x <= ilog2 y)%Z.
Proof.
  intros Hx Hxy.
  assert (Hy : 0 < y) by (apply Qlt_le_trans with x; assumption).
  destruct (ilog2_spec x Hx) as [S1 _]. destruct (ilog2_spec y Hy) as [_ T2].
  assert (L : (ilog2 x < ilog2 y + 1)%Z).
  { apply pow2_lt_inv. apply Qle_lt_trans with x; [ exact S1 |].
    apply Qle_lt_trans with y; assumption. }
  lia.
Qed.

(** ** Rounding to an integer *)

Lemma nearestEven_comp q q' : q == q' -> nearestEven q = nearestEven q'.
Proof.
  intros E. unfold nearestEven. rewrite (Qfloor_comp q q' E).
  assert (E' : q - inject_Z (Qfloor q') == q' - inject_Z (Qfloor q'))
    by (rewrite E; reflexivity).
  rewrite (Qcompare_comp _ _ E' (1 # 2) (1 # 2) (Qeq_refl _)). reflexivity.
Qed.

Lemma nearestEven_Z n : nearestEven (inject_Z n) = n.
Proof.
  unfold nearestEven. rewrite Qfloor_Z.
  assert (E : inject_Z n - inject_Z n == 0) by ring.
  rewrite (Qcompare_comp _ _ E (1 # 2) (1 # 2) (Qeq_refl _)). reflexivity.
Qed.

Lemma nearestEven_cases q :
  nearestEven q = Qfloor q \/ nearestEven q = (Qfloor q + 1)%Z.
Proof.
  unfold nearestEven. destruct (Qcompare _ _); [ destruct (Z.even _) | |]; auto.
Qed.

Lemma nearestEven_le q q' : q <= q' -> (nearestEven q <= nearestEven q')%Z.
Proof.
  intros H. pose proof (Qfloor_resp_le q q' H) as Hf.
  destruct (Z.eq_dec (Qfloor q) (Qfloor q')) as [E | N].
  - unfold nearestEven. rewrite E.
    set (f := Qfloor q'). set (F := inject_Z f).
    destruct (Qcompare (q - F) (1 # 2)) eqn:C1;
      destruct (Qcompare (q' - F) (1 # 2)) eqn:C2;
      try (destruct (Z.even f)); try lia;
      repeat match goal with
             | C : Qcompare _ _ = Eq |- _ => apply Qeq_alt in C
             | C : Qcompare _ _ = Lt |- _ => apply Qlt_alt in C
             | C : Qcompare _ _ = Gt |- _ => apply Qgt_alt in C
             end;
      exfalso; clearbody F; lra.
  - destruct (nearestEven_cases q) as [-> | ->];
      destruct (nearestEven_cases q') as [-> | ->]; lia.
Qed.

(** ** Rounding a magnitude *)

Lemma div_comp x y p : x == y -> x / p == y / p.
Proof. intros E. rewrite E. reflexivity. Qed.

Lemma ulpExponent_min x : (-1074 <= ulpExponent x)%Z.
Proof. apply Z.le_max_r. Qed.

Lemma ulpExponent_log x : (ilog2 x - 52 <= ulpExponent x)%Z.
Proof. apply Z.le_max_l. Qed.

Lemma ulpExponent_le x y : 0 < x -> x <= y -> (ulpExponent x <= ulpExponent y)%Z.
Proof.
  intros Hx Hxy. pose proof (ilog2_le x y Hx Hxy). unfold ulpExponent. lia.
Qed.

Lemma ulpExponent_comp x y : 0 < x -> x == y -> ulpExponent x = ulpExponent y.
Proof. intros Hx E. unfold ulpExponent. rewrite (ilog2_comp x y Hx E). reflexivity. Qed.

Lemma scaled_lt x : 0 < x -> x / 2 ^ ulpExponent x < 2 ^ 53.
Proof.
  intros Hx. destruct (ilog2_spec x Hx) as [_ S2].
  apply Qlt_shift_div_r; [ apply pow2_pos |].
  rewrite <- pow2_plus. apply Qlt_le_trans with (2 ^ (ilog2 x + 1)); [ exact S2 |].
  apply pow2_le. pose proof (ulpExponent_log x). lia.
Qed.

Lemma scaled_ge x :
  0 < x -> (-1074 < ulpExponent x)%Z -> 2 ^ 52 <= x / 2 ^ ulpExponent x.
Proof.
  intros Hx He. destruct (ilog2_spec x Hx) as [S1 _].
  apply Qle_shift_div_l; [ apply pow2_pos |].
  rewrite <- pow2_plus. apply Qle_trans with (2 ^ ilog2 x); [| exact S1 ].
  apply pow2_le. unfold ulpExponent in *. lia.
Qed.

Lemma roundMagnitude_zero x : x == 0 -> roundMagnitude x == 0.
Proof.
  intros E. unfold roundMagnitude.
  assert (E' : x / 2 ^ ulpExponent x == inject_Z 0)
    by (rewrite (div_comp x 0 _ E); reflexivity).
  rewrite (nearestEven_comp _ _ E'), nearestEven_Z. ring.
Qed.

Lemma mantissa_nonneg x e : 0 <= x -> (0 <= nearestEven (x / 2 ^ e))%Z.
Proof.
  intros Hx. rewrite <- (nearestEven_Z 0). apply nearestEven_le.
  apply Qle_shift_div_l; [ apply pow2_pos |]. rewrite Qmult_0_l. exact Hx.
Qed.

Lemma mantissa_le x : 0 < x -> (nearestEven (x / 2 ^ ulpExponent x) <= 2 ^ 53)%Z.
Proof.
  intros Hx. rewrite <- (nearestEven_Z (2 ^ 53)). apply nearestEven_le.
  rewrite pow2_inject by lia. apply Qlt_le_weak, scaled_lt, Hx.
Qed.

Lemma mantissa_ge x :
  0 < x -> (-1074 < ulpExponent x)%Z ->
  (2 ^ 52 <= nearestEven (x / 2 ^ ulpExponent x))%Z.
Proof.
  intros Hx He. rewrite <- (nearestEven_Z (2 ^ 52)). apply nearestEven_le.
  rewrite pow2_inject by lia. apply scaled_ge; assumption.
Qed.

Lemma roundMagnitude_nonneg x : 0 <= x -> 0 <= roundMagnitude x.
Proof.
  intros Hx. unfold roundMagnitude.
  apply Qmult_le_0_compat; [| apply Qlt_le_weak, pow2_pos ].
  change 0 with (inject_Z 0). rewrite <- Zle_Qle. apply mantissa_nonneg, Hx.
Qed.

Lemma roundMagnitude_comp x y : 0 <= x -> x == y -> roundMagnitude x == roundMagnitude y.
Proof.
  intros Hx E. destruct (Qlt_le_dec 0 x) as [Hpos | Hle].
  - unfold roundMagnitude. rewrite (ulpExponent_comp x y Hpos E).
    assert (E' : x / 2 ^ ulpExponent y == y / 2 ^ ulpExponent y) by (apply div_comp, E).
    rewrite (nearestEven_comp _ _ E'). reflexivity.
  - assert (E0 : x == 0) by (apply Qle_antisym; assumption).
    rewrite (roundMagnitude_zero x E0), (roundMagnitude_zero y); [ reflexivity |].
    rewrite <- E. exact E0.
Qed.

Lemma roundMagnitude_le x y : 0 <= x -> x <= y -> roundMagnitude x <= roundMagnitude y.
Proof.
  intros Hx Hxy. destruct (Qlt_le_dec 0 x) as [Hpos | Hle].
  2: { assert (E0 : x == 0) by (apply Qle_antisym; assumption).
       rewrite (roundMagnitude_zero x E0). apply roundMagnitude_nonneg.
       apply Qle_trans with x; assumption. }
  assert (Hy : 0 < y) by (apply Qlt_le_trans with x; assumption).
  pose proof (ulpExponent_le x y Hpos Hxy) as He.
  unfold roundMagnitude.
  destruct (Z.eq_dec (ulpExponent x) (ulpExponent y)) as [E | N].
  - rewrite E. apply Qmult_le_compat_r; [| apply Qlt_le_weak, pow2_pos ].
    rewrite <- Zle_Qle. apply nearestEven_le.
    apply Qmult_le_compat_r; [ exact Hxy |].
    apply Qlt_le_weak, Qinv_lt_0_compat, pow2_pos.
  - assert (Hlt : (ulpExponent x < ulpExponent y)%Z) by lia.
    pose proof (mantissa_le x Hpos) as Mx.
    pose proof (ulpExponent_min x) as Hmin.
    pose proof (mantissa_ge y Hy ltac:(lia)) as My.
    rewrite Zle_Qle in Mx, My. rewrite pow2_inject in Mx, My by lia.
    apply Qle_trans with (2 ^ 53 * 2 ^ ulpExponent x).
    { apply Qmult_le_compat_r; [ exact Mx | apply Qlt_le_weak, pow2_pos ]. }
    apply Qle_trans with (2 ^ 52 * 2 ^ ulpExponent y).
    { rewrite <- !pow2_plus. apply pow2_le. lia. }
    apply Qmult_le_compat_r; [ exact My | apply Qlt_le_weak, pow2_pos ].
Qed.

(** A number [m * 2 ^ k] of at most 53 bits above the least exponent is
    its own rounding. *)
Lemma roundMagnitude_representable m k :
  (0 < m <= 2 ^ 53)%Z -> (-1074 <= k)%Z ->
  roundMagnitude (inject_Z m * 2 ^ k) == inject_Z m * 2 ^ k.
Proof.
  intros [Hm0 Hm1] Hk.
  set (x := inject_Z m * 2 ^ k).
  destruct (Z.log2_spec m Hm0) as [L1 L2].
  pose proof (Z.log2_nonneg m) as L0.
  assert (Hlog : ilog2 x = (Z.log2 m + k)%Z).
  { apply ilog2_unique; unfold x.
    - rewrite pow2_plus. apply Qmult_le_compat_r; [| apply Qlt_le_weak, pow2_pos ].
      rewrite <- pow2_inject by lia. rewrite <- Zle_Qle. exact L1.
    - replace (Z.log2 m + k + 1)%Z with (Z.succ (Z.log2 m) + k)%Z by lia.
      rewrite pow2_plus. apply Qmult_lt_compat_r; [ apply pow2_pos |].
      rewrite <- pow2_inject by lia. rewrite <- Zlt_Qlt. exact L2. }
  unfold roundMagnitude. fold x.
  set (e := ulpExponent x).
  assert (He : e = Z.max (Z.log2 m + k - 52) (-1074)) by (unfold e, ulpExponent; rewrite Hlog; reflexivity).
  destruct (Z.le_gt_cases e k) as [Hek | Hke].
  - assert (E : x / 2 ^ e == inject_Z (m * 2 ^ (k - e))).
    { unfold x. rewrite inject_Z_mult, pow2_inject by lia.
      replace k with ((k - e) + e)%Z at 1 by lia. rewrite pow2_plus.
      field. apply pow2_nonzero. }
    rewrite (nearestEven_comp _ _ E), nearestEven_Z.
    rewrite inject_Z_mult, pow2_inject by lia. unfold x.
    replace k with ((k - e) + e)%Z at 2 by lia. rewrite pow2_plus. ring.
  - assert (Hl : (53 <= Z.log2 m)%Z) by lia.
    assert (Hm : m = (2 ^ 53)%Z).
    { assert (2 ^ 53 <= 2 ^ Z.log2 m)%Z by (apply Z.pow_le_mono_r; lia). lia. }
    assert (Ee : e = (k + 1)%Z).
    { rewrite He, Hm. change (Z.log2 (2 ^ 53)) with 53%Z. lia. }
    assert (E : x / 2 ^ e == inject_Z (2 ^ 52)).
    { unfold x. rewrite Ee, Hm, pow2_succ. rewrite !pow2_inject by lia.
      change (2 ^ 53) with (2 * 2 ^ 52). field. apply pow2_nonzero. }
    rewrite (nearestEven_comp _ _ E), nearestEven_Z.
    unfold x. rewrite Ee, Hm, pow2_succ. rewrite !pow2_inject by lia.
    change (2 ^ 53) with (2 * 2 ^ 52). ring.
Qed.

(** ** Rounding *)

Lemma round_eq x :
  round x == if Qle_bool 0 x then roundMagnitude x else - roundMagnitude (- x).
Proof. unfold round. apply Qred_correct. Qed.

Lemma round_nonneg x : 0 <= x -> round x == roundMagnitude x.
Proof.
  intros H. rewrite round_eq. apply Qle_bool_iff in H. rewrite H. reflexivity.
Qed.

Lemma round_neg x : x < 0 -> round x == - roundMagnitude (- x).
Proof.
  intros H. rewrite round_eq. destruct (Qle_bool 0 x) eqn:E; [| reflexivity ].
  apply Qle_bool_iff in E. exfalso. apply (Qlt_not_le _ _ H E).
Qed.

Lemma round_comp x y : x == y -> round x = round y.
Proof.
  intros E. unfold round. apply Qred_complete.
  destruct (Qle_bool 0 x) eqn:Hx.
  - assert (Hy : Qle_bool 0 y = true)
      by (apply Qle_bool_iff; rewrite <- E; apply Qle_bool_iff, Hx).
    rewrite Hy. apply roundMagnitude_comp; [ apply Qle_bool_iff, Hx | exact E ].
  - assert (Hy : Qle_bool 0 y = false).
    { destruct (Qle_bool 0 y) eqn:Hy; [| reflexivity ].
      apply Qle_bool_iff in Hy. rewrite <- E in Hy. apply Qle_bool_iff in Hy. congruence. }
    rewrite Hy.
    assert (Hneg : 0 <= - x).
    { destruct (Qlt_le_dec x 0) as [L | L]; [ lra |].
      apply Qle_bool_iff in L. congruence. }
    rewrite (roundMagnitude_comp (- x) (- y) Hneg); [ reflexivity |].
    rewrite E. reflexivity.
Qed.

Lemma round_le x y : x <= y -> round x <= round y.
Proof.
  intros H.
  destruct (Qlt_le_dec x 0) as [Hx | Hx]; destruct (Qlt_le_dec y 0) as [Hy | Hy].
  - rewrite (round_neg x Hx), (round_neg y Hy).
    apply Qopp_le_compat. apply roundMagnitude_le; lra.
  - rewrite (round_neg x Hx), (round_nonneg y Hy).
    pose proof (roundMagnitude_nonneg (- x) ltac:(lra)).
    pose proof (roundMagnitude_nonneg y Hy). lra.
  - exfalso. lra.
  - rewrite (round_nonneg x Hx), (round_nonneg y Hy).
    apply roundMagnitude_le; assumption.
Qed.

Lemma round_representable m k :
  (Z.abs m <= 2 ^ 53)%Z -> (-1074 <= k)%Z ->
  round (inject_Z m * 2 ^ k) == inject_Z m * 2 ^ k.
Proof.
  intros Hm Hk. pose proof (pow2_pos k) as Pk.
  destruct (Z.lt_trichotomy m 0) as [Hneg | [Hz | Hpos]].
  - assert (Hx : inject_Z m * 2 ^ k < 0).
    { assert (Hq : inject_Z m < 0) by (change 0 with (inject_Z 0); rewrite <- Zlt_Qlt; exact Hneg).
      set (M := inject_Z m) in *. set (P := 2 ^ k) in *. clearbody M P. nra. }
    rewrite (round_neg _ Hx).
    assert (E : - (inject_Z m * 2 ^ k) == inject_Z (- m) * 2 ^ k)
      by (rewrite inject_Z_opp; ring).
    assert (Hn : 0 <= - (inject_Z m * 2 ^ k)).
    { set (X := inject_Z m * 2 ^ k) in *. clearbody X. lra. }
    rewrite (roundMagnitude_comp _ _ Hn E).
    rewrite roundMagnitude_representable by lia.
    rewrite inject_Z_opp. ring.
  - subst m. rewrite round_nonneg by (rewrite Qmult_0_l; apply Qle_refl).
    rewrite roundMagnitude_zero by ring. ring.
  - assert (Hx : 0 <= inject_Z m * 2 ^ k).
    { assert (Hq : 0 < inject_Z m) by (change 0 with (inject_Z 0); rewrite <- Zlt_Qlt; exact Hpos).
      set (M := inject_Z m) in *. set (P := 2 ^ k) in *. clearbody M P. nra. }
    rewrite (round_nonneg _ Hx). apply roundMagnitude_representable; lia.
Qed.

Lemma roundMagnitude_shape x :
  0 <= x ->
  exists m k, (0 <= m <= 2 ^ 53)%Z /\ (-1074 <= k)%Z /\
              roundMagnitude x == inject_Z m * 2 ^ k.
Proof.
  intros Hx. exists (nearestEven (x / 2 ^ ulpExponent x)), (ulpExponent x).
  split; [| split; [ apply ulpExponent_min | reflexivity ] ].
  split; [ apply mantissa_nonneg, Hx |].
  destruct (Qlt_le_dec 0 x) as [Hpos | Hle]; [ apply mantissa_le, Hpos |].
  assert (E : x / 2 ^ ulpExponent x == inject_Z 0).
  { assert (E0 : x == 0) by (apply Qle_antisym; assumption).
    rewrite (div_comp x 0 _ E0). reflexivity. }
  rewrite (nearestEven_comp _ _ E), nearestEven_Z. lia.
Qed.

Lemma round_shape x :
  exists m k, (Z.abs m <= 2 ^ 53)%Z /\ (-1074 <= k)%Z /\ round x == inject_Z m * 2 ^ k.
Proof.
  destruct (Qlt_le_dec x 0) as [Hx | Hx].
  - destruct (roundMagnitude_shape (- x) ltac:(lra)) as [m [k [Hm [Hk E]]]].
    exists (- m)%Z, k. split; [ lia |]. split; [ exact Hk |].
    rewrite (round_neg x Hx), E, inject_Z_opp. ring.
  - destruct (roundMagnitude_shape x Hx) as [m [k [Hm [Hk E]]]].
    exists m, k. split; [ lia |]. split; [ exact Hk |].
    rewrite (round_nonneg x Hx). exact E.
Qed.

(** Rounding is idempotent: the result is a binary64 number. *)
Lemma round_isDouble x : isDouble (round x).
Proof.
  unfold isDouble. destruct (round_shape x) as [m [k [Hm [Hk E]]]].
  rewrite (round_comp _ _ E), E. apply round_representable; assumption.
Qed.

Lemma integer_isDouble n : (Z.abs n <= 2 ^ 53)%Z -> isDouble (inject_Z n).
Proof.
  intros Hn. unfold isDouble.
  assert (E : inject_Z n == inject_Z n * 2 ^ 0) by (change (2 ^ 0) with 1; ring).
  rewrite (round_comp _ _ E).
  rewrite (round_representable n 0 Hn ltac:(lia)). symmetry. exact E.
Qed.

Lemma round_between a b x : isDouble a -> isDouble b -> a <= x -> x <= b ->
  a <= round x /\ round x <= b.
Proof.
  intros Ha Hb H1 H2. unfold isDouble in *. split.
  - rewrite <- Ha. apply round_le, H1.
  - rewrite <- Hb. apply round_le, H2.
Qed.

End Binary64Facts.

(* ===================================================================== *)
(** * Properties of the lip sync engine                                   *)
(* ===================================================================== *)

Module LipSyncFacts.

Import Binary64.
Import Binary64Facts.
Import LipSync.
Local Open Scope Q_scope.

Lemma Qltb_lt a b : Qltb a b = true <-> a < b.
Proof.
  unfold Qltb. rewrite negb_true_iff. split.
  - intros H. apply Qnot_le_lt. intros Hle.
    apply Qle_bool_iff in Hle. congruence.
  - intros H. destruct (Qle_bool b a) eqn:E; [| reflexivity ].
    apply Qle_bool_iff in E. exfalso. apply (Qlt_not_le _ _ H E).
Qed.

Lemma Qgtb_lt a b : Qgtb a b = true <-> b < a.
Proof. apply (Qltb_lt b a). Qed.

Lemma Qltb_reflect a b : reflect (a < b) (Qltb a b).
Proof. apply iff_reflect. symmetry. apply Qltb_lt. Qed.

Lemma Qgtb_reflect a b : reflect (b < a) (Qgtb a b).
Proof. apply (Qltb_reflect b a). Qed.

(** The chain of [if]s of the code is the first match in the rule list
    of the specification. *)
Lemma mapToVisemes_classify low mid high volume :
  mapToVisemes low mid high volume
  = poseWeights (classify low mid high volume) volume.
Proof.
  unfold mapToVisemes, classify, rules. cbn [firstMatch].
  destruct (Qltb volume _); [ reflexivity |].
  destruct (Qgtb high _); [ reflexivity |].
  destruct (Qgtb low _); [ reflexivity |].
  destruct (Qgtb mid _ && Qgtb volume _); [ reflexivity |].
  destruct (Qgtb mid _ && Qgtb high _); [ reflexivity |].
  destruct (Qgtb low _ && Qgtb mid _); reflexivity.
Qed.

Lemma getCurrentViseme_live bins e a :
  analyser e = Some a ->
  getCurrentViseme bins e
  = ({| analyser := Some a; dataArray := bins;
        smoothingFactor := smoothingFactor e;
        previousWeights := smoothWeights e (classified a bins) |},
     smoothWeights e (classified a bins)).
Proof.
  intros Ha. unfold getCurrentViseme, classified, getFrequencyBand, getOverallVolume.
  rewrite Ha. reflexivity.
Qed.

(** ** C8 *)

(** C8.  A poll of a live engine classifies the analysis window it
    reads: it returns, and stores, the smoothing of the one weight set
    that [mapToVisemes] gives for the three band energies (0 to 300 Hz,
    300 to 2000 Hz, 2000 to 8000 Hz) and the overall volume of that
    window.  The classification checks the fixed thresholds in priority
    order, the first match winning: volume < 0.1 gives the silence pose
    (jawOpen 0, mouthClose 1); otherwise high > 0.6 the sibilant pose;
    otherwise low > 0.7 the open-vowel pose; otherwise mid > 0.5 and
    volume > 0.3 the closed-consonant pose; otherwise mid > 0.4 and
    high > 0.3 the mid-vowel pose; otherwise low > 0.4 and mid > 0.3 the
    rounded-vowel pose; otherwise the neutral pose scaled by volume.
    Each threshold is the binary64 number its literal denotes. *)
Theorem classification_by_priority (low mid high volume : Q) :
  let r := mapToVisemes low mid high volume in
  r = poseWeights (classify low mid high volume) volume /\
  silencePose !! "jawOpen"%string = Some 0 /\
  silencePose !! "mouthClose"%string = Some 1 /\
  neutralPose volume !! "jawOpen"%string = Some (mul (literal 0.3) volume) /\
  neutralPose volume !! "mouthOpen"%string = Some (mul (literal 0.2) volume) /\
  (forall bins e a,
     analyser e = Some a ->
     let window := {| analyser := Some a; dataArray := bins;
                      smoothingFactor := smoothingFactor e;
                      previousWeights := previousWeights e |} in
     let weights :=
       mapToVisemes (getFrequencyBand window 0 300) (getFrequencyBand window 300 2000)
                    (getFrequencyBand window 2000 8000) (getOverallVolume window) in
     snd (getCurrentViseme bins e) = smoothWeights e weights /\
     previousWeights (fst (getCurrentViseme bins e)) = smoothWeights e weights /\
     dataArray (fst (getCurrentViseme bins e)) = bins) /\
  (volume < literal 0.1 -> r = silencePose) /\
  (~ volume < literal 0.1 ->
   (literal 0.6 < high -> r = sibilantPose) /\
   (~ literal 0.6 < high ->
    (literal 0.7 < low -> r = openVowelPose) /\
    (~ literal 0.7 < low ->
     (literal 0.5 < mid /\ literal 0.3 < volume -> r = closedConsonantPose) /\
     (~ (literal 0.5 < mid /\ literal 0.3 < volume) ->
      (literal 0.4 < mid /\ literal 0.3 < high -> r = midVowelPose) /\
      (~ (literal 0.4 < mid /\ literal 0.3 < high) ->
       (literal 0.4 < low /\ literal 0.3 < mid -> r = roundedVowelPose) /\
       (~ (literal 0.4 < low /\ literal 0.3 < mid) -> r = neutralPose volume)))))).
Proof.
  intros r. split; [ apply mapToVisemes_classify |].
  do 4 (split; [ reflexivity |]).
  split.
  { intros bins e a Ha window weights.
    rewrite (getCurrentViseme_live bins e a Ha). repeat split. }
  subst r. unfold mapToVisemes.
  destruct (Qltb_reflect volume (literal 0.1)) as [H1 | H1];
    [ split; [ reflexivity | contradiction ] | split; [ contradiction | intros _ ] ].
  destruct (Qgtb_reflect high (literal 0.6)) as [H2 | H2];
    [ split; [ reflexivity | contradiction ] | split; [ contradiction | intros _ ] ].
  destruct (Qgtb_reflect low (literal 0.7)) as [H3 | H3];
    [ split; [ reflexivity | contradiction ] | split; [ contradiction | intros _ ] ].
  destruct (Qgtb_reflect mid (literal 0.5)) as [H4 | H4];
    destruct (Qgtb_reflect volume (literal 0.3)) as [H4' | H4']; cbn [andb];
    try (split; [ reflexivity | tauto ]);
    (split; [ tauto | intros _ ]).
  all: destruct (Qgtb_reflect mid (literal 0.4)) as [H5 | H5];
    destruct (Qgtb_reflect high (literal 0.3)) as [H5' | H5']; cbn [andb];
    try (split; [ reflexivity | tauto ]);
    (split; [ tauto | intros _ ]).
  all: destruct (Qgtb_reflect low (literal 0.4)) as [H6 | H6];
    destruct (Qgtb_reflect mid (literal 0.3)) as [H6' | H6']; cbn [andb];
    try (split; [ reflexivity | tauto ]);
    (split; [ tauto | intros _; reflexivity ]).
Qed.

(** A poll of a new engine at 24000 Hz on the window whose high band is
    at 0.6 throughout, a band energy of 0.6000000000000008 once summed
    and divided in binary64, and one on the silent window. *)
Lemma classification_by_priority_witness :
  snd (getCurrentViseme hissWindow (new 24000))
  = smoothWeights (new 24000) sibilantPose /\
  snd (getCurrentViseme silentWindow (new 24000))
  = smoothWeights (new 24000) silencePose.
Proof.
  split.
  - set (w := {| analyser := Some (mkAnalyser 24000); dataArray := hissWindow;
                 smoothingFactor := smoothingFactor (new 24000);
                 previousWeights := previousWeights (new 24000) |}).
    pose proof (classification_by_priority
                  (getFrequencyBand w 0 300) (getFrequencyBand w 300 2000)
                  (getFrequencyBand w 2000 8000) (getOverallVolume w)) as H.
    cbv zeta in H. destruct H as [_ [_ [_ [_ [_ [Hpoll [_ H]]]]]]].
    destruct (Hpoll hissWindow (new 24000) (mkAnalyser 24000) eq_refl) as [H0 _].
    rewrite H0. apply (f_equal (smoothWeights (new 24000))).
    assert (N1 : ~ getOverallVolume w < literal 0.1)
      by (intros C; vm_compute in C; discriminate C).
    destruct (H N1) as [H2 _]. apply H2. vm_compute. reflexivity.
  - set (w := {| analyser := Some (mkAnalyser 24000); dataArray := silentWindow;
                 smoothingFactor := smoothingFactor (new 24000);
                 previousWeights := previousWeights (new 24000) |}).
    pose proof (classification_by_priority
                  (getFrequencyBand w 0 300) (getFrequencyBand w 300 2000)
                  (getFrequencyBand w 2000 8000) (getOverallVolume w)) as H.
    cbv zeta in H. destruct H as [_ [_ [_ [_ [_ [Hpoll [H _]]]]]]].
    destruct (Hpoll silentWindow (new 24000) (mkAnalyser 24000) eq_refl) as [H0 _].
    rewrite H0. apply (f_equal (smoothWeights (new 24000))).
    apply H. vm_compute. reflexivity.
Defined.

(** ** Clamping *)

Lemma clamp01_range x : 0 <= clamp01 x /\ clamp01 x <= 1.
Proof.
  unfold clamp01. split.
  - apply Q.le_max_l.
  - apply Q.max_lub; [ discriminate |]. apply Q.le_min_l.
Qed.

Lemma clamp01_id x : 0 <= x -> x <= 1 -> clamp01 x == x.
Proof.
  intros H0 H1. unfold clamp01.
  rewrite (Q.min_r 1 x H1). apply (Q.max_r 0 x H0).
Qed.

Lemma clamp01_low x : x <= 0 -> clamp01 x == 0.
Proof.
  intros H. unfold clamp01. apply Q.max_l.
  apply Qle_trans with x; [ apply Q.le_min_r | exact H ].
Qed.

Lemma clamp01_high x : 1 <= x -> clamp01 x == 1.
Proof.
  intros H. unfold clamp01. rewrite (Q.min_l 1 x H). apply Q.max_r. discriminate.
Qed.

Lemma clamp01_mono x y : x <= y -> clamp01 x <= clamp01 y.
Proof.
  intros H. unfold clamp01.
  apply Q.max_le_compat_l. apply Q.min_le_compat_l. exact H.
Qed.

Lemma clamp01_le x : 0 <= x -> clamp01 x <= x.
Proof.
  intros H. unfold clamp01. apply Q.max_lub; [ exact H | apply Q.le_min_r ].
Qed.

Lemma clamp01_ge x : x <= 1 -> x <= clamp01 x.
Proof.
  intros H. unfold clamp01.
  apply Qle_trans with (Qmin 1 x); [ apply Q.min_glb; [ exact H | apply Qle_refl ] |].
  apply Q.le_max_r.
Qed.

Lemma isDouble_comp x y : x == y -> isDouble x -> isDouble y.
Proof.
  unfold isDouble. intros E H. rewrite <- (round_comp x y E), H. exact E.
Qed.

Lemma isDouble_0 : isDouble 0.
Proof. reflexivity. Qed.

Lemma isDouble_1 : isDouble 1.
Proof. reflexivity. Qed.

(** Clamping a binary64 number gives a binary64 number. *)
Lemma clamp01_isDouble x : isDouble x -> isDouble (clamp01 x).
Proof.
  intros Hx.
  destruct (Qlt_le_dec x 0) as [L | L].
  { apply (isDouble_comp 0); [| exact isDouble_0 ].
    symmetry. apply clamp01_low. lra. }
  destruct (Qlt_le_dec 1 x) as [G | G].
  { apply (isDouble_comp 1); [| exact isDouble_1 ].
    symmetry. apply clamp01_high. lra. }
  apply (isDouble_comp x); [| exact Hx ].
  symmetry. apply clamp01_id; assumption.
Qed.

(** ** One step of smoothing in binary64 arithmetic

    The step never moves a weight away from the target, and never
    further than a factor of 1 would. *)

Lemma sub_sign t v : (v <= t -> 0 <= sub t v) /\ (t <= v -> sub t v <= 0).
Proof.
  unfold sub. split; intros H.
  - change 0 with (round 0). apply round_le. lra.
  - change 0 with (round 0). apply round_le. lra.
Qed.

Lemma lerp_up v t f :
  0 <= f -> f <= 1 -> 0 <= v -> v <= 1 -> isDouble v -> v <= t ->
  v <= clamp01 (add v (mul (sub t v) f)) /\
  clamp01 (add v (mul (sub t v) f)) <= clamp01 (add v (sub t v)).
Proof.
  intros Hf0 Hf1 Hv0 Hv1 Hd Hvt.
  destruct (sub_sign t v) as [Hs _]. specialize (Hs Hvt).
  pose proof (round_isDouble (t - v)) as Hdd. fold (sub t v) in Hdd.
  set (d := sub t v) in *. clearbody d.
  assert (Hp0 : 0 <= mul d f).
  { unfold mul. change 0 with (round 0). apply round_le. nra. }
  assert (Hp1 : mul d f <= d).
  { unfold mul. unfold isDouble in Hdd. rewrite <- Hdd at 2. apply round_le. nra. }
  set (p := mul d f) in *. clearbody p.
  assert (Hlo : v <= add v p).
  { unfold add. unfold isDouble in Hd. rewrite <- Hd at 1. apply round_le. lra. }
  assert (Hhi : add v p <= add v d) by (unfold add; apply round_le; lra).
  split.
  - apply Qle_trans with (clamp01 v); [ apply clamp01_ge; exact Hv1 |].
    apply clamp01_mono. exact Hlo.
  - apply clamp01_mono. exact Hhi.
Qed.

Lemma lerp_down v t f :
  0 <= f -> f <= 1 -> 0 <= v -> v <= 1 -> isDouble v -> t <= v ->
  clamp01 (add v (sub t v)) <= clamp01 (add v (mul (sub t v) f)) /\
  clamp01 (add v (mul (sub t v) f)) <= v.
Proof.
  intros Hf0 Hf1 Hv0 Hv1 Hd Htv.
  destruct (sub_sign t v) as [_ Hs]. specialize (Hs Htv).
  pose proof (round_isDouble (t - v)) as Hdd. fold (sub t v) in Hdd.
  set (d := sub t v) in *. clearbody d.
  assert (Hp0 : mul d f <= 0).
  { unfold mul. change 0 with (round 0). apply round_le. nra. }
  assert (Hp1 : d <= mul d f).
  { unfold mul. unfold isDouble in Hdd. rewrite <- Hdd at 1. apply round_le. nra. }
  set (p := mul d f) in *. clearbody p.
  assert (Hhi : add v p <= v).
  { unfold add. unfold isDouble in Hd. rewrite <- Hd at 2. apply round_le. lra. }
  assert (Hlo : add v d <= add v p) by (unfold add; apply round_le; lra).
  split.
  - apply clamp01_mono. exact Hlo.
  - apply Qle_trans with (clamp01 v); [ apply clamp01_mono; exact Hhi |].
    apply clamp01_le. exact Hv0.
Qed.

Lemma lookup_smoothWeights e (newWeights : gmap string Q) (key : string) :
  smoothWeights e newWeights !! key
  = if decide (key ∈ dom (previousWeights e) ∪ dom newWeights)
    then Some (smoothed (smoothingFactor e) (previousWeights e) newWeights key)
    else None.
Proof.
  unfold smoothWeights.
  destruct (decide (key ∈ dom (previousWeights e) ∪ dom newWeights)) as [Hin | Hout].
  - apply lookup_set_to_map; [ intros y y' _ _ Hy; exact Hy |].
    exists key. split; [ exact Hin | reflexivity ].
  - apply eq_None_not_Some. intros [x Hx].
    apply lookup_set_to_map in Hx; [| intros y y' _ _ Hy; exact Hy ].
    destruct Hx as [y [Hy Hf]]. inversion Hf; subst. contradiction.
Qed.

Lemma weightOf_absent (w : gmap string Q) (key : string) :
  key ∉ dom w -> weightOf w key = 0.
Proof.
  intros H. unfold weightOf. rewrite (not_elem_of_dom_1 w key H). reflexivity.
Qed.

(** With neither an old nor a new value the step computes 0. *)
Lemma smoothed_absent f : clamp01 (add 0 (mul (sub 0 0) f)) == 0.
Proof.
  assert (E : mul (sub 0 0) f = 0).
  { unfold mul. change (sub 0 0) with 0.
    rewrite (round_comp (0 * f) 0) by ring. reflexivity. }
  rewrite E. reflexivity.
Qed.

Lemma weightOf_smoothWeights e (newWeights : gmap string Q) (key : string) :
  weightOf (smoothWeights e newWeights) key
  == smoothed (smoothingFactor e) (previousWeights e) newWeights key.
Proof.
  unfold weightOf at 1. rewrite lookup_smoothWeights.
  destruct (decide (key ∈ dom (previousWeights e) ∪ dom newWeights)) as [Hin | Hout].
  - reflexivity.
  - apply not_elem_of_union in Hout. destruct Hout as [Hp Hn].
    unfold smoothed.
    rewrite (not_elem_of_dom_1 _ _ Hp), (not_elem_of_dom_1 _ _ Hn). simpl.
    symmetry. apply smoothed_absent.
Qed.

Lemma smoothed_isDouble f previous newWeights key :
  isDouble (smoothed f previous newWeights key).
Proof. unfold smoothed. apply clamp01_isDouble, round_isDouble. Qed.

Lemma poll_wellFormed bins e : wellFormed e -> wellFormed (fst (getCurrentViseme bins e)).
Proof.
  intros [Hf Hw].
  destruct (analyser e) as [a |] eqn:Ha.
  - rewrite (getCurrentViseme_live bins e a Ha).
    split; [ exact Hf |]. intros key.
    cbn [fst previousWeights].
    pose proof (weightOf_smoothWeights e (classified a bins) key) as E.
    split.
    + rewrite E. apply clamp01_range.
    + apply (isDouble_comp _ _ (Qeq_sym _ _ E)), smoothed_isDouble.
  - unfold getCurrentViseme. rewrite Ha. split; assumption.
Qed.

Lemma reachable_wellFormed e : reachable e -> wellFormed e.
Proof.
  induction 1 as [sr | bins e _ IH | factor e _ IH | e _ IH].
  - split; [ split; vm_compute; discriminate |].
    intros key. unfold weightOf. simpl. rewrite lookup_empty. simpl.
    split; [ split; discriminate | exact isDouble_0 ].
  - apply poll_wellFormed, IH.
  - destruct IH as [_ Hw]. split; [ apply clamp01_range | exact Hw ].
  - exact IH.
Qed.

Lemma poll_weight bins e a key :
  analyser e = Some a ->
  let e' := fst (getCurrentViseme bins e) in
  analyser e' = Some a /\ smoothingFactor e' = smoothingFactor e /\
  weightOf (previousWeights e') key
  == clamp01 (add (weightOf (previousWeights e) key)
                (mul (sub (weightOf (classified a bins) key)
                          (weightOf (previousWeights e) key))
                     (smoothingFactor e))).
Proof.
  intros Ha. rewrite (getCurrentViseme_live bins e a Ha). simpl.
  split; [ reflexivity |]. split; [ reflexivity |].
  apply weightOf_smoothWeights.
Qed.

Lemma polls_frame bins a n :
  forall e, wellFormed e -> analyser e = Some a ->
    wellFormed (polls n bins e) /\ analyser (polls n bins e) = Some a /\
    smoothingFactor (polls n bins e) = smoothingFactor e.
Proof.
  induction n as [| n IH]; intros e Hwf Ha; [ auto |].
  cbn [polls].
  destruct (poll_weight bins e a "" Ha) as [Ha' [Hf _]].
  destruct (IH _ (poll_wellFormed bins e Hwf) Ha') as [I1 [I2 I3]].
  split; [ exact I1 |]. split; [ exact I2 |]. rewrite I3. exact Hf.
Qed.

Lemma polls_succ n bins e :
  polls (S n) bins e = fst (getCurrentViseme bins (polls n bins e)).
Proof.
  revert e. induction n as [| n IH]; intros e; [ reflexivity |].
  cbn [polls] in *. apply IH.
Qed.

(** Repeated polls over the same bins: each poll moves a weight in the
    direction of the classified target or leaves it, not further than a
    factor of 1 would, and the weight stays in [0,1]. *)
Lemma polls_directed bins a key n e :
  wellFormed e -> analyser e = Some a ->
  let t := weightOf (classified a bins) key in
  let v k := weightOf (previousWeights (polls k bins e)) key in
  let full := clamp01 (add (v n) (sub t (v n))) in
  v (S n) == clamp01 (add (v n) (mul (sub t (v n)) (smoothingFactor e))) /\
  (v n <= t -> v n <= v (S n) /\ v (S n) <= full) /\
  (t <= v n -> full <= v (S n) /\ v (S n) <= v n) /\
  (0 <= v (S n) /\ v (S n) <= 1).
Proof.
  intros Hwf Ha t v full.
  destruct (polls_frame bins a n e Hwf Ha) as [Hwf' [Ha' Hf']].
  destruct (poll_weight bins (polls n bins e) a key Ha') as [_ [_ Hstep]].
  rewrite <- polls_succ, Hf' in Hstep. fold t in Hstep.
  change (v (S n) == clamp01 (add (v n) (mul (sub t (v n)) (smoothingFactor e))))
    in Hstep.
  destruct Hwf as [[Hf0 Hf1] _]. destruct Hwf' as [_ Hw].
  destruct (Hw key) as [[Hv0 Hv1] Hd]. fold (v n) in Hv0, Hv1, Hd.
  split; [ exact Hstep |].
  split; [ intros Hle; rewrite Hstep; apply lerp_up; assumption |].
  split; [ intros Hge; rewrite Hstep; apply lerp_down; assumption |].
  rewrite Hstep. apply clamp01_range.
Qed.

(** ** C9 *)




End LipSyncFacts.

(* ===================================================================== *)
(** * Properties of the voice coordinator                                 *)
(* ===================================================================== *)

Module VoiceCoordinatorFacts.

Import ConversationState.
Import ConversationStateFacts.
Import VoiceCoordinator.

(** ** Transitions requested by the coordinator *)

Lemma smTransition_valid to_ now c :
  isValidTransition (state (stateMachine c)) to_ = true ->
  smTransition to_ now c
  = set_observed
      (deliver (onStateChange (callbacks c))
         (OnStateChange (state (stateMachine c))) (observed c))
      (set_stateMachine
         {| state := to_;
            history := pushHistory (history (stateMachine c))
                         (mkTransition (state (stateMachine c)) to_ now None) |} c).
Proof.
  intros Hv. unfold smTransition, transition. rewrite Hv. simpl.
  destruct to_; reflexivity.
Qed.

Lemma smTransition_invalid to_ now c :
  isValidTransition (state (stateMachine c)) to_ = false ->
  smTransition to_ now c = c.
Proof.
  intros Hv. unfold smTransition, transition. rewrite Hv. simpl.
  destruct c; reflexivity.
Qed.

Lemma smTransition_state to_ now c :
  getCurrentState (smTransition to_ now c)
  = if isValidTransition (getCurrentState c) to_ then to_ else getCurrentState c.
Proof.
  unfold getCurrentState, getState.
  destruct (isValidTransition (state (stateMachine c)) to_) eqn:Hv.
  - rewrite (smTransition_valid to_ now c Hv). reflexivity.
  - rewrite (smTransition_invalid to_ now c Hv). reflexivity.
Qed.

(** Whatever the state, a request for LISTENING leaves the machine in
    LISTENING: the request is allowed from every other state. *)
Lemma smTransition_listening now c :
  getCurrentState (smTransition LISTENING now c) = LISTENING.
Proof.
  rewrite smTransition_state. destruct (getCurrentState c); reflexivity.
Qed.

Lemma errors_deliver registered n log :
  isError n = false ->
  List.filter isError (deliver registered n log) = List.filter isError log.
Proof.
  intros Hn. unfold deliver. destruct registered; [| reflexivity ].
  rewrite List.filter_app. simpl. rewrite Hn. apply app_nil_r.
Qed.

Lemma smTransition_frame to_ now c : sameButMachine c (smTransition to_ now c).
Proof.
  destruct (isValidTransition (state (stateMachine c)) to_) eqn:Hv.
  - rewrite (smTransition_valid to_ now c Hv). unfold sameButMachine, errors. simpl.
    rewrite errors_deliver by reflexivity. repeat split.
  - rewrite (smTransition_invalid to_ now c Hv). repeat split.
Qed.

Lemma smTransition_errors to_ now c : errors (smTransition to_ now c) = errors c.
Proof. apply smTransition_frame. Qed.

Lemma smTransition_callbacks to_ now c : callbacks (smTransition to_ now c) = callbacks c.
Proof. apply smTransition_frame. Qed.

Lemma notify_errors_other registered n c :
  isError n = false -> errors (notify registered n c) = errors c.
Proof. intros Hn. unfold errors, notify. simpl. now apply errors_deliver. Qed.

Lemma notify_error message c :
  errors (notify true (OnError message) c) = errors c ++ [OnError message].
Proof. unfold errors, notify. simpl. now rewrite List.filter_app. Qed.

Lemma notify_error_unregistered message c :
  errors (notify false (OnError message) c) = errors c.
Proof. reflexivity. Qed.

(** The detector the constructor builds has no callback, and
    [handleTranscript] passes it on without one: [handleBargeIn] is
    reached only by whoever calls it. *)
Lemma detector_callback_unset cfg cbs text isFinal now :
  BargeIn.onBargeIn (bargeInDetector (new cfg cbs)) = None /\
  forall c,
    BargeIn.onBargeIn (bargeInDetector c) = None ->
    BargeIn.onBargeIn (bargeInDetector (fst (handleTranscript text isFinal now c))) = None /\
    timers (fst (handleTranscript text isFinal now c)) = timers c.
Proof.
  split; [ reflexivity |]. intros c Hc.
  unfold handleTranscript, processUserInput.
  set (c1 := notify (onTranscript (callbacks c)) (OnTranscript text isFinal) c).
  assert (H1 : BargeIn.onBargeIn (bargeInDetector c1) = None) by exact Hc.
  set (c2 := if state_eqb (getState (stateMachine c1)) SPEAKING
             then set_bargeInDetector
                    (fst (BargeIn.processTranscript text isFinal now now
                            (bargeInDetector c1) tt)) c1
             else c1).
  assert (H2 : BargeIn.onBargeIn (bargeInDetector c2) = None /\ timers c2 = timers c).
  { subst c2. destruct (state_eqb _ _); [| split; [ exact H1 | reflexivity ] ].
    split; [| reflexivity ].
    cbn [bargeInDetector set_bargeInDetector].
    unfold BargeIn.processTranscript. destruct isFinal; simpl; [ exact H1 |].
    destruct (_ <=? _); simpl; [| exact H1 ].
    unfold BargeIn.triggerBargeIn. simpl.
    destruct (_ <? _); simpl; exact H1. }
  destruct H2 as [H2 H3].
  destruct (isFinal && _); simpl; [| split; assumption ].
  destruct (smTransition_frame THINKING now c2) as [_ [_ [_ [F _]]]].
  split; [| congruence ].
  destruct (isValidTransition (state (stateMachine c2)) THINKING) eqn:Hv.
  - rewrite (smTransition_valid THINKING now c2 Hv). exact H2.
  - rewrite (smTransition_invalid THINKING now c2 Hv). exact H2.
Qed.

(** ** C10 *)

(** C10.  On every successful transition requested through the
    coordinator, the coordinator's [onStateChange] observer is called
    with the state that is left: the function registered with the
    machine is called with (from, to, reason) and hands on its first
    argument.  The state entered is always a different one. *)
Theorem observer_receives_left_state (c : VoiceCoordinator)
    (to_ : ConversationState) (now : Z) :
  isValidTransition (getCurrentState c) to_ = true ->
  let from_ := getCurrentState c in
  let c' := smTransition to_ now c in
  getCurrentState c' = to_ /\
  from_ <> to_ /\
  (exists f,
     ConversationState.onStateChange (machineCallbacks (callbacks c)) = Some f /\
     forall a b r log,
       f a b r log = deliver (onStateChange (callbacks c)) (OnStateChange a) log) /\
  (onStateChange (callbacks c) = true ->
   observed c' = observed c ++ [OnStateChange from_]) /\
  (onStateChange (callbacks c) = false -> observed c' = observed c).
Proof.
  intros Hv from_ c'. subst c'.
  unfold getCurrentState, getState in *.
  rewrite (smTransition_valid to_ now c Hv). simpl.
  split; [ reflexivity |].
  split; [ intros E; subst from_; rewrite E, isValidTransition_irrefl in Hv;
           discriminate Hv |].
  split; [ eexists; split; [ reflexivity | reflexivity ] |].
  split; intros Hr; rewrite Hr; reflexivity.
Qed.

Lemma observer_receives_left_state_witness :
  let c := new suppliedContext allObservers in
  getCurrentState c = IDLE /\
  getCurrentState (smTransition LISTENING 5 c) = LISTENING /\
  observed (smTransition LISTENING 5 c) = [OnStateChange IDLE].
Proof.
  intros c.
  pose proof (observer_receives_left_state c LISTENING 5 eq_refl) as H.
  destruct H as [H1 [_ [_ [H2 _]]]].
  split; [ reflexivity |]. split; [ exact H1 | apply (H2 eq_refl) ].
Defined.

(** ** What the handlers keep *)

Lemma keeps_refl c : keeps c c.
Proof. split; reflexivity. Qed.

Lemma keeps_trans c1 c2 c3 : keeps c1 c2 -> keeps c2 c3 -> keeps c1 c3.
Proof. intros [E1 C1] [E2 C2]. split; congruence. Qed.

Lemma keeps_smTransition to_ now c : keeps c (smTransition to_ now c).
Proof. split; apply smTransition_frame. Qed.

Lemma keeps_notify registered n c : isError n = false -> keeps c (notify registered n c).
Proof. intros Hn. split; [ now apply notify_errors_other | reflexivity ]. Qed.

Lemma keeps_stopAudioPlayback c : keeps c (stopAudioPlayback c).
Proof.
  unfold stopAudioPlayback.
  destruct (currentEventSource c); simpl; destruct (currentSourceNode c);
    split; reflexivity.
Qed.

Lemma keeps_playNextInQueue c : keeps c (playNextInQueue c).
Proof.
  unfold playNextInQueue.
  destruct (audioQueue c); [ split; reflexivity |].
  destruct (audioContext c); simpl; [| split; reflexivity ].
  destruct (getLipSyncEngine (callbacks c)); split; reflexivity.
Qed.

Lemma keeps_onended c : keeps c (onended c).
Proof.
  unfold onended.
  apply keeps_trans with (set_currentSourceNode None c);
    [ split; reflexivity | apply keeps_playNextInQueue ].
Qed.

Lemma keeps_afterGrace now c : keeps c (afterGrace now c).
Proof.
  unfold afterGrace.
  destruct (state_eqb _ _); [ apply keeps_smTransition | apply keeps_refl ].
Qed.

Lemma keeps_handleBargeIn now c : keeps c (handleBargeIn now c).
Proof.
  unfold handleBargeIn.
  apply keeps_trans with (stopAudioPlayback c); [ apply keeps_stopAudioPlayback |].
  apply keeps_trans with (smTransition BARGE_IN now (stopAudioPlayback c));
    [ apply keeps_smTransition | split; reflexivity ].
Qed.

Lemma keeps_fireTimer now c : keeps c (fireTimer now c).
Proof.
  unfold fireTimer. destruct (timers c) as [| due rest]; [ apply keeps_refl |].
  destruct (due <=? now)%Z; [| apply keeps_refl ].
  apply keeps_trans with (set_timers rest c);
    [ split; reflexivity | apply keeps_afterGrace ].
Qed.

Lemma keeps_stop now c : keeps c (stop now c).
Proof.
  unfold stop.
  set (c1 := if stt c then set_stt false (act SttStop c) else c).
  assert (K1 : keeps c c1) by (subst c1; destruct (stt c); split; reflexivity).
  set (c2 := stopAudioPlayback c1).
  assert (K2 : keeps c1 c2) by apply keeps_stopAudioPlayback.
  set (c3 := if audioContext c2 && negb (config_audioContext (config c2))
             then set_audioContext false (act ContextClose c2) else c2).
  assert (K3 : keeps c2 c3)
    by (subst c3; destruct (audioContext c2 && _); split; reflexivity).
  apply keeps_trans with c3; [| apply keeps_smTransition ].
  apply keeps_trans with c2; [| exact K3 ].
  apply keeps_trans with c1; assumption.
Qed.

Section Turns.

Variable JSON_parse : string -> option string.
Variable decodeAudioData : string -> option AudioBuffer.

Lemma keeps_playAudioChunk a c : keeps c (playAudioChunk decodeAudioData a c).
Proof.
  unfold playAudioChunk.
  destruct (audioContext c); simpl; [| apply keeps_refl ].
  destruct (decodeAudioData a) as [b |]; [| apply keeps_refl ].
  destruct (isPlaying c); simpl; [ split; reflexivity |].
  apply keeps_trans with (set_audioQueue (audioQueue c ++ [b]) c);
    [ split; reflexivity | apply keeps_playNextInQueue ].
Qed.

Lemma keeps_forLines lines now :
  forall c, keeps c (fst (forLines JSON_parse decodeAudioData lines now c)).
Proof.
  induction lines as [| line rest IH]; intros c; simpl; [ apply keeps_refl |].
  destruct (JsString.startsWith line "data: "); [| apply IH ].
  destruct (String.eqb _ _); simpl.
  - eapply keeps_trans; [| apply keeps_smTransition ].
    now apply keeps_notify.
  - destruct (JSON_parse _) as [a |]; [| apply IH ].
    eapply keeps_trans; [| apply IH ].
    eapply keeps_trans; [| apply keeps_playAudioChunk ].
    now apply keeps_notify.
Qed.

Lemma keeps_speakResponse text now c : keeps c (fst (speakResponse text now c)).
Proof.
  unfold speakResponse. destruct (_ || _); simpl.
  - apply keeps_smTransition.
  - eapply keeps_trans; [ apply keeps_smTransition | now apply keeps_notify ].
Qed.

(** An event at which no call fails reports no error. *)
Lemma keeps_step ev now c t :
  failure ev t = None ->
  keeps c (fst (step JSON_parse decodeAudioData ev now (c, t))).
Proof.
  intros Hf. unfold step.
  destruct ev as [o | o | o | | | |]; destruct t; simpl;
    try apply keeps_refl; try apply keeps_handleBargeIn; try apply keeps_stop;
    try apply keeps_fireTimer; try apply keeps_onended.
  - destruct o as [m | st | [e |] text id]; simpl in Hf; try discriminate Hf;
      unfold resumeChat.
    + destruct (JsString.truthy e); [ discriminate Hf |].
      eapply keeps_trans; [| apply keeps_speakResponse ].
      apply keeps_trans with (set_conversationId id c); [ split; reflexivity |].
      now apply keeps_notify.
    + eapply keeps_trans; [| apply keeps_speakResponse ].
      apply keeps_trans with (set_conversationId id c); [ split; reflexivity |].
      now apply keeps_notify.
  - destruct o; simpl in Hf; try discriminate Hf. apply keeps_refl.
  - destruct o; simpl in Hf; try discriminate Hf.
    + apply keeps_refl.
    + apply keeps_forLines.
Qed.

Lemma stopAudioPlayback_machine c : stateMachine (stopAudioPlayback c) = stateMachine c.
Proof.
  unfold stopAudioPlayback.
  destruct (currentEventSource c); simpl; destruct (currentSourceNode c); reflexivity.
Qed.

Lemma stop_state now c : getCurrentState (stop now c) = IDLE.
Proof.
  unfold stop. rewrite smTransition_state.
  match goal with |- context [isValidTransition ?s IDLE] => destruct s end; reflexivity.
Qed.

Lemma handleBargeIn_state now c :
  getCurrentState (handleBargeIn now c)
  = if isValidTransition (getCurrentState c) BARGE_IN then BARGE_IN
    else getCurrentState c.
Proof.
  unfold handleBargeIn.
  change (getCurrentState (set_timers ?t ?x)) with (getCurrentState x).
  rewrite smTransition_state. unfold getCurrentState, getState.
  rewrite stopAudioPlayback_machine. reflexivity.
Qed.

Lemma playNextInQueue_machine c : stateMachine (playNextInQueue c) = stateMachine c.
Proof.
  unfold playNextInQueue. destruct (audioQueue c); [ reflexivity |].
  destruct (audioContext c); simpl; [| reflexivity ].
  destruct (getLipSyncEngine (callbacks c)); reflexivity.
Qed.

Lemma afterGrace_state now c :
  getCurrentState (afterGrace now c)
  = match getCurrentState c with BARGE_IN => LISTENING | s => s end.
Proof.
  unfold afterGrace.
  destruct (getCurrentState c) eqn:Hs; unfold getCurrentState in Hs; rewrite Hs; simpl;
    try (unfold getCurrentState; exact Hs).
  apply smTransition_listening.
Qed.

(** Once the turn is over the events around it keep the state in
    LISTENING or IDLE and report no error. *)
Lemma settled_step ev now c :
  settled c ->
  let '(c', t') := step JSON_parse decodeAudioData ev now (c, Finished) in
  t' = Finished /\ settled c' /\ errors c' = errors c.
Proof.
  intros Hs.
  assert (Hk : keeps c (fst (step JSON_parse decodeAudioData ev now (c, Finished))))
    by (apply keeps_step; destruct ev as [o | o | o | | | |]; try destruct o;
        try reflexivity; destruct error; reflexivity).
  destruct Hk as [Hk _].
  destruct ev as [o | o | o | | | |]; simpl in *;
    (split; [ reflexivity |]); (split; [| exact Hk ]); try exact Hs.
  - unfold settled. rewrite handleBargeIn_state.
    destruct Hs as [E | E]; rewrite E; simpl; auto.
  - right. apply stop_state.
  - unfold settled, fireTimer. destruct (timers c) as [| due rest]; [ exact Hs |].
    destruct (due <=? now)%Z; [| exact Hs ].
    rewrite afterGrace_state.
    change (getCurrentState (set_timers rest c)) with (getCurrentState c).
    destruct Hs as [E | E]; rewrite E; auto.
  - unfold settled, onended, getCurrentState, getState.
    rewrite playNextInQueue_machine. exact Hs.
Qed.

Lemma settled_steps evs :
  forall c,
    settled c ->
    let '(c', t') := steps JSON_parse decodeAudioData evs (c, Finished) in
    t' = Finished /\ settled c' /\ errors c' = errors c.
Proof.
  induction evs as [| [ev now] rest IH]; intros c Hs; cbn [steps].
  - auto.
  - pose proof (settled_step ev now c Hs) as H1.
    destruct (step JSON_parse decodeAudioData ev now (c, Finished)) as [c1 t1].
    destruct H1 as [Et [Hs1 He1]]. subst t1.
    specialize (IH c1 Hs1).
    destruct (steps JSON_parse decodeAudioData rest (c1, Finished)) as [c2 t2].
    destruct IH as [Et [Hs2 He2]].
    split; [ exact Et | split; [ exact Hs2 | congruence ] ].
Qed.

Lemma catchInput_spec message now c :
  getCurrentState (catchInput message now c) = LISTENING /\
  errors (catchInput message now c)
  = errors c ++ (if onError (callbacks c) then [OnError ("Error: " ++ message)] else []).
Proof.
  unfold catchInput. split; [ apply smTransition_listening |].
  rewrite smTransition_errors.
  destruct (onError (callbacks c));
    [ apply notify_error | rewrite notify_error_unregistered, app_nil_r; reflexivity ].
Qed.

Lemma catchSpeak_spec message now c :
  getCurrentState (catchSpeak message now c) = LISTENING /\
  errors (catchSpeak message now c)
  = errors c ++ (if onError (callbacks c) then [OnError ("TTS error: " ++ message)] else []).
Proof.
  unfold catchSpeak. split; [ apply smTransition_listening |].
  rewrite smTransition_errors.
  destruct (onError (callbacks c));
    [ apply notify_error | rewrite notify_error_unregistered, app_nil_r; reflexivity ].
Qed.

Lemma failure_step ev t now c message :
  failure ev t = Some message ->
  let '(c', t') := step JSON_parse decodeAudioData ev now (c, t) in
  t' = Finished /\ getCurrentState c' = LISTENING /\
  errors c' = errors c ++ (if onError (callbacks c) then [OnError message] else []).
Proof.
  intros Hf.
  destruct ev as [[m | st | [e |] text id] | [m | st | |] | [m | | chunk] | | | |];
    destruct t; simpl in Hf; try discriminate Hf;
    unfold step, resumeChat, resumeTts, resumeRead.
  - injection Hf as <-. split; [ reflexivity | apply catchInput_spec ].
  - injection Hf as <-. split; [ reflexivity | apply catchInput_spec ].
  - destruct (JsString.truthy e); [| discriminate Hf ].
    injection Hf as <-. split; [ reflexivity | apply catchInput_spec ].
  - injection Hf as <-. split; [ reflexivity | apply catchSpeak_spec ].
  - injection Hf as <-. split; [ reflexivity | apply catchSpeak_spec ].
  - injection Hf as <-. split; [ reflexivity | apply catchSpeak_spec ].
  - injection Hf as <-. split; [ reflexivity | apply catchSpeak_spec ].
Qed.

End Turns.

Lemma getCurrentState_set_timers v c :
  getCurrentState (set_timers v c) = getCurrentState c.
Proof. reflexivity. Qed.

Lemma stopAudioPlayback_spec c :
  let c' := stopAudioPlayback c in
  currentSourceNode c' = None /\ audioQueue c' = [] /\ isPlaying c' = false /\
  timers c' = timers c /\
  audio c' = audio c ++ match currentSourceNode c with
                        | Some b => [SourceStop b]
                        | None => []
                        end.
Proof.
  destruct c as [a1 a2 a3 a4 a5 a6 source a8 a9 a10 node a12 a13 a14].
  unfold stopAudioPlayback.
  destruct source, node; simpl; repeat split; try reflexivity;
    symmetry; apply app_nil_r.
Qed.

(** ** Barge-in *)

(** What [handleBargeIn] does once it is called in SPEAKING: it stops
    the playing source node, empties the audio queue, clears the playing
    flag, puts the machine in BARGE_IN and schedules one callback 300 ms
    later.  The callback moves the machine on to LISTENING only when it
    finds it in BARGE_IN and otherwise changes nothing; it does not run
    before it is due; and after an explicit [stop()] during the delay
    the machine stays in IDLE. *)
Theorem handleBargeIn_stops_playback_then_listens (c : VoiceCoordinator) (now : Z) :
  getCurrentState c = SPEAKING ->
  let c1 := handleBargeIn now c in
  (currentSourceNode c1 = None /\
   audio c1 = audio c ++ match currentSourceNode c with
                         | Some b => [SourceStop b]
                         | None => []
                         end) /\
  (audioQueue c1 = [] /\ isPlaying c1 = false) /\
  getCurrentState c1 = BARGE_IN /\
  timers c1 = timers c ++ [now + 300] /\
  (forall c2 later,
     (getCurrentState c2 = BARGE_IN ->
      getCurrentState (afterGrace later c2) = LISTENING) /\
     (getCurrentState c2 <> BARGE_IN -> afterGrace later c2 = c2)) /\
  (timers c = [] ->
   forall later,
     (later < now + 300 -> fireTimer later c1 = c1) /\
     (now + 300 <= later -> getCurrentState (fireTimer later c1) = LISTENING) /\
     (forall stopped,
        getCurrentState (stop stopped c1) = IDLE /\
        getCurrentState (fireTimer later (stop stopped c1)) = IDLE)).
Proof.
  intros Hs c1.
  assert (Hv : isValidTransition
                 (state (stateMachine (stopAudioPlayback c))) BARGE_IN = true).
  { rewrite stopAudioPlayback_machine. unfold getCurrentState, getState in Hs.
    rewrite Hs. reflexivity. }
  destruct (stopAudioPlayback_spec c) as [S1 [S2 [S3 [S4 S5]]]].
  destruct (smTransition_frame BARGE_IN now (stopAudioPlayback c))
    as [_ [_ [_ [F1 [F2 [F3 [F4 [F5 _]]]]]]]].
  assert (Hstate : getCurrentState c1 = BARGE_IN).
  { subst c1. rewrite handleBargeIn_state, Hs. reflexivity. }
  set (cb := smTransition BARGE_IN now (stopAudioPlayback c)) in *.
  assert (E1 : timers c1 = timers cb ++ [now + 300]) by reflexivity.
  assert (E2 : currentSourceNode c1 = currentSourceNode cb) by reflexivity.
  assert (E3 : audio c1 = audio cb) by reflexivity.
  assert (E4 : audioQueue c1 = audioQueue cb) by reflexivity.
  assert (E5 : isPlaying c1 = isPlaying cb) by reflexivity.
  assert (Htimers : timers c1 = timers c ++ [now + 300]) by congruence.
  clearbody c1 cb.
  split; [ split; congruence |].
  split; [ split; congruence |].
  split; [ exact Hstate |].
  split; [ exact Htimers |].
  split.
  { intros c2 later. split.
    - intros E. rewrite afterGrace_state, E. reflexivity.
    - intros N. unfold afterGrace.
      destruct (state_eqb (getState (stateMachine c2)) BARGE_IN) eqn:E;
        [| reflexivity ].
      apply state_eqb_eq in E. contradiction. }
  intros Hempty later. rewrite Hempty in Htimers. simpl in Htimers.
  split; [| split ].
  - intros Hlt. unfold fireTimer. rewrite Htimers.
    destruct (Z.leb_spec (now + 300) later); [ lia | reflexivity ].
  - intros Hge. unfold fireTimer. rewrite Htimers.
    destruct (Z.leb_spec (now + 300) later); [| lia ].
    rewrite afterGrace_state, getCurrentState_set_timers.
    rewrite Hstate. reflexivity.
  - intros stopped. split; [ apply stop_state |].
    unfold fireTimer. destruct (timers (stop stopped c1)) as [| due rest];
      [ apply stop_state |].
    destruct (due <=? later); [| apply stop_state ].
    rewrite afterGrace_state, getCurrentState_set_timers.
    rewrite stop_state. reflexivity.
Qed.

Lemma handleBargeIn_in_session :
  let c := fst speaking in
  let c1 := handleBargeIn 70 c in
  getCurrentState c = SPEAKING /\
  currentSourceNode c = Some "A1"%string /\
  currentSourceNode c1 = None /\ audioQueue c1 = [] /\ isPlaying c1 = false /\
  getCurrentState c1 = BARGE_IN /\
  fireTimer 369 c1 = c1 /\
  getCurrentState (fireTimer 370 c1) = LISTENING /\
  getCurrentState (fireTimer 370 (stop 100 c1)) = IDLE.
Proof.
  intros c c1.
  assert (Hs : getCurrentState c = SPEAKING) by (vm_compute; reflexivity).
  pose proof (handleBargeIn_stops_playback_then_listens c 70 Hs) as H.
  destruct H as [[H1 _] [[H2 H3] [H4 [_ [_ H5]]]]].
  assert (Ht : timers c = []) by (vm_compute; reflexivity).
  destruct (H5 Ht 369) as [H6 _]. destruct (H5 Ht 370) as [_ [H7 H8]].
  split; [ exact Hs |]. split; [ vm_compute; reflexivity |].
  split; [ exact H1 |]. split; [ exact H2 |]. split; [ exact H3 |].
  split; [ exact H4 |]. split; [ apply H6; lia |].
  split; [ apply H7; lia | apply (H8 100) ].
Defined.

(** ** C2 *)

(** C2 does not hold of the code: the signal of the detector does not
    reach the coordinator.  While A1 is playing in SPEAKING, the partial
    transcript "wait" passes the length test and the debounce of the
    detector, which stores the time of the trigger; its callback field
    is [null], so [handleBargeIn] is not run: the node keeps playing,
    the machine stays in SPEAKING and no timer is scheduled. *)
Theorem detector_trigger_does_not_reach_coordinator :
  let c := fst speaking in
  let c' := fst (handleTranscript "wait" false 1000 c) in
  (getCurrentState c = SPEAKING /\ currentSourceNode c = Some "A1"%string /\
   isPlaying c = true) /\
  (BargeIn.lastBargeIn (bargeInDetector c) = 0 /\
   BargeIn.lastBargeIn (bargeInDetector c') = 1000) /\
  BargeIn.onBargeIn (bargeInDetector c) = None /\
  (getCurrentState c' = SPEAKING /\ currentSourceNode c' = Some "A1"%string /\
   isPlaying c' = true /\ audio c' = audio c /\ timers c' = []).
Proof. vm_compute. repeat split; reflexivity. Qed.

(** ** C3 *)

(** C3.  When the chat call or the TTS call of a turn fails (a response
    that is not ok, an error body, a thrown error), the coordinator
    calls [onError] once, with "Error: " or "TTS error: " followed by
    the message of the failure, and the machine is in LISTENING.  The
    turn is over: whatever happens around it afterwards reports no
    further error and leaves the machine in LISTENING or IDLE, never in
    THINKING or SPEAKING.  Events at which no call fails report no
    error. *)
Theorem failure_reports_once_and_listens
    (JSON_parse : string -> option string)
    (decodeAudioData : string -> option AudioBuffer)
    (c : VoiceCoordinator) (t : Turn) (ev : Event) (now : Z) (message : string) :
  failure ev t = Some message ->
  onError (callbacks c) = true ->
  let '(c', t') := step JSON_parse decodeAudioData ev now (c, t) in
  t' = Finished /\
  getCurrentState c' = LISTENING /\
  errors c' = errors c ++ [OnError message] /\
  (exists detail,
     message = ("Error: " ++ detail)%string \/
     message = ("TTS error: " ++ detail)%string) /\
  (forall evs,
     let c'' := fst (steps JSON_parse decodeAudioData evs (c', t')) in
     errors c'' = errors c' /\
     (getCurrentState c'' = LISTENING \/ getCurrentState c'' = IDLE) /\
     getCurrentState c'' <> THINKING /\ getCurrentState c'' <> SPEAKING) /\
  (forall ev0 t0 now0 c0,
     failure ev0 t0 = None ->
     errors (fst (step JSON_parse decodeAudioData ev0 now0 (c0, t0))) = errors c0).
Proof.
  intros Hf Hreg.
  pose proof (failure_step JSON_parse decodeAudioData ev t now c message Hf) as H.
  destruct (step JSON_parse decodeAudioData ev now (c, t)) as [c' t'].
  destruct H as [Et [Hs He]]. rewrite Hreg in He. subst t'.
  split; [ reflexivity |]. split; [ exact Hs |]. split; [ exact He |].
  split.
  { destruct ev as [[m | st | [e |] text id] | [m | st | |] | [m | | chunk] | | | |];
      destruct t; simpl in Hf; try discriminate Hf;
      try (destruct (JsString.truthy e); [| discriminate Hf ]);
      injection Hf as <-; eexists; (left; reflexivity) || (right; reflexivity). }
  split.
  { intros evs c''. subst c''.
    pose proof (settled_steps JSON_parse decodeAudioData evs c' (or_introl Hs)) as H.
    destruct (steps JSON_parse decodeAudioData evs (c', Finished)) as [c2 t2].
    destruct H as [_ [Hset Herr]]. simpl.
    split; [ exact Herr |]. split; [ exact Hset |].
    destruct Hset as [E | E]; rewrite E; split; discriminate. }
  intros ev0 t0 now0 c0 Hn.
  apply (keeps_step JSON_parse decodeAudioData ev0 now0 c0 t0 Hn).
Qed.

Lemma failure_reports_once_and_listens_witness :
  let c0 := fst (start None 0 (new suppliedContext allObservers)) in
  let s := handleTranscript "hi" true 10 c0 in
  let s' := step Some Some (EvChat (ChatNotOk "Bad Gateway")) 20 s in
  getCurrentState (fst s) = THINKING /\
  getCurrentState (fst s') = LISTENING /\
  errors (fst s') = [OnError "Error: API error: Bad Gateway"].
Proof.
  intros c0 s s'.
  split; [ vm_compute; reflexivity |].
  pose proof (failure_reports_once_and_listens Some Some (fst s) (snd s)
                (EvChat (ChatNotOk "Bad Gateway")) 20
                "Error: API error: Bad Gateway" eq_refl eq_refl) as H.
  change (fst s, snd s) with s in H. fold s' in H.
  destruct s' as [c' t']. destruct H as [_ [H1 [H2 _]]].
  split; [ exact H1 | exact H2 ].
Defined.

(** ** C4 *)

(** C4 does not hold of the code: the read loop of [speakResponse]
    checks nothing before it enqueues.  With a supplied audio context,
    the chunk that arrives after [stop()] is decoded, queued and
    started although the machine is in IDLE; the same happens after a
    barge-in. *)
Theorem chunk_after_cancellation_is_played :
  (let c := fst (staleChunk EvStop) in
   getCurrentState c = IDLE /\
   started (audio c) = ["A1"; "A2"]%string /\
   audio c = [SttStart; LipSyncConnect "A1"; SourceStart "A1"; SttStop;
              SourceStop "A1"; LipSyncConnect "A2"; SourceStart "A2"]%string /\
   currentSourceNode c = Some "A2"%string /\ isPlaying c = true) /\
  (let c := fst (staleChunk EvBargeIn) in
   getCurrentState c = BARGE_IN /\
   started (audio c) = ["A1"; "A2"]%string /\
   currentSourceNode c = Some "A2"%string /\ isPlaying c = true).
Proof. vm_compute. repeat split; reflexivity. Qed.

End VoiceCoordinatorFacts.

(* ===================================================================== *)
(** * Further properties of the conversation state machine                *)
(* ===================================================================== *)

Module StateHistoryFacts.

Import ConversationState.
Import ConversationStateFacts.
Import StateHistory.

Lemma linked_snoc h t :
  linked (h ++ [t]) <->
  linked h /\ (forall r, last h = Some r -> to r = from t).
Proof.
  induction h as [| r1 [| r2 rest] IH].
  - simpl. split; [ intros _; split; [ exact I | discriminate ] | auto ].
  - simpl. split.
    + intros [E _]. split; [ exact I |]. intros r Hr. injection Hr as <-. exact E.
    + intros [_ H]. split; [ apply H; reflexivity | exact I ].
  - change ((r1 :: r2 :: rest) ++ [t]) with (r1 :: (r2 :: rest) ++ [t]).
    change (linked (r1 :: (r2 :: rest) ++ [t]))
      with (to r1 = from r2 /\ linked ((r2 :: rest) ++ [t])).
    change (linked (r1 :: r2 :: rest)) with (to r1 = from r2 /\ linked (r2 :: rest)).
    rewrite last_cons_cons. rewrite IH. tauto.
Qed.

Lemma linked_tl h : linked h -> linked (tl h).
Proof. destruct h as [| r1 [| r2 rest]]; simpl; tauto. Qed.

Lemma last_tl {A} (h : list A) : (2 <= length h)%nat -> last (tl h) = last h.
Proof.
  destruct h as [| x [| y rest]]; simpl; try lia. intros _. reflexivity.
Qed.

Lemma pushHistory_consistent m to_ now r :
  consistent m ->
  allowed (state m) to_ ->
  consistent {| state := to_;
                history := pushHistory (history m) (mkTransition (state m) to_ now r) |}.
Proof.
  intros [Hl [Ha Hlast]] Hallowed. unfold consistent. simpl.
  rewrite pushHistory_spec.
  set (t := mkTransition (state m) to_ now r).
  assert (Hkeep : linked (if (length (history m) <? maxHistorySize)%nat
                          then history m else tl (history m)) /\
                  Forall (fun t => allowed (from t) (to t))
                    (if (length (history m) <? maxHistorySize)%nat
                     then history m else tl (history m)) /\
                  forall r0,
                    last (if (length (history m) <? maxHistorySize)%nat
                          then history m else tl (history m)) = Some r0 ->
                    to r0 = state m).
  { destruct (Nat.ltb_spec (length (history m)) maxHistorySize) as [Hlt | Hge].
    - split; [ exact Hl |]. split; [ exact Ha |].
      intros r0 Hr0. rewrite Hr0 in Hlast. exact Hlast.
    - split; [ apply linked_tl, Hl |].
      split; [ destruct (history m); [ constructor | inversion Ha; assumption ] |].
      intros r0 Hr0. rewrite last_tl in Hr0
        by (unfold maxHistorySize in Hge; lia).
      rewrite Hr0 in Hlast. exact Hlast. }
  destruct Hkeep as [K1 [K2 K3]].
  split; [ apply linked_snoc; split; [ exact K1 | intros r0 Hr0; apply (K3 r0 Hr0) ] |].
  split; [ apply Forall_app; split; [ exact K2 | constructor; [ exact Hallowed | constructor ] ] |].
  rewrite last_snoc. reflexivity.
Qed.

Lemma run_consistent {W} (cbs : ConversationStateCallbacks W) reqs :
  forall m w acc,
    consistent m ->
    consistent (fst (fst (run cbs reqs m w acc))).
Proof.
  induction reqs as [| q rest IH]; intros m w acc Hm; simpl; [ exact Hm |].
  destruct (isValidTransition (state m) (req_to q)) eqn:Hv.
  - destruct (transition_valid cbs (req_to q) (req_reason q) (req_now q) m w Hv)
      as [w' Ht].
    rewrite Ht. apply IH. apply pushHistory_consistent; [ exact Hm |].
    now apply isValidTransition_allowed.
  - rewrite (transition_invalid cbs _ _ _ m w Hv). apply IH, Hm.
Qed.

Lemma initial_consistent : consistent initial.
Proof. repeat split; constructor. Qed.

Lemma bargeIn_from_history h :
  linked h -> Forall (fun t => allowed (from t) (to t)) h ->
  Forall (fun t => to t = BARGE_IN -> from t = SPEAKING) h /\ bargeInLeft h.
Proof.
  induction h as [| r1 [| r2 rest] IH]; intros Hl Ha.
  - split; constructor.
  - split; [| exact I ]. constructor; [| constructor ].
    inversion Ha as [| ? ? H1 _]; subst. intros E. rewrite E in H1. now inversion H1.
  - destruct Hl as [E Hl]. inversion Ha as [| ? ? H1 Ha']; subst.
    destruct (IH Hl Ha') as [IH1 IH2]. split.
    + constructor; [| exact IH1 ]. intros Eb. rewrite Eb in H1. now inversion H1.
    + split; [| exact IH2 ]. intros Eb.
      inversion Ha' as [| ? ? H2 _]; subst. rewrite <- E, Eb in H2.
      inversion H2; auto.
Qed.

(** X1.  After any sequence of requests on a fresh machine the history
    is a path through the table that ends in the current state: every
    record is an allowed transition, each record starts where the one
    before it ended, and the last record ends in the current state (a
    machine without history is in IDLE). *)
Theorem history_is_a_path {W} (cbs : ConversationStateCallbacks W)
    (reqs : list Request) (w : W) :
  let m := fst (fst (run cbs reqs initial w [])) in
  linked (history m) /\
  Forall (fun t => allowed (from t) (to t)) (history m) /\
  match last (history m) with
  | Some r => to r = state m
  | None => state m = IDLE
  end.
Proof. apply (run_consistent cbs reqs initial w [] initial_consistent). Qed.

(** X2.  In any history of a run on a fresh machine, BARGE_IN is entered
    from SPEAKING only, and the record after one that enters BARGE_IN
    leaves it for LISTENING or IDLE. *)
Theorem barge_in_only_from_speaking {W} (cbs : ConversationStateCallbacks W)
    (reqs : list Request) (w : W) :
  let m := fst (fst (run cbs reqs initial w [])) in
  Forall (fun t => to t = BARGE_IN -> from t = SPEAKING) (history m) /\
  bargeInLeft (history m).
Proof.
  destruct (run_consistent cbs reqs initial w [] initial_consistent) as [Hl [Ha _]].
  apply bargeIn_from_history; assumption.
Qed.

Lemma last_lastn {A} n (l : list A) : (0 < n)%nat -> last (lastn n l) = last l.
Proof.
  intros Hn. unfold lastn.
  destruct (last l) as [x |] eqn:Hl.
  - apply last_Some in Hl. destruct Hl as [l' ->].
    rewrite length_app. simpl.
    rewrite skipn_app.
    replace (length l' + 1 - n - length l')%nat with 0%nat by lia.
    simpl. apply last_snoc.
  - apply last_None in Hl. subst l. reflexivity.
Qed.

(** X3.  [getTimeInCurrentState] is 0 until a transition has been
    accepted and afterwards the time since the last accepted
    transition; rejected requests do not restart it. *)
Theorem time_since_last_accepted {W} (cbs : ConversationStateCallbacks W)
    (reqs : list Request) (w : W) (now : Z) :
  let '(m, _, accepted) := run cbs reqs initial w [] in
  getTimeInCurrentState now m
  = match last accepted with
    | Some t => now - timestamp t
    | None => 0
    end.
Proof.
  pose proof (run_history cbs reqs initial w [] eq_refl) as H.
  destruct (run cbs reqs initial w []) as [[m w'] accepted].
  destruct H as [H _]. unfold getTimeInCurrentState. rewrite H.
  rewrite last_lastn by (unfold maxHistorySize; lia). reflexivity.
Qed.

(** X4.  With all five callbacks registered, an accepted transition
    calls the generic callback once with (from, to, reason) and then
    the callback of the state entered, IDLE having none; a rejected one
    calls nothing. *)
Theorem callbacks_in_order (m : ConversationStateMachine) (to_ : ConversationState)
    (reason_ : option string) (now : Z) (log : list Notice) :
  transition recording to_ reason_ now m log
  = if isValidTransition (state m) to_
    then (true,
          {| state := to_;
             history := pushHistory (history m)
                          (mkTransition (state m) to_ now reason_) |},
          log ++ Changed (state m) to_ reason_ :: entering to_)
    else (false, m, log).
Proof.
  unfold transition. destruct (isValidTransition (state m) to_); simpl; [| reflexivity ].
  destruct to_; simpl; rewrite <- ?app_assoc; reflexivity.
Qed.

(** X5.  LISTENING and IDLE are the two states a single request always
    reaches: whatever the current state, the machine is in the
    requested state afterwards (the request is allowed, or the machine
    is there already); for each of the other three targets some state
    rejects the request and stays where it is. *)
Theorem always_reachable_targets {W} (cbs : ConversationStateCallbacks W)
    (w : W) (target : ConversationState) :
  (forall m reason_ now,
     state (snd (fst (transition cbs target reason_ now m w))) = target)
  <-> target = LISTENING \/ target = IDLE.
Proof.
  split.
  - intros H.
    destruct target; auto; exfalso.
    + specialize (H {| state := IDLE; history := [] |} None 0).
      rewrite transition_invalid in H by reflexivity. discriminate H.
    + specialize (H {| state := IDLE; history := [] |} None 0).
      rewrite transition_invalid in H by reflexivity. discriminate H.
    + specialize (H {| state := SPEAKING; history := [] |} None 0).
      rewrite transition_invalid in H by reflexivity. discriminate H.
  - intros Ht m reason_ now.
    destruct (isValidTransition (state m) target) eqn:Hv.
    + destruct (transition_valid cbs target reason_ now m w Hv) as [w' E].
      rewrite E. reflexivity.
    + rewrite (transition_invalid cbs _ _ _ m w Hv). simpl.
      destruct Ht as [-> | ->]; destruct (state m); try reflexivity; discriminate Hv.
Qed.

End StateHistoryFacts.

(* ===================================================================== *)
(** * Further properties of the barge-in detector                         *)
(* ===================================================================== *)

Module BargeInRunsFacts.

Import BargeIn.
Import BargeInRuns.

Lemma trimStart_blank s : blank s = true -> JsString.trimStart s = EmptyString.
Proof.
  induction s as [| c rest IH]; simpl; [ reflexivity |].
  intros H. apply andb_true_iff in H. destruct H as [Hc Hr].
  rewrite Hc. apply IH, Hr.
Qed.

Lemma trim_blank s : blank s = true -> JsString.trim s = EmptyString.
Proof.
  intros H. unfold JsString.trim. rewrite (trimStart_blank s H). reflexivity.
Qed.

Lemma trigger_fields {W} ev now (d : BargeInDetector W) w :
  let d' := fst (triggerBargeIn ev now d w) in
  config d' = config d /\ energyHistory d' = energyHistory d /\
  vadWindowSize d' = vadWindowSize d /\
  partialTranscript d' = partialTranscript d /\ onBargeIn d' = onBargeIn d.
Proof.
  unfold triggerBargeIn. destruct (_ <? _); simpl; repeat split.
Qed.

Lemma ceilDiv256_spec n :
  256 * (ceilDiv256 n - 1) < n /\ n <= 256 * ceilDiv256 n.
Proof. unfold ceilDiv256. Z.div_mod_to_equations. lia. Qed.

Section Numeric.

Variable Math_sqrt : Q -> Q.
Variable Math_pow : Q -> Q -> Q.

Lemma call_window {W} (c : Call) (d : BargeInDetector W) w :
  windowBounded d ->
  let d' := fst (call Math_sqrt Math_pow c d w) in
  windowBounded d' /\ vadWindowSize d' = vadWindowSize d.
Proof.
  intros Hb. unfold windowBounded in *.
  destruct c as [a ts now | t f ts now | a t f ts now]; simpl.
  - unfold processAudioChunk.
    set (h1 := energyHistory d ++ [calculateEnergy Math_sqrt a]).
    set (h2 := if vadWindowSize d <? Z.of_nat (length h1) then tl h1 else h1).
    assert (Hh2 : Z.of_nat (length h2) <= Z.max 0 (vadWindowSize d)).
    { subst h2.
      assert (Hl : length h1 = S (length (energyHistory d)))
        by (subst h1; rewrite length_app; simpl; lia).
      destruct (Z.ltb_spec (vadWindowSize d) (Z.of_nat (length h1))) as [Hlt | Hge].
      - destruct h1; simpl in *; lia.
      - lia. }
    match goal with |- context [if ?b then _ else _] => destruct b end.
    + destruct (trigger_fields
                  {| timestamp := ts; reason := energy;
                     confidence := calculateConfidence Math_pow (withEnergyHistory h2 d)
                                     (getAverageEnergy (withEnergyHistory h2 d));
                     details := mkDetails
                                  (Some (getAverageEnergy (withEnergyHistory h2 d))) None |}
                  now (withEnergyHistory h2 d) w) as [_ [E1 [E2 _]]].
      rewrite E1, E2. simpl. split; [ exact Hh2 | reflexivity ].
    + simpl. split; [ exact Hh2 | reflexivity ].
  - unfold processTranscript. destruct f; simpl; [ split; [ exact Hb | reflexivity ] |].
    match goal with |- context [if ?b then _ else _] => destruct b end.
    + match goal with |- context [triggerBargeIn ?ev ?n ?d1 ?w1] =>
        destruct (trigger_fields ev n d1 w1) as [_ [E1 [E2 _]]] end.
      rewrite E1, E2. simpl. split; [ exact Hb | reflexivity ].
    + simpl. split; [ exact Hb | reflexivity ].
  - unfold processCombined.
    match goal with |- context [if ?b then _ else _] => destruct b end.
    + match goal with |- context [triggerBargeIn ?ev ?n ?d1 ?w1] =>
        destruct (trigger_fields ev n d1 w1) as [_ [E1 [E2 _]]] end.
      rewrite E1, E2. split; [ exact Hb | reflexivity ].
    + simpl. split; [ exact Hb | reflexivity ].
Qed.

Lemma calls_window {W} cs :
  forall (d : BargeInDetector W) w,
    windowBounded d ->
    let d' := fst (calls Math_sqrt Math_pow cs d w) in
    windowBounded d' /\ vadWindowSize d' = vadWindowSize d.
Proof.
  induction cs as [| c rest IH]; intros d w Hb; simpl; [ split; [ exact Hb | reflexivity ] |].
  pose proof (call_window c d w Hb) as H.
  destruct (call Math_sqrt Math_pow c d w) as [d1 w1]. simpl in H.
  destruct H as [H1 H2].
  destruct (IH d1 w1 H1) as [I1 I2]. split; [ exact I1 | congruence ].
Qed.

(** With a window that holds nothing, a chunk changes nothing. *)
Lemma chunk_without_window (d : BargeInDetector (list BargeInEvent)) a ts now w :
  vadWindowSize d <= 0 -> energyHistory d = [] ->
  (0 <= nullish (energyThreshold (config d)) 0.02)%Q ->
  processAudioChunk Math_sqrt Math_pow a ts now d w = (d, w).
Proof.
  intros Hv He Ht.
  destruct d as [cfg0 last0 hist size pt cb]. cbn [vadWindowSize energyHistory config] in *.
  subst hist. apply Qle_bool_iff in Ht.
  unfold processAudioChunk. cbn [energyHistory vadWindowSize app].
  replace (size <? Z.of_nat (length [calculateEnergy Math_sqrt a])) with true
    by (symmetry; apply Z.ltb_lt; cbn [length]; lia).
  cbn [tl]. unfold withEnergyHistory, getAverageEnergy, Qgtb.
  cbn [energyHistory config]. rewrite Ht. reflexivity.
Qed.

End Numeric.

(** X6.  However the detector is configured and whatever calls it has
    received, the window of recent energies holds at most
    [vadWindowSize] values, and that size is the window in milliseconds
    divided by 256 and rounded up. *)
Theorem energy_window_bounded
    (Math_sqrt : Q -> Q) (Math_pow : Q -> Q -> Q) {W}
    (cfg : BargeInConfig) (cs : list Call) (w : W) :
  let d := fst (calls Math_sqrt Math_pow cs (new cfg) w) in
  let ms := nullish (vadWindowMs cfg) 200 in
  Z.of_nat (length (energyHistory d)) <= Z.max 0 (vadWindowSize d) /\
  256 * (vadWindowSize d - 1) < ms /\ ms <= 256 * vadWindowSize d.
Proof.
  intros d ms.
  assert (H0 : windowBounded (new (W := W) cfg)) by (unfold windowBounded; simpl; lia).
  destruct (calls_window Math_sqrt Math_pow cs (new cfg) w H0) as [H1 H2].
  fold d in H1, H2. split; [ exact H1 |].
  rewrite H2. apply ceilDiv256_spec.
Qed.

(** X7.  A detector configured with a window of 0 ms or less never
    reports a barge-in from audio chunks, however loud: with a threshold
    that is not negative, any sequence of [processAudioChunk] calls
    leaves the detector as it was and calls the callback never. *)
Theorem nonpositive_window_disables_energy
    (Math_sqrt : Q -> Q) (Math_pow : Q -> Q -> Q)
    (cfg : BargeInConfig) (ms : Z) (cs : list Call) (w : list BargeInEvent) :
  vadWindowMs cfg = Some ms ->
  ms <= 0 ->
  (0 <= nullish (energyThreshold cfg) 0.02)%Q ->
  forallb isAudioChunk cs = true ->
  calls Math_sqrt Math_pow cs (setBargeInCallback record (new cfg)) w
  = (setBargeInCallback record (new cfg), w).
Proof.
  intros Hms Hle Hthr Hcs.
  set (d := setBargeInCallback record (new cfg)).
  assert (Hv : vadWindowSize d <= 0).
  { subst d. simpl. rewrite Hms. simpl.
    pose proof (ceilDiv256_spec ms). lia. }
  assert (He : energyHistory d = []) by reflexivity.
  assert (Ht : (0 <= nullish (energyThreshold (config d)) 0.02)%Q) by exact Hthr.
  clearbody d. induction cs as [| c rest IH]; simpl; [ reflexivity |].
  simpl in Hcs. apply andb_true_iff in Hcs. destruct Hcs as [Hc Hrest].
  destruct c as [a ts now | |]; try discriminate Hc. simpl.
  rewrite (chunk_without_window Math_sqrt Math_pow d a ts now w Hv He Ht).
  apply IH, Hrest.
Qed.

Lemma nonpositive_window_disables_energy_witness :
  let cfg := mkConfig None None None (Some 0) in
  calls (fun x => x) (fun x _ => x)
    [CallAudioChunk [1%Q; 1%Q] 1000 1000; CallAudioChunk [1%Q] 2000 2000]
    (setBargeInCallback record (new cfg)) []
  = (setBargeInCallback record (new cfg), []).
Proof.
  intros cfg.
  apply (nonpositive_window_disables_energy (fun x => x) (fun x _ => x) cfg 0).
  - reflexivity.
  - lia.
  - vm_compute. discriminate.
  - reflexivity.
Defined.

(** X8.  [reset()] empties the energy window and the partial transcript
    and keeps the time of the last honoured trigger: an attempt that
    comes within the debounce time of that trigger is dropped after a
    reset as it would have been before. *)
Theorem reset_keeps_debounce {W} (d : BargeInDetector W)
    (ev : BargeInEvent) (now : Z) (w : W) :
  energyHistory (reset d) = [] /\
  partialTranscript (reset d) = EmptyString /\
  lastBargeIn (reset d) = lastBargeIn d /\
  config (reset d) = config d /\
  (now - lastBargeIn d < nullish (debounceMs (config d)) 300 ->
   triggerBargeIn ev now (reset d) w = (reset d, w)).
Proof.
  repeat split. intros Hlt.
  apply (BargeInFacts.trigger_dropped (reset d) ev now w). exact Hlt.
Qed.

Lemma reset_keeps_debounce_witness :
  let d := fst (triggerBargeIn (sampleEvent 1000) 1000
                  (setBargeInCallback record (new emptyConfig)) []) in
  lastBargeIn (reset d) = 1000 /\
  triggerBargeIn (sampleEvent 1200) 1200 (reset d) [sampleEvent 1000]
  = (reset d, [sampleEvent 1000]).
Proof.
  intros d.
  destruct (reset_keeps_debounce d (sampleEvent 1200) 1200 [sampleEvent 1000])
    as [_ [_ [H1 [_ H2]]]].
  split; [ exact H1 |]. apply H2. vm_compute. reflexivity.
Defined.

(** X9.  A final transcript never triggers and clears the retained
    partial transcript; a partial transcript is retained as received;
    and a partial transcript of white space only never triggers when
    the minimum length is at least 1. *)
Theorem transcript_edges {W} (d : BargeInDetector W)
    (text : string) (ts now : Z) (w : W) :
  processTranscript text true ts now d w = (withPartial EmptyString d, w) /\
  partialTranscript (fst (processTranscript text false ts now d w)) = text /\
  (blank text = true ->
   1 <= nullish (minTranscriptLength (config d)) 3 ->
   processTranscript text false ts now d w = (withPartial text d, w)).
Proof.
  split; [ reflexivity |]. split.
  - unfold processTranscript. simpl.
    match goal with |- context [if ?b then _ else _] => destruct b end;
      [| reflexivity ].
    match goal with |- context [triggerBargeIn ?ev ?n ?d1 ?w1] =>
      destruct (trigger_fields ev n d1 w1) as [_ [_ [_ [E _]]]] end.
    rewrite E. reflexivity.
  - intros Hb Hmin. unfold processTranscript. simpl.
    rewrite (trim_blank text Hb).
    change (Z.of_nat (String.length EmptyString)) with 0.
    change (config (withPartial text d)) with (config d).
    destruct (Z.leb_spec (nullish (minTranscriptLength (config d)) 3) 0);
      [ lia | reflexivity ].
Qed.

Lemma transcript_edges_witness :
  let d := setBargeInCallback record (new emptyConfig) in
  processTranscript "     " false 1000 1000 d [] = (withPartial "     " d, []).
Proof.
  intros d.
  destruct (transcript_edges d "     " 1000 1000 []) as [_ [_ H]].
  apply H; [ reflexivity | vm_compute; discriminate ].
Defined.

(** X10.  A trigger that is honoured while no callback is registered
    still takes the debounce window: it stores its time, nobody is
    called, and an attempt that follows within the debounce time is
    dropped even if a callback has been registered in between. *)
Theorem unheard_trigger_takes_the_window {W} (d : BargeInDetector W)
    (f : BargeInEvent -> W -> W) (ev1 ev2 : BargeInEvent) (t1 t2 : Z) (w : W) :
  onBargeIn d = None ->
  nullish (debounceMs (config d)) 300 <= t1 - lastBargeIn d ->
  t2 - t1 < nullish (debounceMs (config d)) 300 ->
  let '(d1, w1) := triggerBargeIn ev1 t1 d w in
  w1 = w /\ lastBargeIn d1 = t1 /\
  triggerBargeIn ev2 t2 (setBargeInCallback f d1) w
  = (setBargeInCallback f d1, w).
Proof.
  intros Hn H1 H2. unfold triggerBargeIn at 1.
  destruct (Z.ltb_spec (t1 - lastBargeIn d) (nullish (debounceMs (config d)) 300));
    [ lia |].
  rewrite Hn. split; [ reflexivity |]. split; [ reflexivity |].
  apply BargeInFacts.trigger_dropped. simpl. exact H2.
Qed.

Lemma unheard_trigger_takes_the_window_witness :
  let d := new (W := list BargeInEvent) emptyConfig in
  let d1 := fst (triggerBargeIn (sampleEvent 1000) 1000 d []) in
  lastBargeIn d1 = 1000 /\
  triggerBargeIn (sampleEvent 1100) 1100 (setBargeInCallback record d1) []
  = (setBargeInCallback record d1, []).
Proof.
  intros d d1.
  pose proof (unheard_trigger_takes_the_window d record (sampleEvent 1000)
                (sampleEvent 1100) 1000 1100 [] eq_refl) as H.
  assert (H1 : nullish (debounceMs (config d)) 300 <= 1000 - lastBargeIn d)
    by (vm_compute; discriminate).
  assert (H2 : 1100 - 1000 < nullish (debounceMs (config d)) 300)
    by (vm_compute; reflexivity).
  specialize (H H1 H2). fold d1 in H.
  destruct (triggerBargeIn (sampleEvent 1000) 1000 d []) as [d1' w1] eqn:E.
  subst d1. simpl in *. destruct H as [_ [Ha Hb]]. split; assumption.
Defined.

(** X11.  [processCombined] does not look at [isFinal], and it neither
    records the chunk in the energy window nor retains the transcript:
    apart from the time of the last trigger the detector is as
    before. *)
Theorem combined_ignores_final_and_window
    (Math_sqrt : Q -> Q) {W}
    (d : BargeInDetector W) (audioData : list Q) (text : string)
    (isFinal : bool) (ts now : Z) (w : W) :
  processCombined Math_sqrt audioData text isFinal ts now d w
  = processCombined Math_sqrt audioData text (negb isFinal) ts now d w /\
  let d' := fst (processCombined Math_sqrt audioData text isFinal ts now d w) in
  energyHistory d' = energyHistory d /\
  partialTranscript d' = partialTranscript d /\
  config d' = config d /\ vadWindowSize d' = vadWindowSize d.
Proof.
  split; [ reflexivity |]. unfold processCombined.
  match goal with |- context [if ?b then _ else _] => destruct b end.
  - match goal with |- context [triggerBargeIn ?ev ?n ?d1 ?w1] =>
      destruct (trigger_fields ev n d1 w1) as [E0 [E1 [E2 [E3 _]]]] end.
    simpl. auto.
  - simpl. auto.
Qed.

End BargeInRunsFacts.

(* ===================================================================== *)
(** * Further properties of the lip sync engine                           *)
(* ===================================================================== *)

Module LipSyncRangesFacts.

Import Binary64.
Import Binary64Facts.
Import LipSync.
Import LipSyncFacts.
Import LipSyncRanges.
Local Open Scope Q_scope.

Lemma round_inUnit x : inUnit x -> inUnit (round x).
Proof.
  intros [H0 H1]. apply (round_between 0 1 x isDouble_0 isDouble_1 H0 H1).
Qed.

Lemma normalized_byte b : isByte b -> inUnit (div (inject_Z b) 255).
Proof.
  intros [H1 H2]. rewrite Zle_Qle in H1, H2.
  change (inject_Z 0) with 0 in H1. change (inject_Z 255) with 255 in H2.
  apply round_inUnit.
  set (x := inject_Z b) in *. clearbody x. split.
  - apply Qle_shift_div_l; [ reflexivity | lra ].
  - apply Qle_shift_div_r; [ reflexivity | lra ].
Qed.

Lemma bytes_repeat b n : isByte b -> Forall isByte (repeat b n).
Proof. intros Hb. induction n; simpl; constructor; assumption. Qed.

(** A sum of [k] terms of [0,1] is at most [k]; from 2 ^ 53 on it
    grows no further. *)
Lemma add_capped acc x k :
  (0 <= k)%Z -> 0 <= acc -> acc <= inject_Z (cap k) -> inUnit x ->
  0 <= add acc x /\ add acc x <= inject_Z (cap (k + 1)).
Proof.
  intros Hk Ha0 Ha1 [Hx0 Hx1]. unfold add. split.
  - change 0 with (round 0). apply round_le. lra.
  - unfold cap in *. destruct (Z.lt_ge_cases k (2 ^ 53)) as [Hlt | Hge].
    + rewrite Z.min_l in Ha1 by lia. rewrite Z.min_l by lia.
      assert (Hd : isDouble (inject_Z (k + 1))) by (apply integer_isDouble; lia).
      unfold isDouble in Hd. rewrite <- Hd. apply round_le.
      rewrite inject_Z_plus. change (inject_Z 1) with 1. lra.
    + rewrite Z.min_r in Ha1 by lia. rewrite Z.min_r by lia.
      apply Qle_trans with (round (inject_Z (2 ^ 53) + 1)).
      * apply round_le. lra.
      * vm_compute. discriminate.
Qed.

Lemma sum_bounds bins :
  Forall isByte bins ->
  forall acc k,
    (0 <= k)%Z -> 0 <= acc -> acc <= inject_Z (cap k) ->
    let s := fold_left (fun sum b => add sum (div (inject_Z b) 255)) bins acc in
    0 <= s /\ s <= inject_Z (cap (k + Z.of_nat (length bins))).
Proof.
  induction 1 as [| b rest Hb _ IH]; intros acc k Hk Ha0 Ha1.
  - cbn [fold_left length]. rewrite Z.add_0_r. split; assumption.
  - cbn [fold_left].
    destruct (add_capped acc (div (inject_Z b) 255) k Hk Ha0 Ha1 (normalized_byte b Hb))
      as [A0 A1].
    destruct (IH _ (k + 1)%Z ltac:(lia) A0 A1) as [I0 I1].
    split; [ exact I0 |].
    replace (k + Z.of_nat (length (b :: rest)))%Z
      with (k + 1 + Z.of_nat (length rest))%Z by (cbn [length]; lia).
    exact I1.
Qed.

Lemma mean_inUnit bins :
  Forall isByte bins -> bins <> [] ->
  inUnit (div (sumNormalized bins) (inject_Z (Z.of_nat (length bins)))).
Proof.
  intros Hb Hne. unfold sumNormalized.
  destruct (sum_bounds bins Hb 0 0%Z ltac:(lia) ltac:(apply Qle_refl)
              ltac:(apply Qle_refl)) as [S0 S1].
  cbv zeta in S0, S1. rewrite Z.add_0_l in S1.
  assert (Hcap : inject_Z (cap (Z.of_nat (length bins)))
                 <= inject_Z (Z.of_nat (length bins)))
    by (rewrite <- Zle_Qle; unfold cap; lia).
  assert (Hpos : 0 < inject_Z (Z.of_nat (length bins))).
  { change 0 with (inject_Z 0). rewrite <- Zlt_Qlt.
    destruct bins; [ contradiction | cbn [length]; lia ]. }
  apply round_inUnit.
  set (s := fold_left _ bins 0) in *.
  set (c := inject_Z (cap _)) in *. set (n := inject_Z (Z.of_nat _)) in *.
  clearbody s c n. split.
  - apply Qle_shift_div_l; [ exact Hpos | lra ].
  - apply Qle_shift_div_r; [ exact Hpos | lra ].
Qed.

Lemma band_inUnit e minFreq maxFreq :
  Forall isByte (dataArray e) -> inUnit (getFrequencyBand e minFreq maxFreq).
Proof.
  intros Hb. unfold getFrequencyBand.
  destruct (analyser e) as [a |]; [| split; discriminate ].
  cbv zeta.
  set (visited := firstn _ (skipn _ (dataArray e))).
  assert (Hv : Forall isByte visited)
    by (subst visited; apply Forall_take, Forall_drop, Hb).
  destruct (Nat.ltb_spec 0 (length visited)) as [Hlt | Hge];
    [| split; discriminate ].
  apply mean_inUnit; [ exact Hv |]. intros E. rewrite E in Hlt. simpl in Hlt. lia.
Qed.

Lemma volume_inUnit e :
  Forall isByte (dataArray e) -> dataArray e <> [] -> inUnit (getOverallVolume e).
Proof. intros Hb Hne. unfold getOverallVolume. now apply mean_inUnit. Qed.

Lemma scaled_inUnit c volume : inUnit c -> inUnit volume -> inUnit (mul c volume).
Proof.
  intros [C0 C1] [V0 V1]. unfold mul. apply round_inUnit. split; nra.
Qed.

Lemma literal_inUnit q : inUnit q -> inUnit (literal q).
Proof. apply round_inUnit. Qed.

Lemma mapToVisemes_inUnit low mid high volume :
  inUnit volume ->
  map_Forall (fun (_ : string) v => inUnit v) (mapToVisemes low mid high volume).
Proof.
  intros V. rewrite mapToVisemes_classify.
  destruct (classify low mid high volume); cbn [poseWeights];
    unfold silencePose, sibilantPose, openVowelPose, closedConsonantPose,
      midVowelPose, roundedVowelPose, neutralPose;
    repeat (apply map_Forall_insert_2;
            [ lazymatch goal with
              | |- inUnit (mul _ _) =>
                  apply scaled_inUnit;
                  [ apply literal_inUnit; split; discriminate | exact V ]
              | |- inUnit (literal _) => apply literal_inUnit; split; discriminate
              | |- inUnit _ => split; discriminate
              end |]);
    apply map_Forall_empty.
Qed.

Lemma classified_inUnit a bins key :
  Forall isByte bins -> bins <> [] -> inUnit (weightOf (classified a bins) key).
Proof.
  intros Hb Hne. unfold weightOf.
  destruct (classified a bins !! key) as [v |] eqn:Hv; [| split; discriminate ].
  unfold classified in Hv.
  eapply (mapToVisemes_inUnit _ _ _ _ _ key v Hv).
  Unshelve. apply volume_inUnit; assumption.
Qed.

(** X12.  For byte-valued bins the three band energies and, when there
    is at least one bin, the overall volume lie in [0,1], and so does
    every weight of the weight set a poll classifies. *)
Theorem classified_weights_in_unit_interval
    (a : AnalyserNode) (bins : list Z) (e : LipSyncEngine) (minFreq maxFreq : Q) :
  Forall isByte bins ->
  bins <> [] ->
  dataArray e = bins ->
  inUnit (getFrequencyBand e minFreq maxFreq) /\
  inUnit (getOverallVolume e) /\
  (forall key v, classified a bins !! key = Some v -> inUnit v).
Proof.
  intros Hb Hne He.
  split; [ apply band_inUnit; rewrite He; exact Hb |].
  split; [ apply volume_inUnit; rewrite He; assumption |].
  intros key v Hv. pose proof (classified_inUnit a bins key Hb Hne) as H.
  unfold weightOf in H. rewrite Hv in H. exact H.
Qed.

Lemma classified_weights_in_unit_interval_witness :
  let bins := [200; 10; 0; 255]%Z in
  let e := {| analyser := Some (mkAnalyser 24000); dataArray := bins;
              smoothingFactor := literal 0.3; previousWeights := ∅ |} in
  inUnit (getFrequencyBand e 0 300) /\ inUnit (getOverallVolume e).
Proof.
  intros bins e.
  assert (Hb : Forall isByte bins)
    by (repeat constructor; unfold isByte; lia).
  assert (Hne : bins <> []) by discriminate.
  destruct (classified_weights_in_unit_interval (mkAnalyser 24000) bins e 0 300
              Hb Hne eq_refl) as [H1 [H2 _]].
  split; assumption.
Defined.

(** X13.  A poll keeps every key it has ever stored: the keys of the
    smoothed weight set are those of the previous set together with
    those of the newly classified one, so over any number of polls the
    set of keys only grows. *)
Theorem keys_are_never_dropped (e : LipSyncEngine) (a : AnalyserNode)
    (bins : list Z) (n : nat) :
  analyser e = Some a ->
  dom (snd (getCurrentViseme bins e))
  = dom (previousWeights e) ∪ dom (classified a bins) /\
  previousWeights (fst (getCurrentViseme bins e)) = snd (getCurrentViseme bins e) /\
  dom (previousWeights e) ⊆ dom (previousWeights (polls n bins e)).
Proof.
  intros Ha.
  assert (Hdom : forall e0 w,
             dom (smoothWeights e0 w) = dom (previousWeights e0) ∪ dom w).
  { intros e0 w. apply leibniz_equiv, set_equiv. intros k.
    rewrite elem_of_dom, lookup_smoothWeights.
    destruct (decide (k ∈ dom (previousWeights e0) ∪ dom w)) as [Hin | Hout].
    - split; [ intros _; exact Hin | intros _; eexists; reflexivity ].
    - split; [ intros [x Hx]; discriminate Hx | intros Hin; contradiction ]. }
  rewrite (getCurrentViseme_live bins e a Ha). cbn [fst snd previousWeights].
  split; [ apply Hdom |]. split; [ reflexivity |].
  revert e Ha. induction n as [| n IH]; intros e Ha; [ reflexivity |].
  cbn [polls]. pose proof (getCurrentViseme_live bins e a Ha) as E.
  assert (Ha' : analyser (fst (getCurrentViseme bins e)) = Some a)
    by (rewrite E; reflexivity).
  specialize (IH _ Ha'). rewrite E in IH at 1. cbn [fst previousWeights] in IH.
  rewrite Hdom in IH.
  transitivity (dom (previousWeights e) ∪ dom (classified a bins));
    [ apply union_subseteq_l | exact IH ].
Qed.

Lemma keys_are_never_dropped_witness :
  let e := fst (getCurrentViseme (repeat 255%Z 128) (new 24000)) in
  dom (previousWeights e)
  ⊆ dom (previousWeights (polls 3 (repeat 0%Z 128) e)).
Proof.
  intros e.
  destruct (keys_are_never_dropped e (mkAnalyser 24000) (repeat 0%Z 128) 3 eq_refl)
    as [_ [_ H]].
  exact H.
Defined.

(** With the factor 0 a step returns the old value. *)
Lemma frozen_step v t f :
  f == 0 -> inUnit v -> isDouble v -> clamp01 (add v (mul (sub t v) f)) == v.
Proof.
  intros Hf [V0 V1] Hd.
  assert (E : mul (sub t v) f = 0).
  { unfold mul. set (d := sub t v). clearbody d.
    assert (E0 : d * f == 0) by (rewrite Hf; ring).
    rewrite (round_comp _ _ E0). reflexivity. }
  rewrite E. unfold add.
  assert (E1 : v + 0 == v) by ring.
  rewrite (round_comp _ _ E1). unfold isDouble in Hd.
  rewrite (clamp01_id (round v)); [ exact Hd | rewrite Hd; exact V0 | rewrite Hd; exact V1 ].
Qed.

(** X15.  [setSmoothingFactor] clamps its argument to [0,1]: a factor
    between 0 and 1 is stored as it is, a smaller one as 0 and a larger
    one as 1.  With a factor of 0 or less the weights never move,
    whatever is polled and however often. *)
Theorem smoothing_factor_extremes (e : LipSyncEngine) (a : AnalyserNode)
    (factor : Q) (bins : list Z) (key : string) (n : nat) :
  reachable e ->
  analyser e = Some a ->
  let e' := setSmoothingFactor factor e in
  inUnit (smoothingFactor e') /\
  (0 <= factor -> factor <= 1 -> smoothingFactor e' == factor) /\
  (1 <= factor -> smoothingFactor e' == 1) /\
  (factor <= 0 ->
   smoothingFactor e' == 0 /\
   weightOf (previousWeights (polls n bins e')) key
   == weightOf (previousWeights e) key).
Proof.
  intros Hr Ha e'.
  assert (Hr' : reachable e') by (apply reach_factor, Hr).
  assert (Ha' : analyser e' = Some a) by exact Ha.
  pose proof (reachable_wellFormed e' Hr') as Hwf'.
  split; [ apply clamp01_range |].
  split; [ intros H0 H1; apply clamp01_id; assumption |].
  split; [ apply clamp01_high |].
  intros Hle.
  assert (Hz : smoothingFactor e' == 0) by (apply clamp01_low, Hle).
  split; [ exact Hz |].
  change (previousWeights e) with (previousWeights (polls 0 bins e')).
  induction n as [| n IH]; [ reflexivity |].
  destruct (polls_directed bins a key n e' Hwf' Ha') as [Hstep _].
  cbv zeta in Hstep. rewrite Hstep.
  destruct (polls_frame bins a n e' Hwf' Ha') as [[_ Hw] _].
  destruct (Hw key) as [Hu Hd].
  rewrite (frozen_step _ _ _ Hz Hu Hd). exact IH.
Qed.

Lemma smoothing_factor_extremes_witness :
  let e := fst (getCurrentViseme silentWindow (new 24000)) in
  weightOf (previousWeights (polls 3 hummedWindow (setSmoothingFactor (-1) e)))
    "mouthClose"
  == weightOf (previousWeights e) "mouthClose".
Proof.
  intros e.
  assert (Hr : reachable e) by (apply reach_poll, reach_new).
  destruct (smoothing_factor_extremes e (mkAnalyser 24000) (-1) hummedWindow
              "mouthClose" 3 Hr eq_refl) as [_ [_ [_ H]]].
  apply H. discriminate.
Defined.

(** X16.  After [dispose()] a poll returns the empty weight set and
    changes nothing, however often it is repeated; the band energies
    read as 0, and disposing again changes nothing. *)
Theorem disposed_engine_is_inert (e : LipSyncEngine) (bins : list Z)
    (n : nat) (minFreq maxFreq : Q) :
  snd (getCurrentViseme bins (dispose e)) = ∅ /\
  polls n bins (dispose e) = dispose e /\
  getFrequencyBand (dispose e) minFreq maxFreq = 0 /\
  dispose (dispose e) = dispose e.
Proof.
  split; [ reflexivity |]. split; [| split; reflexivity ].
  induction n as [| n IH]; [ reflexivity | exact IH ].
Qed.

End LipSyncRangesFacts.

(* ===================================================================== *)
(** * Properties of sessions of the voice coordinator                     *)
(* ===================================================================== *)

Module SessionFacts.

Import ConversationState.
Import ConversationStateFacts.
Import StateHistory.
Import StateHistoryFacts.
Import VoiceCoordinator.
Import VoiceCoordinatorFacts.
Import Session.

(** ** What the hook shows *)

Lemma displayed_snoc log n :
  displayedState (log ++ [n]) = shown (displayedState log) n.
Proof. unfold displayedState. rewrite fold_left_app. reflexivity. Qed.

Lemma displayed_deliver registered n log :
  isStateChange n = false ->
  displayedState (deliver registered n log) = displayedState log.
Proof.
  intros Hn. unfold deliver. destruct registered; [| reflexivity ].
  rewrite displayed_snoc. destruct n; try reflexivity. discriminate Hn.
Qed.

Lemma last_pushHistory h t : last (pushHistory h t) = Some t.
Proof. rewrite pushHistory_spec. apply last_snoc. Qed.

(** ** Quiet moves *)

Lemma quiet_refl c : quiet c c.
Proof. repeat split. Qed.

Lemma quiet_notify registered n c :
  isStateChange n = false -> quiet c (notify registered n c).
Proof.
  intros Hn. unfold quiet, notify. simpl.
  rewrite (displayed_deliver registered n (observed c) Hn). repeat split.
Qed.

Lemma quiet_act a c : quiet c (act a c).
Proof. repeat split. Qed.

Lemma quiet_set_stt v c : quiet c (set_stt v c).
Proof. repeat split. Qed.

Lemma quiet_set_conversationId v c : quiet c (set_conversationId v c).
Proof. repeat split. Qed.

Lemma quiet_set_bargeInDetector d c :
  BargeIn.onBargeIn d = BargeIn.onBargeIn (bargeInDetector c) ->
  quiet c (set_bargeInDetector d c).
Proof. intros H. unfold quiet. simpl. rewrite H. repeat split. Qed.

(** ** The invariant, part by part *)

Lemma machine_part_transition to_ now c :
  consistent (stateMachine c) ->
  (onStateChange (callbacks c) = true ->
   displayedState (observed c) = lastFrom (stateMachine c)) ->
  consistent (stateMachine (smTransition to_ now c)) /\
  (onStateChange (callbacks (smTransition to_ now c)) = true ->
   displayedState (observed (smTransition to_ now c))
   = lastFrom (stateMachine (smTransition to_ now c))).
Proof.
  intros H1 H2.
  destruct (isValidTransition (state (stateMachine c)) to_) eqn:Hv.
  - rewrite (smTransition_valid to_ now c Hv). simpl. split.
    + apply pushHistory_consistent; [ exact H1 |].
      now apply isValidTransition_allowed.
    + intros Hr. rewrite Hr. unfold deliver, lastFrom. simpl.
      rewrite displayed_snoc, last_pushHistory. reflexivity.
  - rewrite (smTransition_invalid to_ now c Hv). split; assumption.
Qed.

Lemma smTransition_offstage to_ now c :
  timers (smTransition to_ now c) = timers c /\
  audioContext (smTransition to_ now c) = audioContext c /\
  currentEventSource (smTransition to_ now c) = currentEventSource c /\
  audioQueue (smTransition to_ now c) = audioQueue c /\
  isPlaying (smTransition to_ now c) = isPlaying c /\
  currentSourceNode (smTransition to_ now c) = currentSourceNode c /\
  bargeInDetector (smTransition to_ now c) = bargeInDetector c /\
  stt (smTransition to_ now c) = stt c /\
  config (smTransition to_ now c) = config c /\
  conversationId (smTransition to_ now c) = conversationId c /\
  audio (smTransition to_ now c) = audio c /\
  callbacks (smTransition to_ now c) = callbacks c.
Proof.
  destruct (isValidTransition (state (stateMachine c)) to_) eqn:Hv.
  - rewrite (smTransition_valid to_ now c Hv). repeat split.
  - rewrite (smTransition_invalid to_ now c Hv). repeat split.
Qed.

(** The two callers of [playNextInQueue] keep the playback fields in
    order. *)
Lemma onended_playback c :
  (isPlaying c = false -> currentSourceNode c = None /\ audioQueue c = []) ->
  (currentSourceNode c <> None \/ audioQueue c <> [] -> audioContext c = true) ->
  let c' := onended c in
  (isPlaying c' = false -> currentSourceNode c' = None /\ audioQueue c' = []) /\
  (currentSourceNode c' <> None \/ audioQueue c' <> [] -> audioContext c' = true).
Proof.
  intros H3 H4.
  destruct c as [a1 a2 a3 a4 a5 ctx a7 queue playing a10 node a12 a13 a14].
  unfold onended, playNextInQueue.
  cbn [audioQueue audioContext isPlaying currentSourceNode set_currentSourceNode] in *.
  destruct queue as [| b rest].
  - cbn. split; [ intros _; split; reflexivity |].
    intros [N | N]; contradiction.
  - assert (Hctx : ctx = true) by (apply H4; right; discriminate).
    subst ctx. cbn. destruct (getLipSyncEngine a4); cbn;
      (split; [ discriminate | intros _; reflexivity ]).
Qed.

Lemma playAudioChunk_playback decodeAudioData a c :
  (isPlaying c = false -> currentSourceNode c = None /\ audioQueue c = []) ->
  (currentSourceNode c <> None \/ audioQueue c <> [] -> audioContext c = true) ->
  let c' := playAudioChunk decodeAudioData a c in
  (isPlaying c' = false -> currentSourceNode c' = None /\ audioQueue c' = []) /\
  (currentSourceNode c' <> None \/ audioQueue c' <> [] -> audioContext c' = true).
Proof.
  intros H3 H4.
  destruct c as [a1 a2 a3 a4 a5 ctx a7 queue playing a10 node a12 a13 a14].
  unfold playAudioChunk, playNextInQueue.
  cbn [audioQueue audioContext isPlaying currentSourceNode set_audioQueue] in *.
  destruct ctx; cbn; [| split; assumption ].
  destruct (decodeAudioData a) as [b |]; [| split; assumption ].
  destruct playing; cbn.
  - split; [ discriminate | intros _; reflexivity ].
  - destruct (H3 eq_refl) as [-> ->]. cbn.
    destruct (getLipSyncEngine a4); cbn;
      (split; [ discriminate | intros _; reflexivity ]).
Qed.

Lemma playback_offstage_chunk decodeAudioData a c :
  let c' := playAudioChunk decodeAudioData a c in
  stateMachine c' = stateMachine c /\ callbacks c' = callbacks c /\
  observed c' = observed c /\ timers c' = timers c /\
  currentEventSource c' = currentEventSource c /\
  bargeInDetector c' = bargeInDetector c /\ audioContext c' = audioContext c.
Proof.
  destruct c as [a1 a2 a3 a4 a5 ctx a7 queue playing a10 node a12 a13 a14].
  unfold playAudioChunk, playNextInQueue. cbn.
  destruct ctx; cbn; [| repeat split ].
  destruct (decodeAudioData a) as [b |]; [| repeat split ].
  destruct playing; cbn; [ repeat split |].
  destruct (queue ++ [b]) as [| x rest]; cbn; [ repeat split |].
  destruct (getLipSyncEngine a4); repeat split.
Qed.

Lemma playback_offstage_ended c :
  let c' := onended c in
  stateMachine c' = stateMachine c /\ callbacks c' = callbacks c /\
  observed c' = observed c /\ timers c' = timers c /\
  currentEventSource c' = currentEventSource c /\
  bargeInDetector c' = bargeInDetector c /\ audioContext c' = audioContext c.
Proof.
  destruct c as [a1 a2 a3 a4 a5 ctx a7 queue playing a10 node a12 a13 a14].
  unfold onended, playNextInQueue. cbn.
  destruct queue as [| x rest]; cbn; [ repeat split |].
  destruct ctx; cbn; [| repeat split ].
  destruct (getLipSyncEngine a4); repeat split.
Qed.

Lemma stopAudioPlayback_offstage c :
  let c' := stopAudioPlayback c in
  stateMachine c' = stateMachine c /\ callbacks c' = callbacks c /\
  observed c' = observed c /\ timers c' = timers c /\
  currentEventSource c' = false /\
  bargeInDetector c' = bargeInDetector c /\ audioContext c' = audioContext c /\
  stt c' = stt c /\ config c' = config c /\ conversationId c' = conversationId c.
Proof.
  destruct c as [a1 a2 a3 a4 a5 ctx source queue playing a10 node a12 a13 a14].
  unfold stopAudioPlayback. destruct source, node; repeat split.
Qed.

Section Moves.

Variable JSON_parse : string -> option string.
Variable decodeAudioData : string -> option AudioBuffer.

Lemma invariant_transition external to_ now c :
  to_ <> BARGE_IN ->
  invariant external c -> invariant external (smTransition to_ now c).
Proof.
  intros Hto [I1 [I2 [I3 [I4 [I5 [I6 [I7 I8]]]]]]].
  destruct (machine_part_transition to_ now c I1 I2) as [M1 M2].
  destruct (smTransition_offstage to_ now c)
    as [E1 [E2 [E3 [E4 [E5 [E6 [E7 _]]]]]]].
  assert (Hs : getCurrentState (smTransition to_ now c) = BARGE_IN ->
               getCurrentState c = BARGE_IN).
  { rewrite smTransition_state.
    destruct (isValidTransition (getCurrentState c) to_); [| auto ].
    intros E. contradiction. }
  unfold invariant. rewrite E1, E2, E3, E4, E5, E6, E7.
  split; [ exact M1 |]. split; [ exact M2 |].
  split; [ exact I3 |]. split; [ exact I4 |]. split; [ exact I5 |].
  split; [ exact I6 |]. split; [ intros E; apply I7, Hs, E |].
  intros He. destruct (I8 He) as [N T]. split; [| exact T ].
  intros E. apply N, Hs, E.
Qed.

Lemma invariant_quiet external c c' :
  quiet c c' -> invariant external c -> invariant external c'.
Proof.
  intros [Q1 [Q2 [Q3 [Q4 [Q5 [Q6 [Q7 [Q8 [Q9 Q10]]]]]]]]].
  intros [I1 [I2 [I3 [I4 [I5 [I6 [I7 I8]]]]]]].
  unfold invariant, getCurrentState, getState in *.
  rewrite Q1, Q2, Q3, Q4, Q5, Q6, Q7, Q8, Q9, Q10. tauto.
Qed.

(** A move that leaves machine, observers, timers and detector alone and
    keeps the playback fields in order keeps the invariant. *)
Lemma invariant_playback external c c' :
  stateMachine c' = stateMachine c -> callbacks c' = callbacks c ->
  observed c' = observed c -> timers c' = timers c ->
  currentEventSource c' = false ->
  bargeInDetector c' = bargeInDetector c ->
  (isPlaying c' = false -> currentSourceNode c' = None /\ audioQueue c' = []) ->
  (currentSourceNode c' <> None \/ audioQueue c' <> [] -> audioContext c' = true) ->
  invariant external c -> invariant external c'.
Proof.
  intros E1 E2 E3 E4 E5 E6 P3 P4 [I1 [I2 [_ [_ [_ [I6 [I7 I8]]]]]]].
  unfold invariant, getCurrentState, getState in *.
  rewrite E1, E2, E3, E4, E5, E6. tauto.
Qed.

Lemma invariant_stopAudioPlayback external c :
  invariant external c -> invariant external (stopAudioPlayback c).
Proof.
  intros I.
  destruct (stopAudioPlayback_offstage c) as [E1 [E2 [E3 [E4 [E5 [E6 _]]]]]].
  destruct (stopAudioPlayback_spec c) as [S1 [S2 [S3 _]]].
  apply (invariant_playback external c); try assumption.
  - intros _. split; assumption.
  - intros [N | N]; contradiction.
Qed.

Lemma invariant_timers external v c :
  (getCurrentState c = BARGE_IN -> v <> []) ->
  (external = false -> v = []) ->
  invariant external c -> invariant external (set_timers v c).
Proof.
  intros Hb He [I1 [I2 [I3 [I4 [I5 [I6 [I7 I8]]]]]]].
  unfold invariant, getCurrentState, getState in *.
  cbn [stateMachine callbacks observed isPlaying currentSourceNode audioQueue
       audioContext currentEventSource bargeInDetector timers set_timers].
  tauto.
Qed.

Lemma invariant_moves external c c' :
  moves decodeAudioData external c c' ->
  invariant external c -> invariant external c'.
Proof.
  induction 1 as [c c' Hq | to_ now c Hto | a c | c | c | c | c Hn Hqe | now c
                  | now c Hext | c1 c2 c3 _ IH1 _ IH2]; intros I.
  - apply (invariant_quiet external c c' Hq I).
  - apply invariant_transition; assumption.
  - destruct (playback_offstage_chunk decodeAudioData a c)
      as [E1 [E2 [E3 [E4 [E5 [E6 E7]]]]]].
    pose proof I as [I1 [I2 [I3 [I4 [I5 I6]]]]].
    destruct (playAudioChunk_playback decodeAudioData a c I3 I4) as [P3 P4].
    apply (invariant_playback external c); try assumption; congruence.
  - destruct (playback_offstage_ended c) as [E1 [E2 [E3 [E4 [E5 [E6 E7]]]]]].
    pose proof I as [I1 [I2 [I3 [I4 [I5 I6]]]]].
    destruct (onended_playback c I3 I4) as [P3 P4].
    apply (invariant_playback external c); try assumption; congruence.
  - apply invariant_stopAudioPlayback, I.
  - pose proof I as [I1 [I2 [I3 [I4 [I5 I6]]]]].
    apply (invariant_playback external c); try reflexivity; try assumption;
      try exact I3; intros _; reflexivity.
  - pose proof I as [I1 [I2 [I3 [I4 [I5 I6]]]]].
    apply (invariant_playback external c); try reflexivity; try assumption;
      try exact I3; cbn; intros [N | N]; contradiction.
  - unfold fireTimer. destruct (timers c) as [| due rest] eqn:Ht; [ exact I |].
    destruct (due <=? now)%Z; [| exact I ].
    assert (Hext : external = false -> False).
    { intros He. destruct I as [_ [_ [_ [_ [_ [_ [_ I8]]]]]]].
      destruct (I8 He) as [_ T]. rewrite Ht in T. discriminate T. }
    unfold afterGrace.
    change (getState (stateMachine (set_timers rest c))) with (getCurrentState c).
    destruct (state_eqb (getCurrentState c) BARGE_IN) eqn:Hs.
    + (* the machine leaves BARGE_IN *)
      assert (I' : invariant external (smTransition LISTENING now c))
        by (apply invariant_transition; [ discriminate | exact I ]).
      assert (Hl : getCurrentState (smTransition LISTENING now c) = LISTENING)
        by apply smTransition_listening.
      pose proof (invariant_timers external rest (smTransition LISTENING now c)) as H.
      assert (Heq : set_timers rest (smTransition LISTENING now c)
                    = smTransition LISTENING now (set_timers rest c)).
      { destruct (isValidTransition (state (stateMachine c)) LISTENING) eqn:Hv.
        - rewrite (smTransition_valid LISTENING now c Hv).
          rewrite (smTransition_valid LISTENING now (set_timers rest c) Hv).
          reflexivity.
        - rewrite (smTransition_invalid LISTENING now c Hv).
          rewrite (smTransition_invalid LISTENING now (set_timers rest c) Hv).
          reflexivity. }
      rewrite <- Heq. apply H; [ | | exact I' ].
      * rewrite Hl. discriminate.
      * intros He. destruct (Hext He).
    + apply invariant_timers; [ | | exact I ].
      * intros E. rewrite E in Hs. discriminate Hs.
      * intros He. destruct (Hext He).
  - unfold handleBargeIn.
    set (c2 := smTransition BARGE_IN now (stopAudioPlayback c)).
    subst external.
    pose proof (invariant_stopAudioPlayback true c I)
      as [J1 [J2 [J3 [J4 [J5 [J6 [J7 J8]]]]]]].
    destruct (machine_part_transition BARGE_IN now (stopAudioPlayback c) J1 J2)
      as [M1 M2].
    destruct (smTransition_offstage BARGE_IN now (stopAudioPlayback c))
      as [E1 [E2 [E3 [E4 [E5 [E6 [E7 _]]]]]]].
    fold c2 in M1, M2, E1, E2, E3, E4, E5, E6, E7.
    unfold invariant. cbn. rewrite E2, E3, E4, E5, E6, E7.
    split; [ exact M1 |]. split; [ exact M2 |].
    split; [ exact J3 |]. split; [ exact J4 |]. split; [ exact J5 |].
    split; [ exact J6 |].
    split; [ intros _ N; destruct (timers c2); discriminate N |].
    intros He. discriminate He.
  - apply IH2, IH1, I.
Qed.

End Moves.

End SessionFacts.

(* ===================================================================== *)
(** * Invariants of sessions                                              *)
(* ===================================================================== *)

Module SessionInvariants.

Import ConversationState.
Import ConversationStateFacts.
Import StateHistory.
Import StateHistoryFacts.
Import VoiceCoordinator.
Import VoiceCoordinatorFacts.
Import Session.
Import SessionFacts.
Import SessionSamples.

Section Ops.

Variable JSON_parse : string -> option string.
Variable decodeAudioData : string -> option AudioBuffer.
Variable external : bool.

Notation "c ~> c'" := (moves decodeAudioData external c c') (at level 70).

Lemma moves_refl c : c ~> c.
Proof. apply moves_quiet, quiet_refl. Qed.

Lemma moves_notify registered n c :
  isStateChange n = false -> c ~> notify registered n c.
Proof. intros Hn. apply moves_quiet, quiet_notify, Hn. Qed.

Lemma moves_start o now c : c ~> fst (start o now c).
Proof.
  unfold start.
  destruct (if config_audioContext (config c) then None else o) as [message |]; simpl.
  - now apply moves_notify.
  - eapply moves_trans; [| apply moves_transition; discriminate ].
    eapply moves_trans; [ apply moves_acquire |].
    eapply moves_trans; [ apply moves_quiet, quiet_set_stt |].
    apply moves_quiet, quiet_act.
Qed.

Lemma moves_stop now c : c ~> stop now c.
Proof.
  unfold stop.
  set (c1 := if stt c then set_stt false (act SttStop c) else c).
  assert (M1 : c ~> c1).
  { subst c1. destruct (stt c); [| apply moves_refl ].
    eapply moves_trans; [ apply moves_quiet, quiet_act |].
    apply moves_quiet, quiet_set_stt. }
  set (c2 := stopAudioPlayback c1).
  assert (M2 : c1 ~> c2) by apply moves_stopPlayback.
  destruct (stopAudioPlayback_spec c1) as [S1 [S2 _]]. fold c2 in S1, S2.
  set (c3 := if audioContext c2 && negb (config_audioContext (config c2))
             then set_audioContext false (act ContextClose c2) else c2).
  assert (M3 : c2 ~> c3).
  { subst c3. destruct (audioContext c2 && _); [| apply moves_refl ].
    eapply moves_trans; [ apply moves_quiet, quiet_act |].
    apply moves_release; assumption. }
  eapply moves_trans; [| apply moves_transition; discriminate ].
  eapply moves_trans; [ exact M1 |]. eapply moves_trans; eassumption.
Qed.

Lemma processTranscript_callback text isFinal ts now (d : BargeIn.BargeInDetector unit) :
  BargeIn.onBargeIn (fst (BargeIn.processTranscript text isFinal ts now d tt))
  = BargeIn.onBargeIn d.
Proof.
  unfold BargeIn.processTranscript. destruct isFinal; simpl; [ reflexivity |].
  destruct (_ <=? _)%Z; [| reflexivity ].
  match goal with |- context [BargeIn.triggerBargeIn ?ev ?n ?d1 ?w1] =>
    destruct (BargeInRunsFacts.trigger_fields ev n d1 w1) as [_ [_ [_ [_ E]]]] end.
  rewrite E. reflexivity.
Qed.

Lemma moves_handleTranscript text isFinal now c :
  c ~> fst (handleTranscript text isFinal now c).
Proof.
  unfold handleTranscript, processUserInput.
  set (c1 := notify (onTranscript (callbacks c)) (OnTranscript text isFinal) c).
  assert (M1 : c ~> c1) by (now apply moves_notify).
  set (c2 := if state_eqb (getState (stateMachine c1)) SPEAKING
             then set_bargeInDetector
                    (fst (BargeIn.processTranscript text isFinal now now
                            (bargeInDetector c1) tt)) c1
             else c1).
  assert (M2 : c1 ~> c2).
  { subst c2. destruct (state_eqb _ _); [| apply moves_refl ].
    apply moves_quiet, quiet_set_bargeInDetector, processTranscript_callback. }
  destruct (isFinal && _); simpl.
  - eapply moves_trans; [| apply moves_transition; discriminate ].
    eapply moves_trans; eassumption.
  - eapply moves_trans; eassumption.
Qed.

Lemma moves_catchInput message now c : c ~> catchInput message now c.
Proof.
  unfold catchInput.
  eapply moves_trans; [| apply moves_transition; discriminate ].
  now apply moves_notify.
Qed.

Lemma moves_catchSpeak message now c : c ~> catchSpeak message now c.
Proof.
  unfold catchSpeak.
  eapply moves_trans; [| apply moves_transition; discriminate ].
  now apply moves_notify.
Qed.

Lemma moves_speakResponse text now c : c ~> fst (speakResponse text now c).
Proof.
  unfold speakResponse. destruct (_ || _); simpl.
  - apply moves_transition. discriminate.
  - eapply moves_trans;
      [ apply (moves_transition decodeAudioData external SPEAKING now c); discriminate |].
    now apply moves_notify.
Qed.

Lemma moves_reply text id now c :
  c ~> fst (speakResponse text now
              (notify (onResponse (callbacks (set_conversationId id c)))
                 (OnResponse text) (set_conversationId id c))).
Proof.
  eapply moves_trans; [| apply moves_speakResponse ].
  eapply moves_trans; [ apply moves_quiet, quiet_set_conversationId |].
  now apply moves_notify.
Qed.

Lemma moves_resumeChat o now c : c ~> fst (resumeChat o now c).
Proof.
  unfold resumeChat. destruct o as [m | st | [e |] text id]; simpl.
  - apply moves_catchInput.
  - apply moves_catchInput.
  - destruct (JsString.truthy e); simpl;
      [ apply moves_catchInput | apply moves_reply ].
  - apply moves_reply.
Qed.

Lemma moves_resumeTts o now c : c ~> fst (resumeTts o now c).
Proof.
  unfold resumeTts. destruct o; simpl;
    try apply moves_catchSpeak. apply moves_refl.
Qed.

Lemma moves_forLines lines now :
  forall c, c ~> fst (forLines JSON_parse decodeAudioData lines now c).
Proof.
  induction lines as [| line rest IH]; intros c; simpl; [ apply moves_refl |].
  destruct (JsString.startsWith line "data: "); [| apply IH ].
  destruct (String.eqb _ _); simpl.
  - eapply moves_trans; [| apply moves_transition; discriminate ].
    now apply moves_notify.
  - destruct (JSON_parse _) as [a |]; [| apply IH ].
    eapply moves_trans; [| apply IH ].
    eapply moves_trans; [| apply moves_chunk ].
    now apply moves_notify.
Qed.

Lemma moves_resumeRead o now c :
  c ~> fst (resumeRead JSON_parse decodeAudioData o now c).
Proof.
  unfold resumeRead. destruct o; simpl.
  - apply moves_catchSpeak.
  - apply moves_refl.
  - apply moves_forLines.
Qed.

Lemma new_invariant cfg cbs : invariant external (new cfg cbs).
Proof.
  unfold invariant. cbn.
  split; [ apply initial_consistent |].
  split; [ reflexivity |].
  split; [ intros _; split; reflexivity |].
  split; [ intros [N | N]; contradiction |].
  split; [ reflexivity |]. split; [ reflexivity |].
  split; [ discriminate |].
  intros _. split; [ discriminate | reflexivity ].
Qed.

Lemma reachable_invariant c :
  reachable JSON_parse decodeAudioData external c -> invariant external c.
Proof.
  induction 1 as [cfg cbs | o now c _ IH | now c _ IH | text isFinal now c _ IH
                  | o now c _ IH | o now c _ IH | o now c _ IH | c _ IH
                  | now c _ IH | now c Hext _ IH].
  - apply new_invariant.
  - apply (invariant_moves decodeAudioData external c _ (moves_start o now c) IH).
  - apply (invariant_moves decodeAudioData external c _ (moves_stop now c) IH).
  - apply (invariant_moves decodeAudioData external c _
             (moves_handleTranscript text isFinal now c) IH).
  - apply (invariant_moves decodeAudioData external c _ (moves_resumeChat o now c) IH).
  - apply (invariant_moves decodeAudioData external c _ (moves_resumeTts o now c) IH).
  - apply (invariant_moves decodeAudioData external c _ (moves_resumeRead o now c) IH).
  - apply (invariant_moves decodeAudioData external c _
             (moves_ended decodeAudioData external c) IH).
  - apply (invariant_moves decodeAudioData external c _
             (moves_timer decodeAudioData external now c) IH).
  - apply (invariant_moves decodeAudioData external c _
             (moves_bargeIn decodeAudioData external now c Hext) IH).
Qed.

End Ops.

Lemma playing_reachable external :
  reachable Some Some external playing.
Proof.
  unfold playing, started.
  apply reach_read, reach_tts, reach_chat, reach_transcript, reach_start, reach_new.
Qed.

(** X17.  As the coordinator is wired, its machine never enters
    BARGE_IN: through [start], [stop], transcripts, the resumed chat and
    TTS requests and the playback events, the state is never BARGE_IN,
    no timer is ever scheduled, the detector has no callback and
    [currentEventSource] stays unset. *)
Theorem barge_in_is_unreachable_as_wired
    (JSON_parse : string -> option string)
    (decodeAudioData : string -> option AudioBuffer) (c : VoiceCoordinator) :
  reachable JSON_parse decodeAudioData false c ->
  getCurrentState c <> BARGE_IN /\
  timers c = [] /\
  BargeIn.onBargeIn (bargeInDetector c) = None /\
  currentEventSource c = false.
Proof.
  intros Hr.
  destruct (reachable_invariant JSON_parse decodeAudioData false c Hr)
    as [_ [_ [_ [_ [I5 [I6 [_ I8]]]]]]].
  destruct (I8 eq_refl) as [N T]. auto.
Qed.

Lemma barge_in_is_unreachable_as_wired_witness :
  let c := fst (handleTranscript "wait" false 1000 playing) in
  getCurrentState c <> BARGE_IN /\ timers c = [].
Proof.
  intros c.
  assert (Hr : reachable Some Some false c)
    by (apply reach_transcript, playing_reachable).
  destruct (barge_in_is_unreachable_as_wired Some Some c Hr) as [H1 [H2 _]].
  split; assumption.
Defined.

(** X18.  The state that [useVoice] shows is the state the last
    transition left: for every coordinator of a session whose
    [onStateChange] observer is registered, the argument of the last
    [onStateChange] call is the origin of the last recorded transition.
    Once a transition has happened it differs from the current state;
    before, both are IDLE. *)
Theorem hook_shows_the_state_left
    (JSON_parse : string -> option string)
    (decodeAudioData : string -> option AudioBuffer)
    (external : bool) (c : VoiceCoordinator) :
  reachable JSON_parse decodeAudioData external c ->
  onStateChange (callbacks c) = true ->
  displayedState (observed c) = lastFrom (stateMachine c) /\
  (history (stateMachine c) <> [] ->
   displayedState (observed c) <> getCurrentState c) /\
  (history (stateMachine c) = [] ->
   displayedState (observed c) = IDLE /\ getCurrentState c = IDLE).
Proof.
  intros Hr Hreg.
  destruct (reachable_invariant JSON_parse decodeAudioData external c Hr)
    as [[_ [Ha Hl]] [I2 _]].
  specialize (I2 Hreg). split; [ exact I2 |].
  rewrite I2. unfold lastFrom, getCurrentState, getState.
  destruct (last (history (stateMachine c))) as [r |] eqn:Hlast.
  - split.
    + intros _ E.
      apply last_Some in Hlast. destruct Hlast as [l' Hh].
      rewrite Hh in Ha. apply Forall_app in Ha. destruct Ha as [_ Ha].
      inversion Ha as [| ? ? Hr0 _]; subst.
      rewrite E, Hl in Hr0.
      apply isValidTransition_allowed in Hr0.
      rewrite isValidTransition_irrefl in Hr0. discriminate Hr0.
    + intros E. rewrite E in Hlast. discriminate Hlast.
  - split; [ intros N; apply last_None in Hlast; contradiction |].
    intros _. split; [ reflexivity | exact Hl ].
Qed.

Lemma hook_shows_the_state_left_witness :
  displayedState (observed started) = IDLE /\ getCurrentState started = LISTENING /\
  displayedState (observed playing) = THINKING /\ getCurrentState playing = SPEAKING.
Proof.
  assert (Hs : reachable Some Some false started)
    by (apply reach_start, reach_new).
  destruct (hook_shows_the_state_left Some Some false started Hs eq_refl) as [H1 _].
  destruct (hook_shows_the_state_left Some Some false playing
              (playing_reachable false) eq_refl) as [H2 _].
  split; [ rewrite H1; reflexivity |]. split; [ reflexivity |].
  split; [ rewrite H2; reflexivity | reflexivity ].
Defined.

(** X19.  Should [handleBargeIn] be called, BARGE_IN is never left
    dangling: whenever the machine of a session is in BARGE_IN a timer
    is pending, and when the oldest pending timer fires at or after its
    due time the machine moves to LISTENING. *)
Theorem barge_in_has_a_pending_timer
    (JSON_parse : string -> option string)
    (decodeAudioData : string -> option AudioBuffer) (c : VoiceCoordinator) :
  reachable JSON_parse decodeAudioData true c ->
  getCurrentState c = BARGE_IN ->
  exists due rest,
    timers c = due :: rest /\
    forall now, due <= now -> getCurrentState (fireTimer now c) = LISTENING.
Proof.
  intros Hr Hs.
  destruct (reachable_invariant JSON_parse decodeAudioData true c Hr)
    as [_ [_ [_ [_ [_ [_ [I7 _]]]]]]].
  specialize (I7 Hs).
  destruct (timers c) as [| due rest] eqn:Ht; [ contradiction |].
  exists due, rest. split; [ reflexivity |].
  intros now Hle. unfold fireTimer. rewrite Ht.
  destruct (Z.leb_spec due now) as [_ | Hlt]; [| lia ].
  rewrite afterGrace_state.
  change (getCurrentState (set_timers rest c)) with (getCurrentState c).
  rewrite Hs. reflexivity.
Qed.

Lemma barge_in_has_a_pending_timer_witness :
  let c := handleBargeIn 70 playing in
  getCurrentState c = BARGE_IN /\
  exists due rest,
    timers c = due :: rest /\
    forall now, due <= now -> getCurrentState (fireTimer now c) = LISTENING.
Proof.
  intros c.
  assert (Hs : getCurrentState c = BARGE_IN) by (vm_compute; reflexivity).
  split; [ exact Hs |].
  apply (barge_in_has_a_pending_timer Some Some c); [| exact Hs ].
  apply reach_bargeIn; [ reflexivity | apply playing_reachable ].
Defined.



End SessionInvariants.
